(** * Ark: secure storage and key management

    A shallow embedding of the storage core of the Ark command line tool
    (packages [crypto], [config], [password], [storage], [models], [vault]
    and [dirlock]) together with the properties its design document
    states about it.

    Go code that touches the outside world (the file system, the bbolt
    store, the random source, the terminal, the clock) is written in a
    state-and-error monad over an explicit [World].  Code of libraries
    the repository only calls (AES-GCM, Argon2id, SHA-256, archive/zip,
    encoding/json, path/filepath) is a type class of operations, with
    the laws the proofs rely on in separate classes. *)

From Stdlib Require Import ZArith NArith Strings.Byte.
From stdpp Require Import sorting base option list gmap strings countable.

Local Open Scope Z_scope.

(* ===================================================================== *)
(** ** Data                                                               *)
(* ===================================================================== *)

(** A Go [[]byte]: a finite sequence of bytes (a nil slice and an empty
  slice are the same sequence). *)
Abbreviation bytes := (list byte).

#[global] Instance byte_eq_dec : EqDecision byte := Byte.byte_eq_dec.

(** [[]byte(s)] for a Go string [s]. *)
Definition bytes_of_string (s : string) : bytes := String.list_byte_of_string s.

(** [time.Time] as an instant: nanoseconds since the Unix epoch. *)
Abbreviation Time := Z.

(** Go [int] and [time.Duration] are 64-bit signed integers. *)
Definition wrap64 (z : Z) : Z := (z + 2 ^ 63) mod 2 ^ 64 - 2 ^ 63.

(** The zero [time.Time]: January 1, year 1, 00:00:00 UTC. *)
Definition time_zero : Time := -62135596800000000000.

(** [time.Second], in nanoseconds. *)
Definition time_Second : Z := 1000000000.

(* ===================================================================== *)
(** ** Errors                                                             *)
(* ===================================================================== *)

(** One constructor per error the modelled code can produce; [Wrap msg e]
    is [fmt.Errorf("msg: %w", e)]. *)
Inductive error : Type :=
  (* package crypto *)
  | ErrInvalidKeySize (got : nat)      (* "invalid key size: expected 32 bytes, got %d" *)
  | ErrCiphertextTooShort              (* "ciphertext too short" *)
  | ErrInvalidSaltSize (got : nat)     (* "invalid salt size: expected 32 bytes, got %d" *)
  (* crypto/aes, crypto/cipher, io *)
  | ErrAESKeySize (got : nat)          (* aes.KeySizeError *)
  | ErrGCMOpen                         (* "cipher: message authentication failed" *)
  | ErrUnexpectedEOF                   (* io.ReadFull on a short source *)
  (* package storage *)
  | ErrBucketNotFound (bucket : string)        (* "bucket %s not found" *)
  | ErrKeyNotFound (key bucket : string)       (* "key %s not found in bucket %s" *)
  (* bbolt *)
  | ErrKeyRequired | ErrKeyTooLarge | ErrValueTooLarge
  (* encoding/json, archive/zip *)
  | ErrJSON | ErrZip
  (* package config *)
  | ErrCacheNotFound                   (* "cache not found" *)
  | ErrCacheExpired                    (* "cache expired" *)
  | ErrNoSalt                          (* "no salt found in config - Ark may not be initialized..." *)
  (* package password *)
  | ErrPasswordEmpty                   (* "password cannot be empty" *)
  | ErrReadPassword                    (* the terminal read failed *)
  (* package dirlock *)
  | ErrNotADirectory (path : string)   (* "not a directory: %s" *)
  | ErrNotLocked (path : string)       (* "not locked: %s" *)
  | ErrInvalidPassword (path : string) (* "invalid password for %s" *)
  | ErrNotEncrypted                    (* "directory is not encrypted" *)
  (* os *)
  | ENOENT | EACCES | EISDIR | ENOTDIR | ENOTEMPTY
  (* path/filepath *)
  | ErrAbs
  | Wrap (msg : string) (cause : error).

(** The pair [(value, error)] a Go function returns. *)
Inductive result (A : Type) : Type :=
  | Ok (a : A)
  | Err (e : error).
Arguments Ok {A} a.
Arguments Err {A} e.

Definition is_Ok {A} (r : result A) : bool :=
  match r with Ok _ => true | Err _ => false end.

#[global] Instance result_ret : MRet result := λ A a, Ok a.
#[global] Instance result_bind : MBind result := λ A B f r,
  match r with Ok a => f a | Err e => Err e end.

(** [if err != nil { return fmt.Errorf("msg: %w", err) }] *)
Definition wrapR {A} (msg : string) (r : result A) : result A :=
  match r with Ok a => Ok a | Err e => Err (Wrap msg e) end.

(* ===================================================================== *)
(** ** The world                                                          *)
(* ===================================================================== *)

(** A file system entry.  A directory carries its regular files, keyed by
    their path relative to the directory ([filepath.Walk] skips
    everything else); a file carries its permission bits and contents.
    The permission bits of a directory stand for those of the
    directories below it.  What the process cannot remove for another
    reason (the directory it is in may not be written, it carries a
    flag that keeps it in place) is listed in [undeletable]: entries,
    and files of a directory under their full path. *)
Inductive node : Type :=
  | File (mode : N) (data : bytes)
  | Dir (mode : N) (files : gmap string bytes).

Record World : Type := mkWorld {
  fs : gmap string node;                  (* path ↦ entry *)
  hidden : gset string;                   (* paths carrying the hidden flag *)
  undeletable : gset string;              (* paths that cannot be removed *)
  euid_root : bool;                       (* the process bypasses permission bits *)
  boltdb : gmap string (gmap string bytes); (* bucket ↦ key ↦ value *)
  rand_Reader : list byte;                (* what crypto/rand will deliver *)
  stdin : list (option string);           (* outcome of each password read to come *)
  stdout : list string;                   (* prompts printed so far, latest first *)
  clock : nat → Time;                     (* what successive time.Now() calls return *)
  ticks : nat                             (* time.Now() calls made so far *)
}.

Definition set_fs (f : gmap string node → gmap string node) (w : World) : World :=
  mkWorld (f (fs w)) (hidden w) (undeletable w) (euid_root w) (boltdb w) (rand_Reader w)
          (stdin w) (stdout w) (clock w) (ticks w).
Definition set_hidden (f : gset string → gset string) (w : World) : World :=
  mkWorld (fs w) (f (hidden w)) (undeletable w) (euid_root w) (boltdb w) (rand_Reader w)
          (stdin w) (stdout w) (clock w) (ticks w).
Definition set_boltdb (f : gmap string (gmap string bytes) → gmap string (gmap string bytes))
    (w : World) : World :=
  mkWorld (fs w) (hidden w) (undeletable w) (euid_root w) (f (boltdb w)) (rand_Reader w)
          (stdin w) (stdout w) (clock w) (ticks w).
Definition set_rand_Reader (f : list byte → list byte) (w : World) : World :=
  mkWorld (fs w) (hidden w) (undeletable w) (euid_root w) (boltdb w) (f (rand_Reader w))
          (stdin w) (stdout w) (clock w) (ticks w).
Definition set_stdin (f : list (option string) → list (option string)) (w : World) : World :=
  mkWorld (fs w) (hidden w) (undeletable w) (euid_root w) (boltdb w) (rand_Reader w)
          (f (stdin w)) (stdout w) (clock w) (ticks w).
Definition set_stdout (f : list string → list string) (w : World) : World :=
  mkWorld (fs w) (hidden w) (undeletable w) (euid_root w) (boltdb w) (rand_Reader w)
          (stdin w) (f (stdout w)) (clock w) (ticks w).
Definition set_ticks (f : nat → nat) (w : World) : World :=
  mkWorld (fs w) (hidden w) (undeletable w) (euid_root w) (boltdb w) (rand_Reader w)
          (stdin w) (stdout w) (clock w) (f (ticks w)).

(** A Go function with effects: it returns its result and the world it
  leaves behind, also when the result is an error. *)
Definition M (A : Type) : Type := World → result A * World.

#[global] Instance M_ret : MRet M := λ A a w, (Ok a, w).
#[global] Instance M_bind : MBind M := λ A B f m w,
  match m w with
  | (Ok a, w') => f a w'
  | (Err e, w') => (Err e, w')
  end.

Definition fail {A} (e : error) : M A := λ w, (Err e, w).
Definition lift {A} (r : result A) : M A := λ w, (r, w).
Definition gets {A} (f : World → A) : M A := λ w, (Ok (f w), w).
Definition modify (f : World → World) : M unit := λ w, (Ok tt, f w).

(** [if err != nil { return fmt.Errorf("msg: %w", err) }] *)
Definition wrapM {A} (msg : string) (m : M A) : M A := λ w,
  match m w with
  | (Ok a, w') => (Ok a, w')
  | (Err e, w') => (Err (Wrap msg e), w')
  end.

(** [_ = f()]: the error is dropped, the effects stay. *)
Definition discard {A} (m : M A) : M unit := λ w, (Ok tt, (m w).2).

(** [defer f()] around a body: [f] runs once the body has produced its
    result, whatever that is. *)
Definition defer {A B} (cleanup : M B) (body : M A) : M A := λ w,
  let '(r, w') := body w in (r, (cleanup w').2).

(** [r, err := f()] with both outcomes kept for the caller to inspect. *)
Definition try {A} (m : M A) : M (result A) := λ w,
  let '(r, w') := m w in (Ok r, w').

(* ===================================================================== *)
(** ** Libraries the repository calls                                     *)
(* ===================================================================== *)

(** Operations of the Go standard library and of third-party packages,
    as functions of their inputs. *)
Class GoLib : Type := {
  (** [cipher.NewGCM(aes.NewCipher(key)).Seal(nil, nonce, plaintext, nil)] *)
  gcm_Seal : bytes → bytes → bytes → bytes;
  (** [….Open(nil, nonce, ciphertext, nil)]; [None] when authentication fails *)
  gcm_Open : bytes → bytes → bytes → option bytes;
  (** [argon2.IDKey(password, salt, time, memory, threads, keyLen)] *)
  argon2_IDKey : bytes → bytes → N → N → N → N → bytes;
  (** [sha256.Sum256(data)] *)
  sha256_Sum256 : bytes → bytes;
  (** the bytes a [zip.Writer] has produced once closed, from the entries
      created on it in order *)
  zip_Writer : list (string * bytes) → bytes;
  (** [zip.NewReader]: the names in the directory of the archive, in its
      order; [None] for bytes that are not a zip archive *)
  zip_NewReader : bytes → option (list string);
  (** [File.Open] and [io.ReadAll] on entry [i] of the reader that
      [zip.NewReader] made of [archive]: the entry is read from the file
      when it is opened, so from the bytes [now] the file holds by then *)
  zip_ReadAll : ∀ (archive : bytes) (i : nat) (now : bytes), result bytes;
  (** [filepath.Abs], which depends on the working directory *)
  filepath_Abs : string → result string;
  (** [filepath.Join] and [filepath.Dir] *)
  filepath_Join : list string → string;
  filepath_Dir : string → string
}.

(** AES-GCM decrypts what it encrypted, for the three AES key sizes and
    the standard 12-byte nonce; sealing adds the 16-byte tag. *)
Definition aes_key_size_ok (n : nat) : bool :=
  bool_decide (n = 16%nat) || bool_decide (n = 24%nat) || bool_decide (n = 32%nat).

Class GcmLaws `{GoLib} : Prop := {
  gcm_Open_Seal : ∀ k nonce p,
    aes_key_size_ok (length k) = true → length nonce = 12%nat →
    gcm_Open k nonce (gcm_Seal k nonce p) = Some p;
  gcm_Seal_length : ∀ k nonce p,
    length (gcm_Seal k nonce p) = (length p + 16)%nat
}.

(** SHA-256 digests are 32 bytes long. *)
Class Sha256Laws `{GoLib} : Prop := {
  sha256_Sum256_length : ∀ data, length (sha256_Sum256 data) = 32%nat
}.

(** A zip archive reads back as the entries that were written to it,
    as long as the file is what the writer produced. *)
Class ZipLaws `{GoLib} : Prop := {
  zip_NewReader_Writer : ∀ entries,
    zip_NewReader (zip_Writer entries) = Some entries.*1;
  zip_ReadAll_Writer : ∀ entries i name data,
    entries !! i = Some (name, data) →
    zip_ReadAll (zip_Writer entries) i (zip_Writer entries) = Ok data
}.

(** [encoding/json] for one Go type: [json.Marshal(v)] and
    [json.Unmarshal(data, &dest)] on a zero [dest]. *)
Class Json (V : Type) : Type := {
  json_Marshal : V → result bytes;
  json_Unmarshal : bytes → result V
}.

(** A value that survives the trip through JSON: decoding what it
    marshals to gives the value back. *)
Definition JsonSerializable {V} `{Json V} (v : V) : Prop :=
  ∀ data, json_Marshal v = Ok data → json_Unmarshal data = Ok v.

(** A type all of whose values do. *)
Class JsonLaws (V : Type) `{Json V} : Prop := {
  json_Unmarshal_Marshal : ∀ v : V, JsonSerializable v
}.

(** [aes.NewCipher]: only the size of the key is checked. *)
Definition aes_NewCipher (key : bytes) : result unit :=
  if aes_key_size_ok (length key) then Ok tt else Err (ErrAESKeySize (length key)).

(** [io.ReadFull(rand.Reader, buf)] for a buffer of [n] bytes. *)
Definition rand_ReadFull (n : nat) : M bytes := λ w,
  if decide (n ≤ length (rand_Reader w))%nat
  then (Ok (take n (rand_Reader w)), set_rand_Reader (drop n) w)
  else (Err ErrUnexpectedEOF, set_rand_Reader (λ _, []) w).

(** [time.Now()] *)
Definition time_Now : M Time := λ w,
  (Ok (clock w (ticks w)), set_ticks S w).

(* ===================================================================== *)
(** ** package crypto                                                     *)
(* ===================================================================== *)

Module crypto.
Section crypto.
Context `{GoLib}.

Definition KeySize : nat := 32.
Definition NonceSize : nat := 12.
Definition SaltSize : nat := 32.

Record Encryptor : Type := { key : bytes }.

Definition NewEncryptor (k : bytes) : result Encryptor :=
  if decide (length k ≠ KeySize) then Err (ErrInvalidKeySize (length k))
  else Ok {| key := k |}.

Definition Encrypt (e : Encryptor) (plaintext : bytes) : M bytes :=
  _ ← lift (wrapR "failed to create cipher" (aes_NewCipher (key e)));
  nonce ← wrapM "failed to generate nonce" (rand_ReadFull NonceSize);
  mret (nonce ++ gcm_Seal (key e) nonce plaintext).

Definition Decrypt (e : Encryptor) (ciphertext : bytes) : result bytes :=
  _ ← wrapR "failed to create cipher" (aes_NewCipher (key e));
  if decide (length ciphertext < NonceSize)%nat then Err ErrCiphertextTooShort
  else
    let nonce := take NonceSize ciphertext in
    let ciphertext := drop NonceSize ciphertext in
    match gcm_Open (key e) nonce ciphertext with
    | Some plaintext => Ok plaintext
    | None => Err (Wrap "failed to decrypt" ErrGCMOpen)
    end.

Definition DeriveKey (password : string) (salt : bytes) : result bytes :=
  if decide (length salt ≠ SaltSize) then Err (ErrInvalidSaltSize (length salt))
  else Ok (argon2_IDKey (bytes_of_string password) salt 1 (64 * 1024) 4 (N.of_nat KeySize)).

Definition GenerateSalt : M bytes :=
  wrapM "failed to generate salt" (rand_ReadFull SaltSize).
End crypto.
End crypto.

(* ===================================================================== *)
(** ** package os                                                         *)
(* ===================================================================== *)

(** Paths name entries of [fs] directly.  The process owns every entry,
  so the owner bits of the mode decide, unless it runs as root. *)
(** Permission bits, written in octal in the source. *)
Definition mode_0000 : N := 0.
Definition mode_0600 : N := 384.
Definition mode_0644 : N := 420.
Definition mode_0666 : N := 438.
Definition mode_0700 : N := 448.

Definition can_read (w : World) (mode : N) : bool := euid_root w || N.testbit mode 8.
Definition can_write (w : World) (mode : N) : bool := euid_root w || N.testbit mode 7.

Definition is_dir (n : node) : bool :=
  match n with Dir _ _ => true | File _ _ => false end.

Definition os_Stat (path : string) : M node := λ w,
  match fs w !! path with
  | Some n => (Ok n, w)
  | None => (Err ENOENT, w)
  end.

Definition os_ReadFile (path : string) : M bytes := λ w,
  match fs w !! path with
  | Some (File mode data) => if can_read w mode then (Ok data, w) else (Err EACCES, w)
  | Some (Dir _ _) => (Err EISDIR, w)
  | None => (Err ENOENT, w)
  end.

(** [os.WriteFile]: an existing file keeps its mode, a new one gets [perm]
    (the umask is not modelled). *)
Definition os_WriteFile (path : string) (data : bytes) (perm : N) : M unit := λ w,
  match fs w !! path with
  | Some (File mode _) =>
      if can_write w mode then (Ok tt, set_fs <[path := File mode data]> w)
      else (Err EACCES, w)
  | Some (Dir _ _) => (Err EISDIR, w)
  | None => (Ok tt, set_fs <[path := File perm data]> w)
  end.

(** [os.Create]: [O_RDWR|O_CREATE|O_TRUNC] with mode [0666]. *)
Definition os_Create (path : string) : M unit := os_WriteFile path [] mode_0666.

(** What an open file descriptor writes before it is closed: the
    permission bits were checked when the file was opened. *)
Definition fd_flush (path : string) (data : bytes) : M unit := λ w,
  match fs w !! path with
  | Some (File mode _) => (Ok tt, set_fs <[path := File mode data]> w)
  | _ => (Ok tt, w)
  end.

Definition os_MkdirAll (path : string) (perm : N) : M unit := λ w,
  match fs w !! path with
  | Some (Dir _ _) => (Ok tt, w)
  | Some (File _ _) => (Err ENOTDIR, w)
  | None => (Ok tt, set_fs <[path := Dir perm ∅]> w)
  end.

(** [os.Remove]: a file, or an empty directory. *)
Definition os_Remove (path : string) : M unit := λ w,
  match fs w !! path with
  | Some (File _ _) => (Ok tt, set_hidden (.∖ {[path]}) (set_fs (delete path) w))
  | Some (Dir _ files) =>
      if decide (files = ∅)
      then (Ok tt, set_hidden (.∖ {[path]}) (set_fs (delete path) w))
      else (Err ENOTEMPTY, w)
  | None => (Err ENOENT, w)
  end.

(** A file [name] of the directory at [path] that the process cannot
    unlink: it may not write the directory, or the file is listed in
    [undeletable]. *)
Definition stays (w : World) (path : string) (mode : N) (name : string) : bool :=
  negb (can_write w mode) || bool_decide (path +:+ "/" +:+ name ∈ undeletable w).

(** [os.RemoveAll]: the entry and everything below it; no error when
    there is nothing at [path].  It removes what it can and returns the
    first error it met: a file that cannot be removed stays; a
    directory is left standing with the files that stay, and also
    when, emptied, it cannot be removed itself. *)
Definition os_RemoveAll (path : string) : M unit := λ w,
  match fs w !! path with
  | Some (Dir mode files) =>
      let left := filter (λ file, stays w path mode file.1 = true) files in
      if decide (left = ∅ ∧ path ∉ undeletable w)
      then (Ok tt, set_hidden (.∖ {[path]}) (set_fs (delete path) w))
      else (Err EACCES, set_fs <[path := Dir mode left]> w)
  | Some (File _ _) =>
      if decide (path ∈ undeletable w) then (Err EACCES, w)
      else (Ok tt, set_hidden (.∖ {[path]}) (set_fs (delete path) w))
  | None => (Ok tt, set_hidden (.∖ {[path]}) (set_fs (delete path) w))
  end.

(** [os.Rename]: a file replaces a file, a directory replaces an empty
    directory; flags travel with the entry. *)
Definition os_Rename (oldpath newpath : string) : M unit := λ w,
  let move (n : node) :=
    set_hidden (λ h, (if decide (oldpath ∈ h) then {[newpath]} ∪ h ∖ {[newpath]}
                      else h ∖ {[newpath]}) ∖ {[oldpath]})
      (set_fs (λ m, <[newpath := n]> (delete oldpath m)) w) in
  match fs w !! oldpath with
  | None => (Err ENOENT, w)
  | Some n =>
      if decide (oldpath = newpath) then (Ok tt, w) else
      match fs w !! newpath, n with
      | None, _ => (Ok tt, move n)
      | Some (File _ _), File _ _ => (Ok tt, move n)
      | Some (File _ _), Dir _ _ => (Err ENOTDIR, w)
      | Some (Dir _ _), File _ _ => (Err EISDIR, w)
      | Some (Dir _ files), Dir _ _ =>
          if decide (files = ∅) then (Ok tt, move n) else (Err ENOTEMPTY, w)
      end
  end.

Definition os_Chmod (path : string) (mode : N) : M unit := λ w,
  match fs w !! path with
  | Some (File _ data) => (Ok tt, set_fs <[path := File mode data]> w)
  | Some (Dir _ files) => (Ok tt, set_fs <[path := Dir mode files]> w)
  | None => (Err ENOENT, w)
  end.

(** [exec.Command("chflags", "hidden"|"nohidden", path).Run()] *)
Definition chflags (hide : bool) (path : string) : M unit := λ w,
  match fs w !! path with
  | Some _ =>
      (Ok tt, set_hidden (λ h, if hide then {[path]} ∪ h else h ∖ {[path]}) w)
  | None => (Err ENOENT, w)
  end.

(** The separator of path elements. *)
Definition slash : Ascii.ascii := Ascii.ascii_of_nat 47.

(** [p] lies below [d]: what is left of [p] after [d] and a slash. *)
Fixpoint rel_below (d p : string) : option string :=
  match d, p with
  | "", String c rel =>
      if decide (c = slash ∧ rel ≠ "") then Some rel else None
  | String a d, String b p => if decide (a = b) then rel_below d p else None
  | _, "" => None
  end.

Definition below (d p : string) : bool := bool_decide (is_Some (rel_below d p)).

(** Some key of the map satisfies [P]. *)
Definition some_key {A} (P : string → bool) (m : gmap string A) : bool :=
  existsb (λ entry, P entry.1) (map_to_list m).

(** The entry of the file system that [p] lies below, with the path of
    [p] relative to it. *)
Definition holder (m : gmap string node) (p : string) : option (string * node * string) :=
  head (omap (λ entry, rel ← rel_below entry.1 p; Some (entry.1, entry.2, rel))
             (map_to_list m)).

(** [os.MkdirAll(filepath.Dir(p), 0700)] followed by
    [os.WriteFile(p, data, 0644)].
    - Where [p] is an entry, its directory is there: a file is
      overwritten, a directory is refused.
    - Where [p] lies below a directory entry it names one of its files.
      A file of the directory on the way to [p] stops [MkdirAll]; files
      of the directory below [p] make [p] a directory, which
      [WriteFile] refuses; else the file is created or replaced
      (directories that hold no file leave no trace in the entry).
    - Where [p] lies below a file, that file stops [MkdirAll].
    - Any other path becomes an entry of its own, unless entries lie
      below it, which makes it a directory; its directory is made
      unless entries lie below that already. *)
Definition os_MkdirAll_WriteFile `{GoLib} (p : string) (data : bytes) : M unit := λ w,
  match fs w !! p with
  | Some _ => os_WriteFile p data mode_0644 w
  | None =>
      match holder (fs w) p with
      | Some (d, File _ _, _) => (Err ENOTDIR, w)
      | Some (d, Dir mode files, rel) =>
          if some_key (λ key, below key rel) files then (Err ENOTDIR, w)
          else if some_key (below rel) files then (Err EISDIR, w)
          else if can_write w mode
          then (Ok tt, set_fs <[d := Dir mode (<[rel := data]> files)]> w)
          else (Err EACCES, w)
      | None =>
          if some_key (below p) (fs w) then (Err EISDIR, w)
          else
            (_ ← (if some_key (below (filepath_Dir p)) (fs w) then mret tt
                  else os_MkdirAll (filepath_Dir p) mode_0700);
             os_WriteFile p data mode_0644) w
      end
  end.

(** What an open file holds: [os.Open] has bound the descriptor to the
    file, and the file is neither removed nor renamed while it is
    read. *)
Definition fd_ReadAll (path : string) : M bytes := λ w,
  match fs w !! path with
  | Some (File _ data) => (Ok data, w)
  | Some (Dir _ _) => (Err EISDIR, w)
  | None => (Err ENOENT, w)
  end.

(* ===================================================================== *)
(** ** go.etcd.io/bbolt                                                   *)
(* ===================================================================== *)

Module bbolt.
Definition MaxKeySize : Z := 32768.
Definition MaxValueSize : Z := 2147483646.

(** [Bucket.Put] *)
Definition Put (b : gmap string bytes) (key : string) (value : bytes)
    : result (gmap string bytes) :=
  if decide (String.length key = 0%nat) then Err ErrKeyRequired
  else if decide (MaxKeySize < Z.of_nat (String.length key)) then Err ErrKeyTooLarge
  else if decide (MaxValueSize < Z.of_nat (length value)) then Err ErrValueTooLarge
  else Ok (<[key := value]> b).

(** [DB.Update]: the transaction commits when the function returns no
    error and is rolled back otherwise. *)
Definition Update
    (fn : gmap string (gmap string bytes) → result (gmap string (gmap string bytes)))
    : M unit := λ w,
  match fn (boltdb w) with
  | Ok db' => (Ok tt, set_boltdb (λ _, db') w)
  | Err e => (Err e, w)
  end.

(** [DB.View] *)
Definition View {A} (fn : gmap string (gmap string bytes) → result A) : M A := λ w,
  (fn (boltdb w), w).
End bbolt.

(* ===================================================================== *)
(** ** package password                                                   *)
(* ===================================================================== *)

Module password.
(** [getPassword]: print the prompt, read one password from the
    terminal (or one trimmed line from a pipe). *)
Definition getPassword (prompt : string) : M string := λ w,
  let w := set_stdout (prompt ::.) w in
  match stdin w with
  | Some s :: rest => (Ok s, set_stdin (λ _, rest) w)
  | None :: rest => (Err ErrReadPassword, set_stdin (λ _, rest) w)
  | [] => (Err ErrReadPassword, w)
  end.

Definition GetMasterPassword : M string :=
  password ← wrapM "failed to read password" (getPassword "Enter master password: ");
  if decide (String.length password = 0%nat) then fail ErrPasswordEmpty
  else mret password.
End password.

(* ===================================================================== *)
(** ** package storage                                                    *)
(* ===================================================================== *)

Module storage.
Section storage.
Context `{GoLib}.

(** The open bbolt handle is the [boltdb] component of the world. *)
Record Database : Type := { enc : crypto.Encryptor; path : string }.

Definition Set_ {V} `{Json V} (d : Database) (bucket key : string) (value : V) : M unit :=
  data ← lift (wrapR "failed to marshal value" (json_Marshal value));
  encryptedData ← wrapM "failed to encrypt data" (crypto.Encrypt (enc d) data);
  bbolt.Update (λ tx,
    match tx !! bucket with
    | None => Err (ErrBucketNotFound bucket)
    | Some b => b' ← bbolt.Put b key encryptedData; Ok (<[bucket := b']> tx)
    end).

Definition Get {V} `{Json V} (d : Database) (bucket key : string) : M V :=
  encryptedData ← bbolt.View (λ tx,
    match tx !! bucket with
    | None => Err (ErrBucketNotFound bucket)
    | Some b =>
        match b !! key with
        | None => Err (ErrKeyNotFound key bucket)
        | Some data => Ok data
        end
    end);
  decryptedData ← lift (wrapR "failed to decrypt data" (crypto.Decrypt (enc d) encryptedData));
  lift (wrapR "failed to unmarshal data" (json_Unmarshal decryptedData)).

Definition Delete (d : Database) (bucket key : string) : M unit :=
  bbolt.Update (λ tx,
    match tx !! bucket with
    | None => Err (ErrBucketNotFound bucket)
    | Some b => Ok (<[bucket := delete key b]> tx)
    end).

Definition Exists (d : Database) (bucket key : string) : M bool :=
  bbolt.View (λ tx,
    match tx !! bucket with
    | None => Err (ErrBucketNotFound bucket)
    | Some b => Ok (bool_decide (is_Some (b !! key)))
    end).
End storage.
End storage.

(* ===================================================================== *)
(** ** package config                                                     *)
(* ===================================================================== *)

Module config.
(** The fields of [Config] that the master-key code reads or writes. *)
Record Config : Type := {
  MasterKey : bytes;
  Salt : bytes;
  ConfigDir : string;
  PasswordCacheTimeout : Z    (* Security.PasswordCacheTimeout *)
}.

Definition set_MasterKey (k : bytes) (c : Config) : Config :=
  {| MasterKey := k; Salt := Salt c; ConfigDir := ConfigDir c;
     PasswordCacheTimeout := PasswordCacheTimeout c |}.

Record cacheEntry : Type := { Key : bytes; ExpiresAt : Time }.

Section config.
Context `{GoLib} `{Json cacheEntry}.

Definition getCacheFilePath (c : Config) : string :=
  filepath_Join [ConfigDir c; "data"; ".master_key_cache"].

Definition getCacheEncryptionKey (c : Config) : result bytes :=
  let data := bytes_of_string (ConfigDir c) ++ Salt c in
  Ok (sha256_Sum256 data).

Definition loadCachedMasterKey (c : Config) : M bytes :=
  let cachePath := getCacheFilePath c in
  st ← try (os_Stat cachePath);
  match st with
  | Err ENOENT => fail ErrCacheNotFound
  | Err e => fail e
  | Ok _ =>
    encryptedData ← os_ReadFile cachePath;
    encKey ← lift (getCacheEncryptionKey c);
    match crypto.NewEncryptor encKey with
    | Err e => _ ← discard (os_Remove cachePath); fail (Wrap "failed to create encryptor" e)
    | Ok encryptor =>
      match crypto.Decrypt encryptor encryptedData with
      | Err e => _ ← discard (os_Remove cachePath); fail (Wrap "failed to decrypt cache" e)
      | Ok plaintext =>
        match json_Unmarshal plaintext with
        | Err e => _ ← discard (os_Remove cachePath); fail (Wrap "failed to unmarshal cache" e)
        | Ok entry =>
          now ← time_Now;
          if decide (ExpiresAt entry < now)
          then _ ← discard (os_Remove cachePath); fail ErrCacheExpired
          else mret (Key entry)
        end
      end
    end
  end.

Definition saveCachedMasterKey (c : Config) (masterKey : bytes) (timeoutSeconds : Z)
    : M unit :=
  now ← time_Now;
  let entry := {| Key := masterKey;
                  ExpiresAt := now + wrap64 (timeoutSeconds * time_Second) |} in
  data ← lift (wrapR "failed to marshal cache" (json_Marshal entry));
  encKey ← lift (getCacheEncryptionKey c);
  encryptor ← lift (wrapR "failed to create encryptor" (crypto.NewEncryptor encKey));
  encryptedData ← wrapM "failed to encrypt cache" (crypto.Encrypt encryptor data);
  let cachePath := getCacheFilePath c in
  let cacheDir := filepath_Dir cachePath in
  _ ← wrapM "failed to create cache directory" (os_MkdirAll cacheDir mode_0700);
  wrapM "failed to write cache file" (os_WriteFile cachePath encryptedData mode_0600).

(** [GetMasterKey] returns the key and the configuration as the call
    leaves it ([c.MasterKey] is assigned on the two paths that find a
    key, and only there). *)
Definition GetMasterKey (c : Config) : M (bytes * Config) :=
  if decide (0 < length (MasterKey c))%nat then mret (MasterKey c, c)
  else
    cached ← try (loadCachedMasterKey c);
    match cached with
    | Ok ((_ :: _) as cachedKey) => mret (cachedKey, set_MasterKey cachedKey c)
    | _ =>
      if decide (length (Salt c) = 0%nat) then fail ErrNoSalt
      else
        masterPassword ← wrapM "failed to get master password" password.GetMasterPassword;
        masterKey ← lift (wrapR "failed to derive master key"
                            (crypto.DeriveKey masterPassword (Salt c)));
        let timeout := PasswordCacheTimeout c in
        let timeout := if decide (timeout ≤ 0) then 300 else timeout in
        _ ← discard (saveCachedMasterKey c masterKey timeout);
        mret (masterKey, set_MasterKey masterKey c)
    end.
End config.
End config.

(* ===================================================================== *)
(** ** package models                                                     *)
(* ===================================================================== *)

(** [models/vault.go] *)
Module models_vault.
(** [Metadata] is a [map[string]interface{}]; a value is kept as the
    JSON text that stands for it. *)
Record VaultEntry : Type := {
  Key : string;
  Value : string;
  Format : string;
  Description : string;
  Tags : list string;
  Metadata : gmap string string;
  CreatedAt : Time;
  UpdatedAt : Time
}.

Definition set_UpdatedAt (t : Time) (e : VaultEntry) : VaultEntry :=
  {| Key := Key e; Value := Value e; Format := Format e;
     Description := Description e; Tags := Tags e; Metadata := Metadata e;
     CreatedAt := CreatedAt e; UpdatedAt := t |}.
End models_vault.

(** [models/lock.go] *)
Module models_lock.
Record LockedDirectory : Type := {
  Path : string;            (* `json:"path"` *)
  Password : string;        (* `json:"-"` *)
  UseMaster : bool;         (* `json:"use_master"` *)
  Hidden : bool;            (* `json:"hidden"` *)
  Encrypted : bool;         (* `json:"encrypted"` *)
  LockedAt : Time;          (* `json:"locked_at"` *)
  LastAccessed : Time;      (* `json:"last_accessed,omitempty"` *)
  Metadata : gmap string string  (* `json:"metadata,omitempty"` *)
}.

(** [NewLockedDirectory], given what its [time.Now()] returned. *)
Definition NewLockedDirectory (now : Time) (path : string) (useMaster hidden : bool)
    : LockedDirectory :=
  {| Path := path; Password := ""; UseMaster := useMaster; Hidden := hidden;
     Encrypted := true; LockedAt := now; LastAccessed := time_zero; Metadata := ∅ |}.

Definition SetPassword (password : string) (d : LockedDirectory) : LockedDirectory :=
  {| Path := Path d; Password := password; UseMaster := false; Hidden := Hidden d;
     Encrypted := Encrypted d; LockedAt := LockedAt d; LastAccessed := LastAccessed d;
     Metadata := Metadata d |}.

Definition SetMetadata (key value : string) (d : LockedDirectory) : LockedDirectory :=
  {| Path := Path d; Password := Password d; UseMaster := UseMaster d;
     Hidden := Hidden d; Encrypted := Encrypted d; LockedAt := LockedAt d;
     LastAccessed := LastAccessed d; Metadata := <[key := value]> (Metadata d) |}.

Definition GetPassword (d : LockedDirectory) (masterPassword : string) : string :=
  if UseMaster d then masterPassword else Password d.

(** The members of the JSON object that stands for a
    [LockedDirectory]: one per field whose tag names it. *)
Record LockedDirectoryJSON : Type := {
  path : string;
  use_master : bool;
  hidden : bool;
  encrypted : bool;
  locked_at : Time;
  last_accessed : Time;
  metadata : gmap string string
}.

Definition to_JSON (d : LockedDirectory) : LockedDirectoryJSON :=
  {| path := Path d; use_master := UseMaster d; hidden := Hidden d;
     encrypted := Encrypted d; locked_at := LockedAt d;
     last_accessed := LastAccessed d; metadata := Metadata d |}.

(** Decoding fills a zero [LockedDirectory]: the field tagged ["-"]
    keeps its zero value. *)
Definition of_JSON (j : LockedDirectoryJSON) : LockedDirectory :=
  {| Path := path j; Password := ""; UseMaster := use_master j; Hidden := hidden j;
     Encrypted := encrypted j; LockedAt := locked_at j;
     LastAccessed := last_accessed j; Metadata := metadata j |}.

#[global] Instance LockedDirectory_Json `{Json LockedDirectoryJSON} : Json LockedDirectory := {
  json_Marshal d := json_Marshal (to_JSON d);
  json_Unmarshal data := j ← json_Unmarshal data; Ok (of_JSON j)
}.
End models_lock.

(* ===================================================================== *)
(** ** package vault                                                      *)
(* ===================================================================== *)

Module vault.
Section vault.
Import models_vault.
Context `{GoLib} `{Json VaultEntry}.

Record VaultManager : Type := { db : storage.Database }.

Definition Get (vm : VaultManager) (key : string) : M VaultEntry :=
  entry ← wrapM "failed to get vault entry" (storage.Get (db vm) "vault" key);
  now ← time_Now;
  let entry := set_UpdatedAt now entry in
  _ ← discard (storage.Set_ (db vm) "vault" key entry);
  mret entry.
End vault.
End vault.

(* ===================================================================== *)
(** ** package dirlock                                                    *)
(* ===================================================================== *)

Module dirlock.
Section dirlock.
Import models_lock.
Context `{GoLib} `{Json LockedDirectoryJSON}.

(** [gcm.NonceSize()] of the standard GCM *)
Definition gcm_NonceSize : nat := 12.

Definition encryptContent (content key : bytes) : M bytes :=
  _ ← lift (aes_NewCipher key);
  nonce ← rand_ReadFull gcm_NonceSize;
  mret (nonce ++ gcm_Seal key nonce content).

Definition decryptContent (encrypted key : bytes) : result bytes :=
  _ ← aes_NewCipher key;
  let nonceSize := gcm_NonceSize in
  if decide (length encrypted < nonceSize)%nat then Err ErrCiphertextTooShort
  else
    let nonce := take nonceSize encrypted in
    let ciphertext := drop nonceSize encrypted in
    match gcm_Open key nonce ciphertext with
    | Some plaintext => Ok plaintext
    | None => Err ErrGCMOpen
    end.

Definition deriveKeyFromPassword (password : string) (salt : bytes) : result bytes :=
  crypto.DeriveKey password salt.

(** The walk function of [EncryptDirectory] over the regular files
    [filepath.Walk] reaches, in the order it reaches them: each is
    encrypted and added to the archive.  The entries written so far
    are returned with the outcome, for the archive is written also
    when the walk stops early. *)
Fixpoint walkFiles (key : bytes) (files : list (string * bytes))
    (written : list (string * bytes)) : M (result unit * list (string * bytes)) :=
  match files with
  | [] => mret (Ok tt, written)
  | (relPath, content) :: files =>
      encrypted ← try (encryptContent content key);
      match encrypted with
      | Err e => mret (Err e, written)
      | Ok encrypted => walkFiles key files (written ++ [(relPath, encrypted)])
      end
  end.

(** [filepath.Walk(dirPath, fn)]: the root itself when it is a file
    (its path relative to itself is ["."]), else the regular files
    below it. *)
Definition walk (dirPath : string) (key : bytes)
    : M (result unit * list (string * bytes)) :=
  st ← try (os_Stat dirPath);
  match st with
  | Err e => mret (Err e, [])
  | Ok (File mode data) =>
      content ← try (os_ReadFile dirPath);
      match content with
      | Err e => mret (Err e, [])
      | Ok content => walkFiles key [(".", content)] []
      end
  | Ok (Dir mode files) =>
      readable ← gets (λ w, can_read w mode);
      if readable : bool then walkFiles key (map_to_list files) []
      else mret (Err EACCES, [])
  end.

(** The two deferred calls, [zipWriter.Close()] and [file.Close()],
    run when the function returns: the archive reaches the file that
    was created, wherever it is by then. *)
Definition EncryptDirectory (dirPath : string) (key : bytes) : M unit :=
  let archivePath := dirPath +:+ ".ark_encrypted" in
  _ ← os_Create archivePath;
  '(walked, written) ← walk dirPath key;
  match walked with
  | Err e => _ ← fd_flush archivePath (zip_Writer written); fail e
  | Ok _ =>
      removed ← try (os_RemoveAll dirPath);
      match removed with
      | Err e => _ ← fd_flush archivePath (zip_Writer written); fail e
      | Ok _ =>
          renamed ← try (os_Rename archivePath dirPath);
          match renamed with
          | Err e => _ ← fd_flush archivePath (zip_Writer written); fail e
          | Ok _ => fd_flush dirPath (zip_Writer written)
          end
      end
  end.

(** [os.Open], [file.Stat] and [zip.NewReader]: the bytes of the
    archive at [dirPath] and the names in its directory. *)
Definition openArchive (dirPath : string) : M (bytes * list string) := λ w,
  match fs w !! dirPath with
  | Some (File mode data) =>
      if can_read w mode then
        match zip_NewReader data with
        | Some names => (Ok (data, names), w)
        | None => (Err ErrZip, w)
        end
      else (Err EACCES, w)
  | Some (Dir _ _) => (Err EISDIR, w)
  | None => (Err ENOENT, w)
  end.

Definition isEncryptedDirectory (dirPath : string) : M bool :=
  r ← try (openArchive dirPath);
  mret (is_Ok r).

(** The loop of [DecryptDirectory] over the entries of the archive,
    from entry [i] on: the entry is read from the open archive,
    decrypted, and written where [filepath.Join(tempDir, name)]
    points. *)
Fixpoint extractFiles (dirPath : string) (archive : bytes) (tempDir : string) (key : bytes)
    (names : list string) (i : nat) : M unit :=
  match names with
  | [] => mret tt
  | name :: names =>
      now ← fd_ReadAll dirPath;
      encrypted ← lift (zip_ReadAll archive i now);
      decrypted ← lift (decryptContent encrypted key);
      let filePath := filepath_Join [tempDir; name] in
      _ ← os_MkdirAll_WriteFile filePath decrypted;
      extractFiles dirPath archive tempDir key names (S i)
  end.

Definition DecryptDirectory (dirPath : string) (key : bytes) : M unit :=
  isEnc ← isEncryptedDirectory dirPath;
  if negb isEnc then fail ErrNotEncrypted
  else
    let tempDir := dirPath +:+ ".ark_temp" in
    _ ← os_MkdirAll tempDir mode_0700;
    defer (os_RemoveAll tempDir) (
      '(archive, names) ← openArchive dirPath;
      _ ← extractFiles dirPath archive tempDir key names 0;
      _ ← os_RemoveAll dirPath;
      os_Rename tempDir dirPath).

Record Service : Type := { DB : storage.Database }.

Definition getMasterKey (s : Service) : result bytes :=
  Ok (replicate 32 "000"%byte).

Definition Lock (s : Service) (path : string) (useMaster : bool) (password : string)
    (hide : bool) : M unit :=
  abs ← lift (filepath_Abs path);
  info ← os_Stat abs;
  if negb (is_dir info) then fail (ErrNotADirectory abs)
  else
    key ← (if useMaster then lift (getMasterKey s)
           else
             salt ← rand_ReadFull 16;
             lift (deriveKeyFromPassword password salt));
    _ ← wrapM "failed to encrypt directory" (EncryptDirectory abs key);
    _ ← discard (os_Chmod abs mode_0000);
    _ ← (if hide then discard (chflags true abs) else mret tt);
    now ← time_Now;
    let rec := NewLockedDirectory now abs useMaster hide in
    let rec := if negb useMaster then SetPassword password rec else rec in
    let rec := SetMetadata "mode" "encrypted" rec in
    storage.Set_ (DB s) "locked_dirs" abs rec.

Definition Unlock (s : Service) (path : string) (masterPassword provided : string)
    : M unit :=
  abs ← lift (filepath_Abs path);
  got ← try (storage.Get (DB s) "locked_dirs" abs);
  match got with
  | Err _ => fail (ErrNotLocked abs)
  | Ok rec =>
      let pass := GetPassword rec masterPassword in
      if bool_decide (pass ≠ provided) && negb (UseMaster rec)
      then fail (ErrInvalidPassword abs)
      else
        key ← (if UseMaster rec then lift (getMasterKey s)
               else
                 let salt := replicate 16 "000"%byte in
                 lift (deriveKeyFromPassword provided salt));
        _ ← wrapM "failed to decrypt directory" (DecryptDirectory abs key);
        _ ← discard (chflags false abs);
        _ ← discard (os_Chmod abs mode_0700);
        _ ← time_Now;    (* rec.UpdateLastAccessed(), on the local copy *)
        _ ← discard (storage.Delete (DB s) "locked_dirs" abs);
        mret tt
  end.
End dirlock.
End dirlock.

(* ===================================================================== *)
(** ** More of the packages                                               *)
(* ===================================================================== *)

(** An error that is nothing but its message: [errors.New(msg)], or
    [fmt.Errorf] with no wrapped cause.  Which value of [error] stands
    for a message is left open. *)
Class GoErrors : Type := { errors_New : string → error }.

(** [strings.ToLower], which follows the Unicode tables. *)
Class GoStrings : Type := { strings_ToLower : string → string }.

(** [len(s)] and [s[i:j]] of a Go string, for [i ≤ j ≤ len(s)]. *)
Abbreviation len := String.length.

Definition slice (s : string) (i j : nat) : string := String.substring i (j - i) s.

(** [strings.HasPrefix] *)
Definition strings_HasPrefix (s prefix : string) : bool := String.prefix prefix s.

#[global] Instance byte_inhabited : Inhabited byte := populate "000"%byte.

(** *** package crypto: password hashes *)

Module crypto_hash.
Section crypto_hash.
Context `{GoLib}.

Definition HashPassword (password : string) (salt : bytes) : result bytes :=
  crypto.DeriveKey password salt.

(** [int(b)] for a byte [b] *)
Definition int (b : byte) : Z := Z.of_N (Byte.to_N b).

Definition compareBytes (a b : bytes) : bool :=
  if decide (length a ≠ length b) then false
  else
    let result :=
      foldl (λ result i, Z.lor result (Z.lxor (int (a !!! i)) (int (b !!! i))))
            0 (seq 0 (length a)) in
    bool_decide (result = 0).

Definition VerifyPassword (password : string) (hash salt : bytes) : bool :=
  match HashPassword password salt with
  | Err _ => false
  | Ok computedHash =>
      bool_decide (length computedHash = length hash) && compareBytes computedHash hash
  end.
End crypto_hash.
End crypto_hash.

(** *** go.etcd.io/bbolt: cursors and buckets *)

Module bbolt_tx.
(** The pairs of a bucket in the order a cursor visits them: by key,
    bytewise. *)
Definition pairs (b : gmap string bytes) : list (string * bytes) :=
  merge_sort (λ p q, String.le p.1 q.1) (map_to_list b).

(** [Bucket.ForEach]: [fn] runs on each pair until it returns an error.
    What [fn] does to the variables it captures is the accumulator. *)
Definition ForEach {A} (b : gmap string bytes) (fn : A → string → bytes → result A)
    (acc : A) : result A :=
  foldl (λ r p, acc ← r; fn acc p.1 p.2) (Ok acc) (pairs b).

(** [Tx.CreateBucketIfNotExists] *)
Definition CreateBucketIfNotExists `{GoErrors} (tx : gmap string (gmap string bytes))
    (name : string) : result (gmap string (gmap string bytes)) :=
  if decide (len name = 0%nat) then Err (errors_New "bucket name required")
  else match tx !! name with
       | Some _ => Ok tx
       | None => Ok (<[name := ∅]> tx)
       end.
End bbolt_tx.

(** *** package storage: buckets, listing, searching *)

Module storage_scan.
Section storage_scan.
Context `{GoLib}.
Import storage.

Definition buckets : list string :=
  ["vault"; "aws_profiles"; "ec2_instances"; "locked_dirs"; "backup_metadata"; "config"].

Definition initBuckets `{GoErrors} (d : Database) : M unit :=
  bbolt.Update (λ tx,
    foldl (λ r bucket,
             tx ← r;
             wrapR ("failed to create bucket " +:+ bucket)
                   (bbolt_tx.CreateBucketIfNotExists tx bucket))
          (Ok tx) buckets).

Definition List (d : Database) (bucket : string) : M (list string) :=
  bbolt.View (λ tx,
    match tx !! bucket with
    | None => Err (ErrBucketNotFound bucket)
    | Some b => bbolt_tx.ForEach b (λ keys key _, Ok (keys ++ [key])) []
    end).

Definition containsSubstring (s substr : string) : bool :=
  existsb (λ i, bool_decide (slice s i (i + len substr) = substr))
          (seq 0 (Z.to_nat (Z.of_nat (len s) - Z.of_nat (len substr) + 1))).

Definition contains (s substr : string) : bool :=
  bool_decide (len substr ≤ len s)%nat &&
  (bool_decide (s = substr) ||
   (bool_decide (len substr < len s)%nat &&
    (bool_decide (slice s 0 (len substr) = substr) ||
     bool_decide (slice s (len s - len substr) (len s) = substr) ||
     containsSubstring s substr))).

Definition Search (d : Database) (bucket pattern : string) : M (list string) :=
  bbolt.View (λ tx,
    match tx !! bucket with
    | None => Err (ErrBucketNotFound bucket)
    | Some b =>
        bbolt_tx.ForEach b (λ keys key _,
          let keyStr := key in
          if contains keyStr pattern then Ok (keys ++ [keyStr]) else Ok keys) []
    end).
End storage_scan.
End storage_scan.

(** *** package config: setting up and administering *)

(** Argon2id returns a key of the length asked for. *)
Class Argon2Laws `{GoLib} : Prop := {
  argon2_IDKey_length : ∀ password salt time memory threads keyLen,
    length (argon2_IDKey password salt time memory threads keyLen) = N.to_nat keyLen
}.

Module config_admin.
Import config.

Definition set_Salt (salt : bytes) (c : Config) : Config :=
  {| MasterKey := MasterKey c; Salt := salt; ConfigDir := ConfigDir c;
     PasswordCacheTimeout := PasswordCacheTimeout c |}.

Definition GetMasterKeySilent (c : Config) : bytes := MasterKey c.

Definition SetPasswordCacheTimeout (timeoutSeconds : Z) (c : Config) : Config :=
  let timeoutSeconds := if decide (timeoutSeconds < 0) then 0 else timeoutSeconds in
  {| MasterKey := MasterKey c; Salt := Salt c; ConfigDir := ConfigDir c;
     PasswordCacheTimeout := timeoutSeconds |}.

Section config_admin.
Context `{GoLib}.

(** [DefaultConfig] reads the clock for [CreatedAt] and for [UpdatedAt]. *)
Definition DefaultConfig (configDir : string) : M Config :=
  _ ← time_Now;
  _ ← time_Now;
  mret {| MasterKey := []; Salt := []; ConfigDir := configDir;
          PasswordCacheTimeout := 300 |}.

(** [Initialize] returns the configuration; [Backup.EncryptionKey],
    which [Config] above does not keep, is returned beside it. *)
Definition Initialize (configDir masterPassword : string) : M (Config * bytes) :=
  config ← DefaultConfig configDir;
  salt ← wrapM "failed to generate salt" crypto.GenerateSalt;
  let config := set_Salt salt config in
  masterKey ← lift (wrapR "failed to derive master key"
                      (crypto.DeriveKey masterPassword salt));
  let config := set_MasterKey masterKey config in
  backupKey ← wrapM "failed to generate backup key" crypto.GenerateSalt;
  mret (config, backupKey).


End config_admin.
End config_admin.

(** *** package models: the methods of a vault entry *)

(** [strings.Contains]: [substr] occurs in [s]. *)
Definition strings_Contains (s substr : string) : bool :=
  existsb (λ i, String.prefix substr (String.substring i (len s - i) s))
          (seq 0 (S (len s))).

Module vault_entry.
Import models_vault.

Definition set_Tags (tags : list string) (e : VaultEntry) : VaultEntry :=
  {| Key := Key e; Value := Value e; Format := Format e;
     Description := Description e; Tags := tags; Metadata := Metadata e;
     CreatedAt := CreatedAt e; UpdatedAt := UpdatedAt e |}.

Definition NewVaultEntry (key value format : string) : M VaultEntry :=
  now ← time_Now;
  mret {| Key := key; Value := value; Format := format; Description := "";
          Tags := []; Metadata := ∅; CreatedAt := now; UpdatedAt := now |}.

Definition SetDescription (desc : string) (e : VaultEntry) : M VaultEntry :=
  now ← time_Now;
  mret {| Key := Key e; Value := Value e; Format := Format e;
          Description := desc; Tags := Tags e; Metadata := Metadata e;
          CreatedAt := CreatedAt e; UpdatedAt := now |}.

Definition HasTag (tag : string) (e : VaultEntry) : bool :=
  existsb (λ existingTag, bool_decide (existingTag = tag)) (Tags e).

Definition AddTag (tag : string) (e : VaultEntry) : M VaultEntry :=
  if existsb (λ existingTag, bool_decide (existingTag = tag)) (Tags e)
  then mret e
  else
    let e := set_Tags (Tags e ++ [tag]) e in
    now ← time_Now;
    mret (set_UpdatedAt now e).

Definition RemoveTag (tag : string) (e : VaultEntry) : M VaultEntry :=
  match list_find (λ existingTag, existingTag = tag) (Tags e) with
  | Some (i, _) =>
      let e := set_Tags (take i (Tags e) ++ drop (S i) (Tags e)) e in
      now ← time_Now;
      mret (set_UpdatedAt now e)
  | None => mret e
  end.

Definition SetMetadata (key value : string) (e : VaultEntry) : M VaultEntry :=
  let e := {| Key := Key e; Value := Value e; Format := Format e;
              Description := Description e; Tags := Tags e;
              Metadata := <[key := value]> (Metadata e);
              CreatedAt := CreatedAt e; UpdatedAt := UpdatedAt e |} in
  now ← time_Now;
  mret (set_UpdatedAt now e).

Definition GetMetadata (key : string) (e : VaultEntry) : option string :=
  Metadata e !! key.

Definition MatchesSearch `{GoStrings} (query : string) (e : VaultEntry) : bool :=
  let query := strings_ToLower query in
  if strings_Contains (strings_ToLower (Key e)) query then true
  else if strings_Contains (strings_ToLower (Description e)) query then true
  else if existsb (λ tag, strings_Contains (strings_ToLower tag) query) (Tags e) then true
  else if bool_decide (Format e = "text")
          && strings_Contains (strings_ToLower (Value e)) query then true
  else false.
End vault_entry.

(** *** package vault: the manager *)

Module vault_manager.
Section vault_manager.
Import models_vault.
Context `{GoLib} `{GoErrors} `{GoStrings} `{Json VaultEntry}.
Import vault.

Definition isValidFormat (format : string) : bool :=
  let validFormats := ["json"; "yaml"; "text"] in
  let format := strings_ToLower format in
  existsb (λ valid, bool_decide (format = valid)) validFormats.

(** [for _, tag := range tags { entry.AddTag(tag) }] *)
Fixpoint addTags (tags : list string) (entry : VaultEntry) : M VaultEntry :=
  match tags with
  | [] => mret entry
  | tag :: tags => entry ← vault_entry.AddTag tag entry; addTags tags entry
  end.

Definition Set_ (vm : VaultManager) (key value format description : string)
    (tags : list string) : M unit :=
  if negb (isValidFormat format)
  then fail (errors_New ("invalid format: " +:+ format
                         +:+ ". Supported formats: json, yaml, text"))
  else
    entry ← vault_entry.NewVaultEntry key value format;
    entry ← vault_entry.SetDescription description entry;
    entry ← addTags tags entry;
    storage.Set_ (db vm) "vault" key entry.

(** The loop of [List] and of [Search]: each key is read with [Get];
    a key that cannot be read is skipped, an entry is kept when [keep]
    says so. *)
Fixpoint getEach (vm : VaultManager) (keep : VaultEntry → bool) (keys : list string)
    (entries : list VaultEntry) : M (list VaultEntry) :=
  match keys with
  | [] => mret entries
  | key :: keys =>
      got ← try (Get vm key);
      match got with
      | Err _ => getEach vm keep keys entries
      | Ok entry =>
          if keep entry then getEach vm keep keys (entries ++ [entry])
          else getEach vm keep keys entries
      end
  end.

Definition List (vm : VaultManager) : M (list VaultEntry) :=
  keys ← wrapM "failed to list vault keys" (storage_scan.List (db vm) "vault");
  getEach vm (λ _, true) keys [].

Definition Search (vm : VaultManager) (query : string) : M (list VaultEntry) :=
  keys ← wrapM "failed to search vault" (storage_scan.Search (db vm) "vault" query);
  getEach vm (vault_entry.MatchesSearch query) keys [].

Definition Delete (vm : VaultManager) (key : string) : M unit :=
  exists_ ← wrapM "failed to check if entry exists" (storage.Exists (db vm) "vault" key);
  if negb exists_ then fail (errors_New ("vault entry '" +:+ key +:+ "' not found"))
  else storage.Delete (db vm) "vault" key.

Definition Update (vm : VaultManager) (key value format description : string)
    (tags : list string) : M unit :=
  exists_ ← wrapM "failed to check if entry exists" (storage.Exists (db vm) "vault" key);
  if negb exists_ then fail (errors_New ("vault entry '" +:+ key +:+ "' not found"))
  else
    entry ← wrapM "failed to get existing entry" (Get vm key);
    let entry := {| Key := Key entry; Value := value; Format := format;
                    Description := Description entry; Tags := Tags entry;
                    Metadata := Metadata entry; CreatedAt := CreatedAt entry;
                    UpdatedAt := UpdatedAt entry |} in
    entry ← vault_entry.SetDescription description entry;
    now ← time_Now;
    let entry := set_UpdatedAt now entry in
    let entry := vault_entry.set_Tags [] entry in
    entry ← addTags tags entry;
    storage.Set_ (db vm) "vault" key entry.

Definition Exists (vm : VaultManager) (key : string) : M bool :=
  storage.Exists (db vm) "vault" key.

Definition GetByTag (vm : VaultManager) (tag : string) : M (list VaultEntry) :=
  entries ← List vm;
  mret (List.filter (vault_entry.HasTag tag) entries).

Definition GetByFormat (vm : VaultManager) (format : string) : M (list VaultEntry) :=
  entries ← List vm;
  mret (List.filter (λ entry, bool_decide (Format entry = format)) entries).

Definition AddTag (vm : VaultManager) (key tag : string) : M unit :=
  entry ← wrapM "failed to get vault entry" (Get vm key);
  entry ← vault_entry.AddTag tag entry;
  storage.Set_ (db vm) "vault" key entry.

Definition RemoveTag (vm : VaultManager) (key tag : string) : M unit :=
  entry ← wrapM "failed to get vault entry" (Get vm key);
  entry ← vault_entry.RemoveTag tag entry;
  storage.Set_ (db vm) "vault" key entry.

Definition SetMetadata (vm : VaultManager) (key metaKey value : string) : M unit :=
  entry ← wrapM "failed to get vault entry" (Get vm key);
  entry ← vault_entry.SetMetadata metaKey value entry;
  storage.Set_ (db vm) "vault" key entry.

Definition GetMetadata (vm : VaultManager) (key metaKey : string) : M (option string) :=
  entry ← wrapM "failed to get vault entry" (Get vm key);
  mret (vault_entry.GetMetadata metaKey entry).

(** The loop of [Clear]. *)
Fixpoint deleteEach (vm : VaultManager) (keys : list string) : M unit :=
  match keys with
  | [] => mret tt
  | key :: keys =>
      _ ← wrapM ("failed to delete key " +:+ key) (storage.Delete (db vm) "vault" key);
      deleteEach vm keys
  end.

Definition Clear (vm : VaultManager) : M unit :=
  keys ← wrapM "failed to list vault keys" (storage_scan.List (db vm) "vault");
  deleteEach vm keys.
End vault_manager.
End vault_manager.

(** *** package dirlock: the rest of the service *)

Module dirlock_service.
Section dirlock_service.
Import models_lock.
Context `{GoLib} `{Json LockedDirectoryJSON}.
Import dirlock.

Definition set_LastAccessed (t : Time) (d : LockedDirectory) : LockedDirectory :=
  {| Path := Path d; Password := Password d; UseMaster := UseMaster d;
     Hidden := Hidden d; Encrypted := Encrypted d; LockedAt := LockedAt d;
     LastAccessed := t; Metadata := Metadata d |}.

(** The loop of [List]: a record that cannot be read is left out. *)
Fixpoint getEach (s : Service) (keys : list string) (out : list LockedDirectory)
    : M (list LockedDirectory) :=
  match keys with
  | [] => mret out
  | k :: keys =>
      got ← try (storage.Get (DB s) "locked_dirs" k);
      match got with
      | Ok rec => getEach s keys (out ++ [rec])
      | Err _ => getEach s keys out
      end
  end.

Definition List (s : Service) : M (list LockedDirectory) :=
  keys ← storage_scan.List (DB s) "locked_dirs";
  getEach s keys [].

Definition IsLocked (s : Service) (path : string) : M bool :=
  abs ← (if negb (strings_HasPrefix path "/") then lift (filepath_Abs path)
         else mret path);
  storage.Exists (DB s) "locked_dirs" abs.

Definition Stamp (s : Service) (path : string) : M unit :=
  got ← try (storage.Get (DB s) "locked_dirs" path);
  match got with
  | Ok rec =>
      now ← time_Now;
      let rec := set_LastAccessed now rec in
      discard (storage.Set_ (DB s) "locked_dirs" path rec)
  | Err _ => mret tt
  end.
End dirlock_service.
End dirlock_service.

(** *** package password: setting up, and the strength of a password *)

(** [unicode/utf8], as a [range] loop over a string decodes it. *)
Module utf8.
Definition RuneError : Z := 0xFFFD.

(** [int(b)] for a byte [b] *)
Definition value (b : byte) : Z := Z.of_N (Byte.to_N b).

Definition between (lo hi x : Z) : bool := (lo <=? x) && (x <=? hi).

(** The first code point of [s] and the number of bytes it takes: an
    invalid or incomplete encoding gives [RuneError] and one byte. *)
Definition DecodeRune (s : bytes) : Z * nat :=
  match s with
  | [] => (RuneError, 0%nat)
  | b0 :: rest =>
      let s0 := value b0 in
      if s0 <? 0x80 then (s0, 1%nat)
      else if between 0xC2 0xDF s0 then
        match rest with
        | b1 :: _ =>
            let s1 := value b1 in
            if between 0x80 0xBF s1
            then (Z.lor (Z.shiftl (Z.land s0 0x1F) 6) (Z.land s1 0x3F), 2%nat)
            else (RuneError, 1%nat)
        | _ => (RuneError, 1%nat)
        end
      else if between 0xE0 0xEF s0 then
        match rest with
        | b1 :: b2 :: _ =>
            let s1 := value b1 in
            let s2 := value b2 in
            let lo := if s0 =? 0xE0 then 0xA0 else 0x80 in
            let hi := if s0 =? 0xED then 0x9F else 0xBF in
            if between lo hi s1 && between 0x80 0xBF s2
            then (Z.lor (Z.lor (Z.shiftl (Z.land s0 0x0F) 12)
                               (Z.shiftl (Z.land s1 0x3F) 6))
                        (Z.land s2 0x3F), 3%nat)
            else (RuneError, 1%nat)
        | _ => (RuneError, 1%nat)
        end
      else if between 0xF0 0xF4 s0 then
        match rest with
        | b1 :: b2 :: b3 :: _ =>
            let s1 := value b1 in
            let s2 := value b2 in
            let s3 := value b3 in
            let lo := if s0 =? 0xF0 then 0x90 else 0x80 in
            let hi := if s0 =? 0xF4 then 0x8F else 0xBF in
            if between lo hi s1 && between 0x80 0xBF s2 && between 0x80 0xBF s3
            then (Z.lor (Z.lor (Z.lor (Z.shiftl (Z.land s0 0x07) 18)
                                      (Z.shiftl (Z.land s1 0x3F) 12))
                               (Z.shiftl (Z.land s2 0x3F) 6))
                        (Z.land s3 0x3F), 4%nat)
            else (RuneError, 1%nat)
        | _ => (RuneError, 1%nat)
        end
      else (RuneError, 1%nat)
  end.

(** The code points a loop [for _, char := range s] visits, for a
    string of at most [fuel] bytes. *)
Fixpoint runes_from (fuel : nat) (s : bytes) : list Z :=
  match fuel with
  | O => []
  | S fuel =>
      match s with
      | [] => []
      | _ :: _ =>
          let '(char, width) := DecodeRune s in
          char :: runes_from fuel (drop width s)
      end
  end.

Definition runes (s : string) : list Z :=
  let b := bytes_of_string s in runes_from (length b) b.
End utf8.

Module password_rules.
Section password_rules.
Context `{GoErrors}.

(** [fmt.Println(line)] *)
Definition fmt_Println (line : string) : M unit :=
  modify (set_stdout ((line +:+ String (Ascii.ascii_of_nat 10) "") ::.)).

Definition SetupMasterPassword : M string :=
  _ ← fmt_Println "Setting up master password for Ark CLI...";
  _ ← fmt_Println "This password will be used to encrypt all your sensitive data.";
  _ ← fmt_Println "";
  password ← wrapM "failed to read password"
               (password.getPassword "Enter master password: ");
  if decide (len password < 8)%nat
  then fail (errors_New "password must be at least 8 characters long")
  else
    confirmPassword ← wrapM "failed to read confirmation password"
                        (password.getPassword "Confirm master password: ");
    if decide (password ≠ confirmPassword)
    then fail (errors_New "passwords do not match")
    else
      _ ← fmt_Println "✅ Master password set successfully!";
      mret password.

(** The flags [hasUpper], [hasLower], [hasDigit], [hasSpecial] after
    the loop has seen [char]. *)
Definition see (flags : bool * bool * bool * bool) (char : Z)
    : bool * bool * bool * bool :=
  let '(hasUpper, hasLower, hasDigit, hasSpecial) := flags in
  if (65 <=? char) && (char <=? 90) then (true, hasLower, hasDigit, hasSpecial)
  else if (97 <=? char) && (char <=? 122) then (hasUpper, true, hasDigit, hasSpecial)
  else if (48 <=? char) && (char <=? 57) then (hasUpper, hasLower, true, hasSpecial)
  else if (33 <=? char) && (char <=? 126) then (hasUpper, hasLower, hasDigit, true)
  else flags.

Definition ValidatePasswordStrength (password : string) : result unit :=
  if decide (len password < 8)%nat
  then Err (errors_New "password must be at least 8 characters long")
  else
    let '(hasUpper, hasLower, hasDigit, hasSpecial) :=
      foldl see (false, false, false, false) (utf8.runes password) in
    if negb hasUpper
    then Err (errors_New "password must contain at least one uppercase letter")
    else if negb hasLower
    then Err (errors_New "password must contain at least one lowercase letter")
    else if negb hasDigit
    then Err (errors_New "password must contain at least one digit")
    else if negb hasSpecial
    then Err (errors_New "password must contain at least one special character")
    else Ok tt.
End password_rules.
End password_rules.

(** *** Vocabulary of the statements about them *)

(** What [CreateBucketIfNotExists] does to the store for a name that is
    not empty. *)
Definition ensure (tx : gmap string (gmap string bytes)) (name : string)
    : gmap string (gmap string bytes) :=
  match tx !! name with Some _ => tx | None => <[name := ∅]> tx end.

(** The key a call of [GetMasterKey] returned, without the
    configuration. *)
Definition returned_key (r : result (bytes * config.Config)) : result bytes :=
  match r with Ok (key, _) => Ok key | Err e => Err e end.

(** The value stored under [key] in the bucket [b] decrypts and decodes
    to [v]. *)
Definition stored `{GoLib} {V} `{Json V} (d : storage.Database) (b : gmap string bytes)
    (key : string) (v : V) : Prop :=
  ∃ ct plaintext,
    b !! key = Some ct ∧ crypto.Decrypt (storage.enc d) ct = Ok plaintext ∧
    json_Unmarshal plaintext = Ok v.

(** The classes of characters [ValidatePasswordStrength] asks for, on
    the value of a byte. *)
Definition is_upper (c : Z) : Prop := 65 ≤ c ≤ 90.
Definition is_lower (c : Z) : Prop := 97 ≤ c ≤ 122.
Definition is_digit (c : Z) : Prop := 48 ≤ c ≤ 57.
Definition is_special (c : Z) : Prop :=
  33 ≤ c ≤ 126 ∧ ¬ is_upper c ∧ ¬ is_lower c ∧ ¬ is_digit c.

#[global] Instance is_upper_dec c : Decision (is_upper c).
Proof. unfold is_upper. apply _. Defined.
#[global] Instance is_lower_dec c : Decision (is_lower c).
Proof. unfold is_lower. apply _. Defined.
#[global] Instance is_digit_dec c : Decision (is_digit c).
Proof. unfold is_digit. apply _. Defined.
#[global] Instance is_special_dec c : Decision (is_special c).
Proof. unfold is_special. apply _. Defined.

(* ===================================================================== *)
(** ** Vocabulary of the statements                                       *)
(* ===================================================================== *)

(** [keeps f m]: running [m] does not change the component [f] of the
    world, whatever [m] returns. *)
Definition keeps {A B} (f : World → A) (m : M B) : Prop :=
  ∀ w, f (m w).2 = f w.

(** The test [err == nil && len(cachedKey) > 0] of [GetMasterKey]. *)
Definition cache_hit (r : result bytes) : bool :=
  match r with Ok (_ :: _) => true | _ => false end.

Section vocabulary.
Context `{GoLib} `{Json config.cacheEntry}.
Import crypto config dirlock.

(** The encryptor [loadCachedMasterKey] builds for the cache file. *)
Definition cacheEncryptor (c : Config) : Encryptor :=
  {| key := sha256_Sum256 (bytes_of_string (ConfigDir c) ++ Salt c) |}.


(** Inserting the files one after the other, as the extraction does. *)
Definition insert_all (files : list (string * bytes)) (into : gmap string bytes)
    : gmap string bytes :=
  foldl (λ acc file, <[file.1 := file.2]> acc) into files.

(** An archive entry [entry] holds the file [file]. *)
Definition holds (key : bytes) (file entry : string * bytes) : Prop :=
  entry.1 = file.1 ∧ decryptContent entry.2 key = Ok file.2.

(** An entry called [name] is extracted into the directory [t]: the
    name is not empty and joins to [t] as it is written, nothing is at
    that path yet, and it lies below no other entry of the file
    system. *)
Definition lands_in (w : World) (t name : string) : Prop :=
  name ≠ "" ∧ filepath_Join [t; name] = t +:+ "/" +:+ name ∧
  fs w !! (t +:+ "/" +:+ name) = None ∧
  ∀ d, is_Some (fs w !! d) → d ≠ t → rel_below d (t +:+ "/" +:+ name) = None.

(** Neither of two relative paths lies below the other: both can be
    files of one directory. *)
Definition apart (a b : string) : Prop :=
  rel_below a b = None ∧ rel_below b a = None.
End vocabulary.

(* ===================================================================== *)
(** ** A small instance of the libraries                                  *)
(* ===================================================================== *)

(** The laws assumed of the libraries are consistent: here is an
    instance that satisfies them, simple enough to compute with.  It is
    the one used wherever a statement is instantiated on an example. *)
Module reference.
(** Any countable type has an injective encoding into bytes: the
    binary digits of its code, one per byte. *)
Fixpoint bytes_of_positive (p : positive) : bytes :=
  match p with
  | xH => []
  | xO p => "000"%byte :: bytes_of_positive p
  | xI p => "001"%byte :: bytes_of_positive p
  end.

Fixpoint positive_of_bytes (b : bytes) : option positive :=
  match b with
  | [] => Some xH
  | x :: b =>
      p ← positive_of_bytes b;
      if decide (x = "000"%byte) then Some (xO p)
      else if decide (x = "001"%byte) then Some (xI p)
      else None
  end.

Definition encode_bytes {A} `{Countable A} (a : A) : bytes :=
  bytes_of_positive (encode a).
Definition decode_bytes {A} `{Countable A} (b : bytes) : option A :=
  p ← positive_of_bytes b; decode p.

Definition of_option {A} (e : error) (o : option A) : result A :=
  match o with Some a => Ok a | None => Err e end.

#[global] Instance byte_countable : Countable byte :=
  inj_countable Byte.to_N Byte.of_N Byte.of_to_N.

(** JSON stand-in for a countable type. *)
Definition json {V} `{Countable V} : Json V := {|
  json_Marshal v := Ok (encode_bytes v);
  json_Unmarshal d := of_option ErrJSON (decode_bytes d)
|}.

(** An authenticated cipher: the plaintext followed by a 16-byte tag
    made of key and nonce. *)
Definition tag (k nonce : bytes) : bytes :=
  take 16 (k ++ nonce ++ replicate 16 "000"%byte).

Definition Seal (k nonce p : bytes) : bytes := p ++ tag k nonce.

Definition Open (k nonce c : bytes) : option bytes :=
  let n := (length c - 16)%nat in
  if decide (16 ≤ length c ∧ drop n c = tag k nonce)%nat then Some (take n c) else None.

Definition pad (n : nat) (b : bytes) : bytes := take n (b ++ replicate n "000"%byte).

(** An archive format: each entry is a mark followed by its name and
    its data, each led by its length in unary; a zero byte ends the
    archive. *)
Definition unary (n : nat) : bytes := replicate n "001"%byte ++ ["000"%byte].

Definition field (b : bytes) : bytes := unary (length b) ++ b.

Fixpoint pack (entries : list (string * bytes)) : bytes :=
  match entries with
  | [] => ["000"%byte]
  | (name, data) :: entries =>
      "001"%byte :: field (bytes_of_string name) ++ field data ++ pack entries
  end.

Fixpoint read_unary (b : bytes) : option (nat * bytes) :=
  match b with
  | [] => None
  | x :: b =>
      if decide (x = "000"%byte) then Some (0%nat, b)
      else if decide (x = "001"%byte)
      then '(n, rest) ← read_unary b; Some (S n, rest)
      else None
  end.

Definition read_field (b : bytes) : option (bytes * bytes) :=
  '(n, rest) ← read_unary b;
  if decide (n ≤ length rest)%nat then Some (take n rest, drop n rest) else None.

(** At most [fuel] entries are read. *)
Fixpoint unpack_upto (fuel : nat) (b : bytes) : option (list (string * bytes)) :=
  match fuel, b with
  | S fuel, x :: b =>
      if decide (x = "000"%byte) then (if decide (b = []) then Some [] else None)
      else if decide (x = "001"%byte)
      then '(name, b) ← read_field b;
           '(data, b) ← read_field b;
           entries ← unpack_upto fuel b;
           Some ((String.string_of_list_byte name, data) :: entries)
      else None
  | _, _ => None
  end.

Definition unpack (b : bytes) : option (list (string * bytes)) :=
  unpack_upto (length b) b.

(** [filepath.Clean] and [filepath.Join] for slash-separated paths. *)
Fixpoint elements (s cur : string) : list string :=
  match s with
  | "" => [cur]
  | String a s =>
      if decide (a = slash) then cur :: elements s ""
      else elements s (cur +:+ String a "")
  end.

(** The elements kept so far, the last one first. *)
Definition clean_step (rooted : bool) (kept : list string) (e : string) : list string :=
  if decide (e = "" ∨ e = ".") then kept
  else if decide (e = "..") then
    match kept with
    | last :: rest => if decide (last = "..") then e :: kept else rest
    | [] => if rooted then [] else [e]
    end
  else e :: kept.

Definition slashed (elem : list string) : string :=
  match elem with
  | [] => ""
  | e :: elem => foldl (λ acc x, acc +:+ "/" +:+ x) e elem
  end.

Definition Clean (path : string) : string :=
  let rooted := String.prefix "/" path in
  let body := slashed (reverse (foldl (clean_step rooted) [] (elements path ""))) in
  if rooted then "/" +:+ body
  else if decide (body = "") then "." else body.

Definition Join (elem : list string) : string :=
  match filter (λ e, e ≠ "") elem with
  | [] => ""
  | elem => Clean (slashed elem)
  end.

Fixpoint has_slash (s : string) : bool :=
  match s with
  | "" => false
  | String a s => bool_decide (a = Ascii.ascii_of_nat 47) || has_slash s
  end.

(** Everything before the last slash. *)
Fixpoint Dir_ (s : string) : string :=
  match s with
  | "" => ""
  | String a s => if has_slash s then String a (Dir_ s) else ""
  end.

#[global] Instance lib : GoLib := {|
  gcm_Seal := Seal;
  gcm_Open := Open;
  argon2_IDKey password salt _ _ _ keyLen := pad (N.to_nat keyLen) (password ++ salt);
  sha256_Sum256 data := pad 32 data;
  zip_Writer := pack;
  zip_NewReader data := entries ← unpack data; Some entries.*1;
  zip_ReadAll _ i now :=
    of_option ErrZip (entries ← unpack now; entry ← entries !! i; Some entry.2);
  filepath_Abs path := Ok path;
  filepath_Join := Join;
  filepath_Dir := Dir_
|}.

(** The records that travel as JSON are countable. *)
#[global] Instance cacheEntry_eq_dec : EqDecision config.cacheEntry.
Proof. solve_decision. Defined.
#[global] Instance cacheEntry_countable : Countable config.cacheEntry.
Proof.
  refine (inj_countable'
    (λ e, (config.Key e, config.ExpiresAt e))
    (λ '(k, t), config.Build_cacheEntry k t) _).
  by intros [].
Defined.

#[global] Instance VaultEntry_eq_dec : EqDecision models_vault.VaultEntry.
Proof. solve_decision. Defined.
#[global] Instance VaultEntry_countable : Countable models_vault.VaultEntry.
Proof.
  refine (inj_countable'
    (λ e, (models_vault.Key e, models_vault.Value e, models_vault.Format e,
           models_vault.Description e, models_vault.Tags e,
           models_vault.Metadata e, models_vault.CreatedAt e,
           models_vault.UpdatedAt e))
    (λ '(k, v, f, d, t, m, c, u), models_vault.Build_VaultEntry k v f d t m c u) _).
  by intros [].
Defined.

#[global] Instance LockedDirectoryJSON_eq_dec : EqDecision models_lock.LockedDirectoryJSON.
Proof. solve_decision. Defined.
#[global] Instance LockedDirectoryJSON_countable : Countable models_lock.LockedDirectoryJSON.
Proof.
  refine (inj_countable'
    (λ j, (models_lock.path j, models_lock.use_master j, models_lock.hidden j,
           models_lock.encrypted j, models_lock.locked_at j,
           models_lock.last_accessed j, models_lock.metadata j))
    (λ '(p, u, h, e, l, a, m), models_lock.Build_LockedDirectoryJSON p u h e l a m) _).
  by intros [].
Defined.

#[global] Instance cacheEntry_json : Json config.cacheEntry := json.
#[global] Instance VaultEntry_json : Json models_vault.VaultEntry := json.
#[global] Instance LockedDirectoryJSON_json : Json models_lock.LockedDirectoryJSON := json.
#[global] Instance string_json : Json string := json.

(** A store opened under the all-zero key, and a world to run in: the
  buckets exist and are empty, no file exists, the random source has
  64 bytes to give, one password is waiting on the terminal, and the
  clock stands still. *)
Definition zero_key : bytes := replicate 32 "000"%byte.

Definition database : storage.Database :=
  {| storage.enc := {| crypto.key := zero_key |}; storage.path := "/home/u/.ark/data/ark.db" |}.

Definition world : World := {|
  fs := ∅;
  hidden := ∅;
  undeletable := ∅;
  euid_root := false;
  boltdb := {[ "vault" := ∅; "locked_dirs" := ∅ ]};
  rand_Reader := replicate 64 "007"%byte;
  stdin := [Some "TestPassword123!"];
  stdout := [];
  clock _ := 1700000000000000000;
  ticks := 0
|}.

(** A configuration that holds its key, one that has never been
    initialised, and one that has a salt but no key in memory. *)
Definition config_held : config.Config := {|
  config.MasterKey := replicate 32 "001"%byte;
  config.Salt := replicate 32 "002"%byte;
  config.ConfigDir := "/home/u/.ark";
  config.PasswordCacheTimeout := 300
|}.

Definition config_fresh : config.Config := {|
  config.MasterKey := [];
  config.Salt := [];
  config.ConfigDir := "/home/u/.ark";
  config.PasswordCacheTimeout := 300
|}.

Definition config_cold : config.Config := {|
  config.MasterKey := [];
  config.Salt := replicate 32 "002"%byte;
  config.ConfigDir := "/home/u/.ark";
  config.PasswordCacheTimeout := 300
|}.



(** A vault entry, and the world after it has been stored. *)
Definition entry : models_vault.VaultEntry := {|
  models_vault.Key := "db-pass";
  models_vault.Value := "s3cr3t";
  models_vault.Format := "text";
  models_vault.Description := "";
  models_vault.Tags := [];
  models_vault.Metadata := ∅;
  models_vault.CreatedAt := 1600000000000000000;
  models_vault.UpdatedAt := 1600000000000000000
|}.

Definition world_entry : World :=
  (storage.Set_ database "vault" "db-pass" entry world).2.

(** A directory with one file, and the service that locks it. *)
Definition secret : string := "/home/u/secret".

Definition service : dirlock.Service := {| dirlock.DB := database |}.

Definition world_dir : World :=
  set_fs <[secret := Dir mode_0700 {[ "a.txt" := bytes_of_string "hello" ]}]> world.

(** The same for a process that runs as root. *)
Definition world_dir_root : World :=
  mkWorld (fs world_dir) (hidden world_dir) (undeletable world_dir) true (boltdb world_dir)
          (rand_Reader world_dir) (stdin world_dir) (stdout world_dir)
          (clock world_dir) (ticks world_dir).

(** Worlds in which [secret] is an archive, recorded as locked under
    the master key. *)
Definition record : models_lock.LockedDirectory :=
  models_lock.SetMetadata "mode" "encrypted"
    (models_lock.NewLockedDirectory 1600000000000000000 secret true false).

Definition world_archive (entries : list (string * bytes)) : World :=
  (storage.Set_ database "locked_dirs" secret record
     (set_fs <[secret := File mode_0600 (zip_Writer entries)]> world)).2.

Definition nonce : bytes := replicate 12 "009"%byte.

(** What [encryptContent] makes of [content] under the key [Lock]
    uses, and 28 bytes that are a nonce and no tag. *)
Definition sealed (content : bytes) : bytes :=
  nonce ++ gcm_Seal zero_key nonce content.

Definition untagged : bytes := replicate 28 "042"%byte.

(** One entry, ["hello"] under the name [a.txt]. *)
Definition world_sealed : World :=
  world_archive [("a.txt", nonce ++ gcm_Seal zero_key nonce (bytes_of_string "hello"))].

(** Archives whose first entry is called [../secret], which joins to
    the path of the archive itself.  In the first world the entry
    holds bytes that read as an archive again, and a second entry
    follows that does not authenticate, in the archive and in what the
    first entry holds; in the second world the entry holds ["hello"]
    and is the only one. *)
Definition inner : bytes :=
  zip_Writer [("a.txt", sealed (bytes_of_string "hello")); ("b", untagged)].

Definition world_slip : World :=
  world_archive [("../secret", sealed inner); ("b", untagged)].

Definition world_slip_alone : World :=
  world_archive [("../secret", sealed (bytes_of_string "hello"))].


(** A world in which [secret] is recorded as locked under a password
    of its own. *)
Definition world_custom : World :=
  (storage.Set_ database "locked_dirs" secret
     (models_lock.SetPassword "hunter2" record) world).2.
End reference.

(** Stand-ins for the operations added above, and more sample data. *)
Module scenario.
Import reference.

(** Lower case for the letters of ASCII. *)
Definition lower (a : Ascii.ascii) : Ascii.ascii :=
  let n := Ascii.nat_of_ascii a in
  if decide (65 ≤ n ≤ 90)%nat then Ascii.ascii_of_nat (n + 32) else a.

Fixpoint ToLower (s : string) : string :=
  match s with
  | "" => ""
  | String a s => String (lower a) (ToLower s)
  end.

#[global] Instance strings : GoStrings := {| strings_ToLower := ToLower |}.

(** A message travels as the text of a wrapper. *)
#[global] Instance errors : GoErrors := {| errors_New msg := Wrap msg ErrAbs |}.

Definition manager : vault.VaultManager := {| vault.db := database |}.

(** The world after the vault has been given the entry of the design
    document, with a description and three tags, one of them twice. *)
Definition world_vault : World :=
  (vault_manager.Set_ manager "db-pass" "s3cr3t" "text" "database password"
     ["prod"; "db"; "prod"] world).2.

(** The entry that call stores. *)
Definition entry_vault : models_vault.VaultEntry := {|
  models_vault.Key := "db-pass";
  models_vault.Value := "s3cr3t";
  models_vault.Format := "text";
  models_vault.Description := "database password";
  models_vault.Tags := ["prod"; "db"];
  models_vault.Metadata := ∅;
  models_vault.CreatedAt := 1700000000000000000;
  models_vault.UpdatedAt := 1700000000000000000
|}.


(** A world in which [inputs] are waiting on the terminal. *)
Definition typed (inputs : list (option string)) (w : World) : World :=
  set_stdin (λ _, inputs) w.


(** The sample world with a random source of 128 bytes. *)
Definition world_rich : World :=
  set_rand_Reader (λ _, replicate 128 "007"%byte) world.

(** A key to cache, and the world after it has been cached for five
    minutes. *)
Definition cached_key : bytes := replicate 32 "001"%byte.

Definition world_cached : World :=
  (config.saveCachedMasterKey config_cold cached_key 300 world_rich).2.
End scenario.

(* ===================================================================== *)
(** * Properties                                                          *)
(* ===================================================================== *)

Section crypto_props.
Context `{GoLib} `{!GcmLaws}.
Import crypto.

Lemma rand_ReadFull_Ok n w b w' :
  rand_ReadFull n w = (Ok b, w') →
  length b = n ∧ b = take n (rand_Reader w) ∧ w' = set_rand_Reader (drop n) w.
Proof.
  unfold rand_ReadFull. case_decide; [|done].
  intros [= <- <-]. split_and!; [|done..]. rewrite length_take. lia.
Qed.

Lemma NewEncryptor_Ok k e :
  NewEncryptor k = Ok e → key e = k ∧ length k = KeySize.
Proof.
  unfold NewEncryptor. case_decide as Hk; [done|].
  intros [= <-]. split; [done|]. by destruct (decide (length k = KeySize)).
Qed.

Lemma Encrypt_Ok e p w ct w' :
  Encrypt e p w = (Ok ct, w') →
  ∃ nonce, length nonce = NonceSize ∧ ct = nonce ++ gcm_Seal (key e) nonce p ∧
           aes_key_size_ok (length (key e)) = true.
Proof.
  unfold Encrypt, aes_NewCipher, mbind, M_bind, lift, wrapM, wrapR, mret, M_ret.
  destruct (aes_key_size_ok _) eqn:Hk; [|done].
  destruct (rand_ReadFull NonceSize w) as [[nonce|?] w1] eqn:Hr; [|done].
  intros [= <- <-]. apply rand_ReadFull_Ok in Hr as (Hlen & _ & _).
  by exists nonce.
Qed.

Lemma Decrypt_Seal e nonce p :
  aes_key_size_ok (length (key e)) = true → length nonce = NonceSize →
  Decrypt e (nonce ++ gcm_Seal (key e) nonce p) = Ok p.
Proof.
  intros Hk Hn. unfold Decrypt, aes_NewCipher, wrapR, mbind, result_bind.
  rewrite Hk. case_decide as Hlt.
  - rewrite length_app in Hlt. lia.
  - rewrite take_app_length', drop_app_length' by done.
    by rewrite gcm_Open_Seal.
Qed.

(** C1. For every plaintext [p] and every 32-byte key [k]: an encryptor
    is built from [k]; whatever [Encrypt] returns for [p] is decrypted
    by [Decrypt] to exactly [p]; and [Encrypt] does return a
    ciphertext whenever the random source delivers a nonce. *)
Theorem Decrypt_Encrypt (k p : bytes) :
  length k = KeySize →
  ∃ e, NewEncryptor k = Ok e ∧
    (∀ w ct w', Encrypt e p w = (Ok ct, w') → Decrypt e ct = Ok p) ∧
    (∀ w, (NonceSize ≤ length (rand_Reader w))%nat →
          ∃ ct w', Encrypt e p w = (Ok ct, w') ∧ Decrypt e ct = Ok p).
Proof.
    intros Hk. exists {| key := k |}.
    assert (Hnew : NewEncryptor k = Ok {| key := k |}).
    { unfold NewEncryptor. by case_decide. }
    assert (Haes : aes_key_size_ok (length k) = true) by by rewrite Hk.
    split_and!; [done|..].
    - intros w ct w' (nonce & Hn & -> & _)%Encrypt_Ok. by apply Decrypt_Seal.
    - intros w Hrng.
      assert (Hn : length (take NonceSize (rand_Reader w)) = NonceSize).
      { rewrite length_take. lia. }
      eexists _, _. split.
      + unfold Encrypt, aes_NewCipher, mbind, M_bind, lift, wrapM, wrapR,
          rand_ReadFull, mret, M_ret. simpl. rewrite Haes.
        case_decide; [reflexivity|lia].
      + by apply Decrypt_Seal.
Qed.
End crypto_props.

(* ===================================================================== *)
(** ** The store                                                          *)
(* ===================================================================== *)

(** Unfolds the plumbing of the two monads. *)
Ltac munfold :=
  unfold mbind, M_bind, result_bind, mret, M_ret, result_ret, lift, fail, gets,
    modify, wrapM, wrapR, discard, try, defer in *.

Lemma set_boltdb_id w : set_boltdb (λ _, boltdb w) w = w.
Proof. by destruct w. Qed.

(** A sequence that ends well went well at every step. *)
Lemma bind_Ok_inv {A B} (m : M A) (k : A → M B) w b w' :
  (m ≫= k) w = (Ok b, w') →
  ∃ a w0, m w = (Ok a, w0) ∧ k a w0 = (Ok b, w').
Proof. munfold. destruct (m w) as [[a|e] w0]; [eauto|done]. Qed.

Lemma bind_Ok {A B} (m : M A) (k : A → M B) w a w' :
  m w = (Ok a, w') → (m ≫= k) w = k a w'.
Proof. intros Hm. munfold. by rewrite Hm. Qed.

Lemma wrapM_Ok_inv {A} msg (m : M A) w a w' :
  wrapM msg m w = (Ok a, w') → m w = (Ok a, w').
Proof. munfold. destruct (m w) as [[?|?] ?]; [|done]. by intros [= <- <-]. Qed.

Lemma lift_Ok_inv {A} (r : result A) w a w' :
  lift r w = (Ok a, w') → r = Ok a ∧ w' = w.
Proof. by intros [= -> <-]. Qed.

Section storage_props.
Context `{GoLib}.
Import crypto storage.

Lemma Encrypt_frame e p w r w' :
  Encrypt e p w = (r, w') →
  ∃ rnd, w' = set_rand_Reader (λ _, rnd) w.
Proof.
  unfold Encrypt, rand_ReadFull. munfold.
  destruct (aes_NewCipher (key e)); simpl.
  - case_decide; intros [= <- <-]; eauto.
  - intros [= <- <-]. exists (rand_Reader w). by destruct w.
Qed.

(** What a successful [Set_] has done. *)
Lemma Set_Ok {V} `{Json V} d bucket key (v : V) w w1 :
  Set_ d bucket key v w = (Ok tt, w1) →
  ∃ data nonce b1,
    json_Marshal v = Ok data ∧
    length nonce = NonceSize ∧
    aes_key_size_ok (length (crypto.key (enc d))) = true ∧
    boltdb w1 !! bucket = Some b1 ∧
    b1 !! key = Some (nonce ++ gcm_Seal (crypto.key (enc d)) nonce data).
Proof.
  unfold Set_. munfold.
  destruct (json_Marshal v) as [data|] eqn:Hm; simpl; [|done].
  destruct (Encrypt (enc d) data w) as [[ct|] w'] eqn:He; [|done].
  apply Encrypt_Ok in He as (nonce & Hn & -> & Hk).
  unfold bbolt.Update, bbolt.Put.
  destruct (boltdb w' !! bucket) as [b|] eqn:Hb; [|done].
  repeat case_decide; simpl; try done.
  intros [= <-]. eexists data, nonce, _. split_and!; try done.
  - simpl. apply lookup_insert_eq.
  - apply lookup_insert_eq.
Qed.

Lemma Delete_Ok d bucket key w w2 :
  Delete d bucket key w = (Ok tt, w2) →
  ∃ b2, boltdb w2 !! bucket = Some b2 ∧ b2 !! key = None.
Proof.
  unfold Delete, bbolt.Update.
  destruct (boltdb w !! bucket) as [b|] eqn:Hb; [|done].
  intros [= <-]. eexists. split.
  - simpl. apply lookup_insert_eq.
  - apply lookup_delete_eq.
Qed.

(** C2. For a JSON-serializable value [v]: after a [Set_] that
    returned no error, [Get] decodes the value that was stored and
    [Exists] answers true; after a [Delete] that returned no error,
    [Get] fails with the key-not-found error and [Exists] answers
    false.  Neither [Get] nor [Exists] changes anything. *)
Theorem Set_Get_Exists_Delete {V} `{Json V} `{!GcmLaws}
    (d : Database) (bucket key : string) (v : V) (w : World) :
  JsonSerializable v →
  (∀ w1, Set_ d bucket key v w = (Ok tt, w1) →
         Get d bucket key w1 = (Ok v, w1) ∧
         Exists d bucket key w1 = (Ok true, w1)) ∧
  (∀ w2, Delete d bucket key w = (Ok tt, w2) →
         Get (V := V) d bucket key w2 = (Err (ErrKeyNotFound key bucket), w2) ∧
         Exists d bucket key w2 = (Ok false, w2)).
Proof.
  intros Hv. split.
  - intros w1 (data & nonce & b1 & Hm & Hn & Hk & Hb & Hct)%Set_Ok.
    unfold Get, Exists, bbolt.View. munfold.
    rewrite Hb, Hct, Decrypt_Seal by done.
    rewrite (Hv _ Hm). split; [done|].
    by rewrite bool_decide_eq_true_2.
  - intros w2 (b2 & Hb & Hct)%Delete_Ok.
    unfold Get, Exists, bbolt.View. munfold.
    rewrite Hb, Hct. split; [done|].
    rewrite bool_decide_eq_false_2; [done|]. by intros [? ?].
Qed.

(** C8. [Delete] of a key that is absent from an existing bucket returns
    no error and leaves the world as it was; [Delete] from a bucket that
    does not exist returns the bucket-not-found error (and changes
    nothing either). *)
Theorem Delete_absent (d : Database) (bucket key : string) (w : World) :
  (∀ b, boltdb w !! bucket = Some b → b !! key = None →
        Delete d bucket key w = (Ok tt, w)) ∧
  (boltdb w !! bucket = None →
        Delete d bucket key w = (Err (ErrBucketNotFound bucket), w)).
Proof.
  unfold Delete, bbolt.Update. split.
  - intros b Hb Hk. rewrite Hb, delete_id by done.
    rewrite insert_id by done. by rewrite set_boltdb_id.
  - by intros ->.
Qed.
End storage_props.

(* ===================================================================== *)
(** ** What a computation leaves alone                                    *)
(* ===================================================================== *)

Section keeps.
Context {A : Type} (f : World → A).

Lemma keeps_ret {B} (b : B) : keeps f (mret b).
Proof. done. Qed.

Lemma keeps_fail {B} e : keeps f (fail (A := B) e).
Proof. done. Qed.

Lemma keeps_lift {B} (r : result B) : keeps f (lift r).
Proof. done. Qed.

Lemma keeps_gets {B} (g : World → B) : keeps f (gets g).
Proof. done. Qed.

Lemma keeps_bind {B C} (m : M B) (k : B → M C) :
  keeps f m → (∀ b, keeps f (k b)) → keeps f (m ≫= k).
Proof.
  intros Hm Hk w. munfold. specialize (Hm w).
  destruct (m w) as [[b|e] w']; simpl in *; [|done].
  by rewrite Hk.
Qed.

Lemma keeps_wrapM {B} msg (m : M B) : keeps f m → keeps f (wrapM msg m).
Proof. intros Hm w. munfold. specialize (Hm w). by destruct (m w) as [[|] ?]. Qed.

Lemma keeps_discard {B} (m : M B) : keeps f m → keeps f (discard m).
Proof. intros Hm w. apply Hm. Qed.

Lemma keeps_try {B} (m : M B) : keeps f m → keeps f (try m).
Proof. intros Hm w. munfold. specialize (Hm w). by destruct (m w). Qed.

Lemma keeps_defer {B C} (cleanup : M C) (body : M B) :
  keeps f cleanup → keeps f body → keeps f (defer cleanup body).
Proof.
  intros Hc Hb w. munfold. specialize (Hb w).
  destruct (body w) as [r w']; simpl in *. by rewrite Hc.
Qed.
End keeps.

(** A primitive keeps a component when each of its outcomes does. *)
Ltac keeps_prim :=
  intros ?;
  cbv [os_Stat os_ReadFile os_WriteFile os_Create fd_flush os_MkdirAll os_Remove
       os_RemoveAll os_Rename os_Chmod chflags fd_ReadAll rand_ReadFull
       time_Now password.getPassword bbolt.Update bbolt.View];
  repeat case_match; reflexivity.

(** Walks through a computation built from binds, matches and
  primitives. *)
Create HintDb keeps.

Ltac keeps_go :=
  repeat first
    [ progress cbv zeta
    | lazymatch goal with
      | |- keeps _ (mret _) => apply keeps_ret
      | |- keeps _ (fail _) => apply keeps_fail
      | |- keeps _ (lift _) => apply keeps_lift
      | |- keeps _ (gets _) => apply keeps_gets
      | |- keeps _ (wrapM _ _) => apply keeps_wrapM
      | |- keeps _ (discard _) => apply keeps_discard
      | |- keeps _ (try _) => apply keeps_try
      | |- keeps _ (defer _ _) => apply keeps_defer
      | |- keeps _ (_ ≫= _) => apply keeps_bind; [|intros ?]
      | |- keeps _ (match ?x with _ => _ end) => destruct x
      end
    | assumption
    | solve [keeps_prim]
    | solve [eauto with keeps] ].

(* ===================================================================== *)
(** ** The master key                                                     *)
(* ===================================================================== *)

Lemma String_length_0 s : String.length s = 0%nat ↔ s = "".
Proof. by destruct s. Qed.

Section config_props.
Context `{GoLib} `{Json config.cacheEntry}.
Import crypto config.

Lemma Encrypt_keeps {A} (f : World → A) e p :
  (∀ g w, f (set_rand_Reader g w) = f w) → keeps f (Encrypt e p).
Proof.
  intros Hf w. destruct (Encrypt e p w) as [r w'] eqn:He.
  apply Encrypt_frame in He as [rnd ->]. apply Hf.
Qed.

Lemma loadCachedMasterKey_keeps_stdin c : keeps stdin (loadCachedMasterKey c).
Proof. unfold loadCachedMasterKey. keeps_go. Qed.

Lemma loadCachedMasterKey_keeps_stdout c : keeps stdout (loadCachedMasterKey c).
Proof. unfold loadCachedMasterKey. keeps_go. Qed.

Lemma saveCachedMasterKey_keeps_stdin c k t : keeps stdin (saveCachedMasterKey c k t).
Proof. unfold saveCachedMasterKey. keeps_go. by apply Encrypt_keeps. Qed.

Lemma saveCachedMasterKey_keeps_stdout c k t : keeps stdout (saveCachedMasterKey c k t).
Proof. unfold saveCachedMasterKey. keeps_go. by apply Encrypt_keeps. Qed.

(** C6. With a key held in memory, [GetMasterKey] returns that key,
    whatever the cache file holds, and leaves the configuration and the
    whole world as they were: nothing is read from the terminal,
    nothing printed, no file changed.  On a cache miss with an empty
    [Salt] it fails with the not-initialised error, and the terminal
    has neither been written to nor read from. *)
Theorem GetMasterKey_held_or_uninitialised (c : Config) (w : World) :
  (MasterKey c ≠ [] → GetMasterKey c w = (Ok (MasterKey c, c), w)) ∧
  (MasterKey c = [] → Salt c = [] →
   cache_hit (loadCachedMasterKey c w).1 = false →
   let w1 := (loadCachedMasterKey c w).2 in
   GetMasterKey c w = (Err ErrNoSalt, w1) ∧
   stdin w1 = stdin w ∧ stdout w1 = stdout w).
Proof.
  split.
  - intros Hk. unfold GetMasterKey. case_decide as Hl; [done|].
    destruct (MasterKey c); [done|simpl in Hl; lia].
  - intros Hk Hs Hmiss w1. split_and!.
    + unfold GetMasterKey. rewrite Hk, Hs. simpl. munfold.
      subst w1. destruct (loadCachedMasterKey c w) as [[[|]|] w'];
        simpl in *; done.
    + apply loadCachedMasterKey_keeps_stdin.
    + apply loadCachedMasterKey_keeps_stdout.
Qed.
End config_props.

Section cache_props.
Context `{GoLib} `{!Sha256Laws} `{Json config.cacheEntry}.
Import crypto config.

Lemma NewEncryptor_cache c :
  NewEncryptor (sha256_Sum256 (bytes_of_string (ConfigDir c) ++ Salt c))
  = Ok (cacheEncryptor c).
Proof.
  unfold NewEncryptor. case_decide as Hl; [|done].
  by rewrite sha256_Sum256_length in Hl.
Qed.



(** After a miss, a configuration with a salt asks for the password. *)
Lemma GetMasterKey_prompts c w e w1 password rest :
  MasterKey c = [] → length (Salt c) = SaltSize →
  loadCachedMasterKey c w = (Err e, w1) →
  stdin w = Some password :: rest → password ≠ "" →
  let masterKey :=
    argon2_IDKey (bytes_of_string password) (Salt c) 1 (64 * 1024) 4 (N.of_nat KeySize) in
  ∃ w2, GetMasterKey c w = (Ok (masterKey, set_MasterKey masterKey c), w2) ∧
        stdin w2 = rest ∧
        stdout w2 = "Enter master password: " :: stdout w.
Proof.
  intros Hk Hs Hload Hin Hpw masterKey.
  pose proof (loadCachedMasterKey_keeps_stdin c w) as Hin1.
  pose proof (loadCachedMasterKey_keeps_stdout c w) as Hout1.
  rewrite Hload in Hin1, Hout1. simpl in Hin1, Hout1. rewrite Hin in Hin1.
  unfold GetMasterKey. rewrite Hk. simpl.
  unfold mbind at 1, M_bind at 1, try at 1. rewrite Hload.
  case_decide as Hs0; [unfold SaltSize in Hs; lia|].
  unfold password.GetMasterPassword, password.getPassword, DeriveKey.
  munfold. simpl. rewrite Hin1.
  case_decide as Hl; [by apply String_length_0 in Hl|].
  case_decide; [done|]. simpl.
  eexists. split; [reflexivity|]. split.
  - rewrite saveCachedMasterKey_keeps_stdin. done.
  - rewrite saveCachedMasterKey_keeps_stdout. simpl. by rewrite Hout1.
Qed.

End cache_props.

(* ===================================================================== *)
(** ** The vault                                                          *)
(* ===================================================================== *)

Section store_lemmas.
Context `{GoLib} `{!GcmLaws}.
Import crypto storage.

Lemma Get_world {V} `{Json V} d bucket key w : (Get (V := V) d bucket key w).2 = w.
Proof.
  unfold Get, bbolt.View. munfold.
  repeat case_match; simplify_eq/=; done.
Qed.

(** [Get] succeeds exactly on a stored value that decrypts and decodes. *)
Lemma Get_Ok {V} `{Json V} d bucket key (v : V) w w' :
  Get d bucket key w = (Ok v, w') →
  ∃ b ct plaintext,
    boltdb w !! bucket = Some b ∧ b !! key = Some ct ∧
    Decrypt (enc d) ct = Ok plaintext ∧ json_Unmarshal plaintext = Ok v ∧
    aes_key_size_ok (length (crypto.key (enc d))) = true.
Proof.
  unfold Get, bbolt.View. munfold.
  destruct (boltdb w !! bucket) as [b|] eqn:Hb; [|done].
  destruct (b !! key) as [ct|] eqn:Hct; [|done].
  destruct (Decrypt (enc d) ct) as [pt|] eqn:Hd; [|done].
  destruct (json_Unmarshal pt) as [v'|] eqn:Hj; [|done].
  intros [= <- <-]. exists b, ct, pt. split_and!; try done.
  unfold Decrypt, aes_NewCipher in Hd. by destruct (aes_key_size_ok _).
Qed.

Lemma Get_after_Set_gen {V} `{Json V} d bucket key (v v' : V) w w1 :
  Set_ d bucket key v w = (Ok tt, w1) →
  (∀ data, json_Marshal v = Ok data → json_Unmarshal data = Ok v') →
  Get d bucket key w1 = (Ok v', w1).
Proof.
  intros (data & nonce & b1 & Hm & Hn & Hk & Hb & Hv)%Set_Ok Hjson.
  unfold Get, bbolt.View. munfold.
  rewrite Hb, Hv, Decrypt_Seal by done.
  by rewrite (Hjson _ Hm).
Qed.

Lemma Get_after_Set {V} `{Json V} `{!JsonLaws V} d bucket key (v : V) w w1 :
  Set_ d bucket key v w = (Ok tt, w1) → Get d bucket key w1 = (Ok v, w1).
Proof.
  intros Hset. eapply Get_after_Set_gen; [done|]. apply json_Unmarshal_Marshal.
Qed.

(** When [Set_] returns no error. *)
Lemma Set_succeeds {V} `{Json V} d bucket key (v : V) w data b :
  json_Marshal v = Ok data →
  aes_key_size_ok (length (crypto.key (enc d))) = true →
  (NonceSize ≤ length (rand_Reader w))%nat →
  boltdb w !! bucket = Some b →
  key ≠ "" → Z.of_nat (String.length key) ≤ bbolt.MaxKeySize →
  Z.of_nat (length data) + 28 ≤ bbolt.MaxValueSize →
  ∃ w1, Set_ d bucket key v w = (Ok tt, w1).
Proof.
  intros Hm Hk Hr Hb Hk0 Hk1 Hv.
  unfold Set_, Encrypt, rand_ReadFull, bbolt.Update, bbolt.Put, aes_NewCipher.
  munfold. rewrite Hm, Hk. cbn beta iota.
  case_decide; [|lia]. cbn beta iota. simpl boltdb. rewrite Hb.
  case_decide as Hz; [by apply String_length_0 in Hz|].
  case_decide; [lia|].
  case_decide as Hl.
  - rewrite length_app, gcm_Seal_length, length_take in Hl.
    unfold NonceSize in *. lia.
  - by eexists.
Qed.
End store_lemmas.

Section vault_props.
Import models_vault.
Context `{GoLib} `{!GcmLaws} `{Json VaultEntry} `{!JsonLaws VaultEntry}.
Import crypto storage.

(** C9. [vault.Get] of an existing entry returns the entry with
    [UpdatedAt] set to the time of the read and every other field as it
    was stored, and that same entry is what the store holds afterwards.
    The write happens when it can: the bumped entry marshals, the
    random source has a nonce left, and the key and value are of a size
    bbolt accepts (the error of the write is not looked at). *)
Theorem Get_touches_UpdatedAt (vm : vault.VaultManager) (key : string)
    (e : VaultEntry) (w : World) (data : bytes) :
  let now := clock w (ticks w) in
  let e' := set_UpdatedAt now e in
  storage.Get (vault.db vm) "vault" key w = (Ok e, w) →
  json_Marshal e' = Ok data →
  (NonceSize ≤ length (rand_Reader w))%nat →
  key ≠ "" → Z.of_nat (String.length key) ≤ bbolt.MaxKeySize →
  Z.of_nat (length data) + 28 ≤ bbolt.MaxValueSize →
  ∃ w', vault.Get vm key w = (Ok e', w') ∧
        storage.Get (vault.db vm) "vault" key w' = (Ok e', w') ∧
        UpdatedAt e' = now ∧
        Key e' = Key e ∧ Value e' = Value e ∧ Format e' = Format e ∧
        Description e' = Description e ∧ Tags e' = Tags e ∧
        Metadata e' = Metadata e ∧ CreatedAt e' = CreatedAt e.
Proof.
  intros now e' Hget Hm Hr Hk0 Hk1 Hv.
  destruct (Get_Ok _ _ _ _ _ _ Hget) as (b & ct & pt & Hb & Hct & Hd & Hj & Haes).
  destruct (Set_succeeds (vault.db vm) "vault" key e' (set_ticks S w) data b)
    as [w1 Hset]; try done.
  exists w1. split_and!; try done.
  - unfold vault.Get. munfold. rewrite Hget. unfold time_Now.
    cbn beta iota. fold now. fold e'. by rewrite Hset.
  - by eapply Get_after_Set.
Qed.
End vault_props.

(* ===================================================================== *)
(** ** Locked directories                                                 *)
(* ===================================================================== *)

Lemma String_length_app s1 s2 :
  String.length (s1 +:+ s2) = (String.length s1 + String.length s2)%nat.
Proof. induction s1 as [|a s1 IH]; simpl; [done|]. by rewrite <- IH. Qed.

Lemma String_app_assoc s1 s2 s3 : (s1 +:+ s2) +:+ s3 = s1 +:+ s2 +:+ s3.
Proof.
  induction s1 as [|a s1 IH]; [done|].
  change (String a (s1 +:+ s2) +:+ s3 = String a (s1 +:+ s2 +:+ s3)).
  change (String a ((s1 +:+ s2) +:+ s3) = String a (s1 +:+ s2 +:+ s3)).
  by rewrite IH.
Qed.

Lemma String_app_ne s suffix : suffix ≠ "" → s +:+ suffix ≠ s.
Proof.
  intros Hs Heq. apply (f_equal String.length) in Heq.
  rewrite String_length_app in Heq.
  destruct suffix; [done|]. simpl in Heq. lia.
Qed.

(** Writes to one path leave the entries at other paths alone. *)
Section fs_frame.
Context (p q : string) (Hpq : p ≠ q).

Lemma os_MkdirAll_keeps_other perm : keeps (λ w, fs w !! p) (os_MkdirAll q perm).
Proof.
  intros w. unfold os_MkdirAll. repeat case_match; try done.
  simpl. by rewrite lookup_insert_ne.
Qed.

Lemma os_RemoveAll_keeps_other : keeps (λ w, fs w !! p) (os_RemoveAll q).
Proof.
  intros w. unfold os_RemoveAll. repeat case_match; simpl;
    by rewrite ?lookup_delete_ne, ?lookup_insert_ne.
Qed.
End fs_frame.

#[export] Hint Resolve os_MkdirAll_keeps_other os_RemoveAll_keeps_other : keeps.

(** *** Paths below an entry *)

Lemma rel_below_app d rel : rel ≠ "" → rel_below d (d +:+ "/" +:+ rel) = Some rel.
Proof.
  intros Hrel. induction d as [|a d IH].
  - change ("" +:+ "/" +:+ rel) with (String slash rel). cbn [rel_below].
    by rewrite decide_True.
  - change (String a d +:+ "/" +:+ rel) with (String a (d +:+ "/" +:+ rel)).
    cbn [rel_below]. by rewrite decide_True.
Qed.

Lemma rel_below_Some d p rel :
  rel_below d p = Some rel → p = d +:+ "/" +:+ rel ∧ rel ≠ "".
Proof.
  revert p. induction d as [|a d IH]; intros [|b p]; cbn [rel_below]; try done.
  - case_decide as Hc; [|done]. destruct Hc as [-> Hne]. by intros [= ->].
  - case_decide as Hab; [|done]. subst b. intros [-> ?]%IH. done.
Qed.

Lemma below_false d p : below d p = false ↔ rel_below d p = None.
Proof.
  unfold below. rewrite bool_decide_eq_false. symmetry. apply eq_None_not_Some.
Qed.

Lemma some_key_false {A} (P : string → bool) (m : gmap string A) :
  some_key P m = false ↔ ∀ key, is_Some (m !! key) → P key = false.
Proof.
  unfold some_key. split.
  - intros Hnone key [a Ha]. apply elem_of_map_to_list in Ha.
    destruct (P key) eqn:HP; [|done].
    assert (Hex : existsb (λ entry : string * A, P entry.1) (map_to_list m) = true).
    { apply existsb_exists. exists (key, a). split; [by apply list_elem_of_In|done]. }
    congruence.
  - intros Hall. destruct (existsb _ _) eqn:Hex; [|done].
    apply existsb_exists in Hex as ([key a] & Hin%list_elem_of_In & HP).
    apply elem_of_map_to_list in Hin. simpl in HP.
    rewrite Hall in HP; [done|eauto].
Qed.

Lemma holder_None m p :
  (∀ d, is_Some (m !! d) → rel_below d p = None) → holder m p = None.
Proof.
  intros Hnone. unfold holder.
  destruct (omap _ (map_to_list m)) as [|x l] eqn:Hl; [done|].
  assert (Hx : x ∈ omap (λ entry : string * node,
                 rel ← rel_below entry.1 p; Some (entry.1, entry.2, rel))
                 (map_to_list m)) by (rewrite Hl; left).
  apply list_elem_of_omap in Hx as ([d n] & Hin%elem_of_map_to_list & Hrel).
  simpl in Hrel. rewrite Hnone in Hrel; [done|eauto].
Qed.

Lemma holder_Some m p d n rel :
  m !! d = Some n → rel_below d p = Some rel →
  (∀ d', is_Some (m !! d') → d' ≠ d → rel_below d' p = None) →
  holder m p = Some (d, n, rel).
Proof.
  intros Hd Hrel Hother. unfold holder.
  destruct (omap _ (map_to_list m)) as [|x l] eqn:Hl.
  - assert (Hin : (d, n, rel) ∈ omap (λ entry : string * node,
                 rel ← rel_below entry.1 p; Some (entry.1, entry.2, rel))
                 (map_to_list m)).
    { apply list_elem_of_omap. exists (d, n). split; [by apply elem_of_map_to_list|].
      simpl. by rewrite Hrel. }
    rewrite Hl in Hin. by apply elem_of_nil in Hin.
  - assert (Hx : x ∈ omap (λ entry : string * node,
                 rel ← rel_below entry.1 p; Some (entry.1, entry.2, rel))
                 (map_to_list m)) by (rewrite Hl; left).
    apply list_elem_of_omap in Hx as ([d' n'] & Hin%elem_of_map_to_list & Hrel').
    simpl in Hrel'. simpl.
    destruct (decide (d' = d)) as [->|Hne].
    + rewrite Hrel in Hrel'. simpl in Hrel'. by simplify_eq.
    + rewrite Hother in Hrel'; [done|eauto|done].
Qed.

(** The outcomes of [os.RemoveAll]: the entry is gone; or it is a file
    that cannot be removed; or it is a directory left standing with
    the files that stay, which are none only when the directory itself
    cannot be removed. *)
Lemma os_RemoveAll_Ok path w w' :
  os_RemoveAll path w = (Ok tt, w') →
  w' = set_hidden (.∖ {[path]}) (set_fs (delete path) w).
Proof. unfold os_RemoveAll. repeat case_match; by intros [= <-]. Qed.


Lemma os_RemoveAll_file path w mode data :
  fs w !! path = Some (File mode data) → path ∉ undeletable w →
  os_RemoveAll path w = (Ok tt, set_hidden (.∖ {[path]}) (set_fs (delete path) w)).
Proof. intros Hfile Hnot. unfold os_RemoveAll. rewrite Hfile. by rewrite decide_False. Qed.

(** *** The round trip, for a process that may read the archive *)

Lemma insert_all_list_to_map files into :
  insert_all files into = list_to_map (reverse files) ∪ into.
Proof.
  revert into. induction files as [|[name data] files IH]; intros into.
  - unfold insert_all. simpl. by rewrite (left_id_L ∅ (∪)).
  - unfold insert_all in *. simpl. rewrite IH, reverse_cons, list_to_map_app.
    simpl. rewrite <- (assoc_L (∪)). f_equal.
    by rewrite insert_union_singleton_l, insert_empty.
Qed.

Lemma insert_all_map_to_list (files : gmap string bytes) :
  insert_all (map_to_list files) ∅ = files.
Proof.
  rewrite insert_all_list_to_map, (right_id_L ∅ (∪)).
  rewrite <- (list_to_map_to_list files) at 2.
  apply list_to_map_proper.
  - rewrite fmap_reverse, reverse_Permutation. apply NoDup_fst_map_to_list.
  - apply reverse_Permutation.
Qed.

Lemma set_fs_insert_id w path n :
  fs w !! path = Some n → set_fs <[path := n]> w = w.
Proof. intros Hn. destruct w. unfold set_fs. simpl in *. by rewrite insert_id. Qed.

Section dirlock_props.
Import models_lock.
Context `{GoLib} `{Json LockedDirectoryJSON}.
Import crypto storage dirlock.

Lemma Get_keeps {A V} `{Json V} (f : World → A) d bucket key :
  keeps f (Get (V := V) d bucket key).
Proof. intros w. by rewrite Get_world. Qed.

Lemma os_MkdirAll_WriteFile_keeps {A} (f : World → A) p data :
  (∀ g w, f (set_fs g w) = f w) → keeps f (os_MkdirAll_WriteFile p data).
Proof.
  intros Hf w. unfold os_MkdirAll_WriteFile, os_WriteFile, os_MkdirAll. munfold.
  repeat case_match; simplify_eq/=; by rewrite ?Hf.
Qed.

Lemma extractFiles_keeps {A} (f : World → A) dirPath archive tempDir key names i :
  (∀ g w, f (set_fs g w) = f w) →
  keeps f (extractFiles dirPath archive tempDir key names i).
Proof.
  intros Hf. revert i. induction names as [|name names IH]; intros i; simpl; keeps_go.
  by apply os_MkdirAll_WriteFile_keeps.
Qed.

Lemma openArchive_world dirPath w : (openArchive dirPath w).2 = w.
Proof. unfold openArchive. by repeat case_match. Qed.

Lemma openArchive_keeps {A} (f : World → A) dirPath : keeps f (openArchive dirPath).
Proof. intros w. by rewrite openArchive_world. Qed.

Lemma DecryptDirectory_keeps_boltdb dirPath key :
  keeps boltdb (DecryptDirectory dirPath key).
Proof.
  unfold DecryptDirectory, isEncryptedDirectory. keeps_go.
  - apply openArchive_keeps.
  - apply openArchive_keeps.
  - by apply extractFiles_keeps.
Qed.

Lemma Get_ext {V} `{Json V} d bucket key w w' :
  boltdb w' = boltdb w →
  (Get (V := V) d bucket key w').1 = (Get d bucket key w).1.
Proof.
  intros Hdb. unfold Get, bbolt.View. munfold. rewrite Hdb.
  by repeat case_match.
Qed.

(** [Get] reads the store and nothing else. *)
Lemma Get_same {V} `{Json V} d bucket key w w' (v : V) :
  boltdb w' = boltdb w →
  Get d bucket key w = (Ok v, w) → Get d bucket key w' = (Ok v, w').
Proof.
  intros Hdb Hget.
  pose proof (Get_ext (V := V) d bucket key w w' Hdb) as Hg.
  pose proof (Get_world (V := V) d bucket key w') as Hw.
  destruct (Get d bucket key w') as [r2 w2]. simpl in *.
  rewrite Hget in Hg. simpl in Hg. by subst.
Qed.

Lemma bind_Err {A B} (m : M A) (k : A → M B) w e w' :
  m w = (Err e, w') → (m ≫= k) w = (Err e, w').
Proof. intros Hm. munfold. by rewrite Hm. Qed.

(** C5 (what the code does instead).  The name of an archive entry is
    joined to the temporary directory as it is, so an entry can be
    written outside it.  When the first entry is named so that it
    lands on the path of the archive, its plaintext is written over
    the archive.  If a later entry then cannot be read back or does
    not decrypt, [Unlock] returns an error, and the archive is no
    longer what it was: the path holds the plaintext of the first
    entry, with the record still in the store.  If there is no other
    entry and the file at the path can be removed, [Unlock] returns no
    error and deletes the record, and what it leaves at the path is an
    empty directory: the decrypted file is nowhere. *)
Theorem Unlock_entry_overwrites_archive (s : Service)
    (path abs master provided name : string) (names : list string) (w : World)
    (rec : LockedDirectory) (mode : N) (archive first plaintext : bytes) :
  filepath_Abs path = Ok abs →
  Get (DB s) "locked_dirs" abs w = (Ok rec, w) → UseMaster rec = true →
  fs w !! abs = Some (File mode archive) →
  can_read w mode = true → can_write w mode = true →
  fs w !! (abs +:+ ".ark_temp") = None →
  zip_NewReader archive = Some (name :: names) →
  filepath_Join [abs +:+ ".ark_temp"; name] = abs →
  zip_ReadAll archive 0 archive = Ok first →
  decryptContent first (replicate 32 "000"%byte) = Ok plaintext →
  (names ≠ [] →
   (∀ encrypted, zip_ReadAll archive 1 plaintext = Ok encrypted →
                 ∃ e, decryptContent encrypted (replicate 32 "000"%byte) = Err e) →
   ∃ e w', Unlock s path master provided w = (Err e, w') ∧
           fs w' !! abs = Some (File mode plaintext) ∧
           Get (DB s) "locked_dirs" abs w' = (Ok rec, w')) ∧
  (names = [] → abs ∉ undeletable w →
   ∃ w', Unlock s path master provided w = (Ok tt, w') ∧
         fs w' !! abs = Some (Dir mode_0700 ∅) ∧
         Get (V := LockedDirectory) (DB s) "locked_dirs" abs w'
           = (Err (ErrKeyNotFound abs "locked_dirs"), w')).
Proof.
  intros Habs Hget Hmaster Hfile Hread Hwrite Htemp Hzip Hjoin Hfirst Hplain.
  assert (Hne : abs +:+ ".ark_temp" ≠ abs) by by apply String_app_ne.
  set (key := replicate 32 "000"%byte) in *.
  set (tempDir := abs +:+ ".ark_temp") in *.
  set (w1 := set_fs <[tempDir := Dir mode_0700 ∅]> w).
  set (w2 := set_fs <[abs := File mode plaintext]> w1).
  assert (Hfile1 : fs w1 !! abs = Some (File mode archive)).
  { simpl. by rewrite lookup_insert_ne. }
  assert (Hisenc : isEncryptedDirectory abs w = (Ok true, w)).
  { unfold isEncryptedDirectory, openArchive. munfold. by rewrite Hfile, Hread, Hzip. }
  assert (Hmkdir : os_MkdirAll tempDir mode_0700 w = (Ok tt, w1)).
  { unfold os_MkdirAll. by rewrite Htemp. }
  assert (Hopen : openArchive abs w1 = (Ok (archive, name :: names), w1)).
  { unfold openArchive. rewrite Hfile1.
    change (can_read w1 mode) with (can_read w mode). by rewrite Hread, Hzip. }
  assert (Hover : os_MkdirAll_WriteFile abs plaintext w1 = (Ok tt, w2)).
  { unfold os_MkdirAll_WriteFile, os_WriteFile. rewrite Hfile1.
    change (can_write w1 mode) with (can_write w mode). by rewrite Hwrite. }
  assert (Hstep : ∀ rest,
            extractFiles abs archive tempDir key (name :: rest) 0 w1
            = extractFiles abs archive tempDir key rest 1 w2).
  { intros rest. cbn [extractFiles].
    rewrite (bind_Ok _ _ w1 archive w1) by (unfold fd_ReadAll; by rewrite Hfile1).
    rewrite (bind_Ok _ _ w1 first w1) by (unfold lift; by rewrite Hfirst).
    rewrite (bind_Ok _ _ w1 plaintext w1) by (unfold lift; by rewrite Hplain).
    cbv zeta. rewrite Hjoin. by rewrite (bind_Ok _ _ w1 tt w2). }
  assert (Hfile2 : fs w2 !! abs = Some (File mode plaintext)).
  { simpl. by rewrite lookup_insert_eq. }
  assert (Htemp2 : fs w2 !! tempDir = Some (Dir mode_0700 ∅)).
  { simpl. by rewrite lookup_insert_ne, lookup_insert_eq. }
  assert (Hkey : ∀ w0 : World,
            (if UseMaster rec then lift (getMasterKey s)
             else salt ← mret (replicate 16 "000"%byte);
                  lift (deriveKeyFromPassword provided salt)) w0 = (Ok key, w0)).
  { intros w0. by rewrite Hmaster. }
  split.
  - intros Hmore Hbad.
    destruct names as [|name2 names2]; [done|]. clear Hmore.
    assert (∃ e, extractFiles abs archive tempDir key (name2 :: names2) 1 w2
                 = (Err e, w2)) as [e Hextract].
    { cbn [extractFiles].
      rewrite (bind_Ok _ _ w2 plaintext w2) by (unfold fd_ReadAll; by rewrite Hfile2).
      destruct (zip_ReadAll archive 1 plaintext) as [encrypted|e1] eqn:Hread2.
      - destruct (Hbad encrypted eq_refl) as [e He].
        exists e. rewrite (bind_Ok _ _ w2 encrypted w2) by done.
        apply bind_Err. unfold lift. by rewrite He.
      - exists e1. by apply bind_Err. }
    set (w3 := (os_RemoveAll tempDir w2).2).
    assert (Hdec : DecryptDirectory abs key w = (Err e, w3)).
    { unfold DecryptDirectory. fold tempDir.
      rewrite (bind_Ok _ _ _ _ _ Hisenc). cbn [negb].
      rewrite (bind_Ok _ _ _ _ _ Hmkdir). unfold defer.
      rewrite (bind_Ok _ _ _ _ _ Hopen). cbv beta iota.
      rewrite (bind_Err _ _ w1 e w2) by (by rewrite Hstep). done. }
    assert (Hdb3 : boltdb w3 = boltdb w).
    { pose proof (DecryptDirectory_keeps_boltdb abs key w) as Hdb.
      by rewrite Hdec in Hdb. }
    exists (Wrap "failed to decrypt directory" e), w3. split_and!.
    + unfold Unlock. rewrite Habs.
      rewrite (bind_Ok _ _ w abs w) by done.
      rewrite (bind_Ok _ _ w (Ok rec) w) by (unfold try; by rewrite Hget).
      cbn iota. rewrite Hmaster, andb_false_r. cbn iota.
      rewrite (bind_Ok _ _ w key w) by done.
      apply bind_Err. unfold wrapM. by rewrite Hdec.
    + unfold w3. rewrite (os_RemoveAll_keeps_other abs tempDir) by done. done.
    + by apply (Get_same _ _ _ w).
  - intros -> Hremovable.
    assert (Hextract : extractFiles abs archive tempDir key [name] 0 w1 = (Ok tt, w2)).
    { by rewrite Hstep. }
    set (w3 := set_hidden (.∖ {[abs]}) (set_fs (delete abs) w2)).
    assert (Hrm : os_RemoveAll abs w2 = (Ok tt, w3)).
    { by apply (os_RemoveAll_file abs w2 mode plaintext). }
    destruct (os_Rename tempDir abs w3) as [r4 w4] eqn:Hrename.
    assert (Hw4 : r4 = Ok tt ∧ fs w4 !! abs = Some (Dir mode_0700 ∅) ∧
                  fs w4 !! tempDir = None).
    { revert Hrename. unfold os_Rename. simpl.
      rewrite lookup_delete_ne, lookup_insert_ne, lookup_insert_eq by done.
      case_decide; [done|]. rewrite lookup_delete_eq.
      intros [= <- <-]. simpl. split; [done|]. split.
      - by rewrite lookup_insert_eq.
      - by rewrite lookup_insert_ne, lookup_delete_eq. }
    destruct Hw4 as (-> & Hdir4 & Htemp4).
    set (w5 := (os_RemoveAll tempDir w4).2).
    assert (Hdec : DecryptDirectory abs key w = (Ok tt, w5)).
    { unfold DecryptDirectory. fold tempDir.
      rewrite (bind_Ok _ _ _ _ _ Hisenc). cbn [negb].
      rewrite (bind_Ok _ _ _ _ _ Hmkdir). unfold defer.
      rewrite (bind_Ok _ _ _ _ _ Hopen). cbv beta iota.
      rewrite (bind_Ok _ _ _ _ _ Hextract).
      rewrite (bind_Ok _ _ _ _ _ Hrm), Hrename. done. }
    assert (Hdir5 : fs w5 !! abs = Some (Dir mode_0700 ∅)).
    { unfold w5. rewrite (os_RemoveAll_keeps_other abs tempDir) by done. done. }
    assert (Hdb5 : boltdb w5 = boltdb w).
    { pose proof (DecryptDirectory_keeps_boltdb abs key w) as Hdb.
      by rewrite Hdec in Hdb. }
    destruct (Get_Ok _ _ _ _ _ _ Hget) as (b & _ & _ & Hb & _).
    rewrite <- Hdb5 in Hb.
    unfold Unlock. rewrite Habs.
    rewrite (bind_Ok _ _ w abs w) by done.
    rewrite (bind_Ok _ _ w (Ok rec) w) by (unfold try; by rewrite Hget).
    cbn iota. rewrite Hmaster, andb_false_r. cbn iota.
    rewrite (bind_Ok _ _ w key w) by done.
    rewrite (bind_Ok _ _ w tt w5) by (unfold wrapM; by rewrite Hdec).
    unfold chflags, os_Chmod, time_Now, Delete, bbolt.Update. munfold.
    rewrite Hdir5. simpl. rewrite Hdir5. simpl. rewrite Hb. simpl.
    eexists. split; [done|]. split.
    + simpl. by rewrite lookup_insert_eq.
    + unfold Get, bbolt.View. munfold. simpl.
      by rewrite lookup_insert_eq, lookup_delete_eq.
Qed.

(** What comes back from the store never carries a password. *)
Lemma Get_Password_empty d bucket key w (rec : LockedDirectory) w' :
  Get d bucket key w = (Ok rec, w') → Password rec = "".
Proof.
  intros (b & ct & pt & _ & _ & _ & Hj & _)%Get_Ok.
  simpl in Hj. unfold mbind, result_bind in Hj.
  destruct (json_Unmarshal pt) as [j|]; [|done]. by injection Hj as <-.
Qed.

(** The password check and key derivation of [Unlock] for a record of a
    directory locked under its own password. *)
Lemma Unlock_custom_password s path abs master provided w rec :
  filepath_Abs path = Ok abs →
  Get (DB s) "locked_dirs" abs w = (Ok rec, w) → UseMaster rec = false →
  Unlock s path master provided w =
    (Err (if decide (provided = "") then ErrInvalidSaltSize 16
          else ErrInvalidPassword abs), w).
Proof.
  intros Habs Hget Hmaster.
  pose proof (Get_Password_empty _ _ _ _ _ _ Hget) as Hpw.
  unfold Unlock, GetPassword. munfold. rewrite Habs, Hget. cbn beta iota.
  rewrite Hmaster, Hpw, andb_true_r.
  case_decide as Hp.
  - subst provided. rewrite bool_decide_eq_false_2 by (intros Hne; by apply Hne).
    unfold deriveKeyFromPassword, DeriveKey.
    rewrite length_replicate. by case_decide.
  - rewrite bool_decide_eq_true_2 by congruence. done.
Qed.

(** C10. What is persisted for a [LockedDirectory] does not depend on
    its password: two records that differ only in the password marshal
    to the same bytes, and [Set_] does the same to the world for both.
    Every record read back from the store has the empty password; so
    for a record of a directory locked under its own password the
    comparison in [Unlock] is against the empty string, and any other
    password is turned away as invalid. *)
Theorem Password_not_persisted (d : Database) (s : Service) (bucket key : string)
    (rec : LockedDirectory) :
  (∀ pw1 pw2,
     json_Marshal (SetPassword pw1 rec) = json_Marshal (SetPassword pw2 rec) ∧
     ∀ w, Set_ d bucket key (SetPassword pw1 rec) w
          = Set_ d bucket key (SetPassword pw2 rec) w) ∧
  (∀ w rec' w', Get d bucket key w = (Ok rec', w') → Password rec' = "") ∧
  (∀ path abs master provided w rec',
     filepath_Abs path = Ok abs →
     Get (DB s) "locked_dirs" abs w = (Ok rec', w) → UseMaster rec' = false →
     GetPassword rec' master = "" ∧
     (provided ≠ "" →
      Unlock s path master provided w = (Err (ErrInvalidPassword abs), w))).
Proof.
  split_and!.
  - intros pw1 pw2.
    assert (Hm : json_Marshal (SetPassword pw1 rec)
                 = json_Marshal (SetPassword pw2 rec)) by done.
    split; [done|]. intros w. unfold Set_. by rewrite Hm.
  - intros w rec' w'. apply Get_Password_empty.
  - intros path abs master provided w rec' Habs Hget Hmaster. split.
    + unfold GetPassword. rewrite Hmaster. by eapply Get_Password_empty.
    + intros Hp. rewrite (Unlock_custom_password s path abs master provided w rec')
        by done. by case_decide.
Qed.

(** C3 (what the code does instead).  [Lock] under a custom password
    draws a 16-byte salt, which [DeriveKey] refuses: [Lock] fails
    before anything is encrypted, and neither a salt nor a record is
    stored.  [Unlock] of a record of a custom-password lock does not
    read a salt from the record either: it stops at the password
    comparison, or, for the empty password, derives from 16 zero bytes,
    which [DeriveKey] refuses again.  No key is derived on either
    side. *)
Theorem custom_password_salt_not_persisted (s : Service)
    (path abs password : string) (hide : bool) (w : World) (mode : N)
    (files : gmap string bytes) :
  filepath_Abs path = Ok abs →
  fs w !! abs = Some (Dir mode files) →
  (16 ≤ length (rand_Reader w))%nat →
  Lock s path false password hide w
    = (Err (ErrInvalidSaltSize 16), set_rand_Reader (drop 16) w) ∧
  ∀ master provided w0 rec,
    Get (DB s) "locked_dirs" abs w0 = (Ok rec, w0) → UseMaster rec = false →
    Unlock s path master provided w0 =
      (Err (if decide (provided = "") then ErrInvalidSaltSize 16
            else ErrInvalidPassword abs), w0).
Proof.
  intros Habs Hdir Hrnd. split.
  - unfold Lock, os_Stat, rand_ReadFull, deriveKeyFromPassword, DeriveKey.
    munfold. rewrite Habs. cbn beta iota. rewrite Hdir. simpl.
    case_decide; [|lia]. simpl. rewrite length_take.
    case_decide as Hl; [|unfold SaltSize in Hl; lia].
    replace (16 `min` length (rand_Reader w))%nat with 16%nat by lia. done.
  - intros master provided w0 rec Hget Hmaster.
    by apply (Unlock_custom_password s path abs master provided w0 rec).
Qed.

Lemma encryptContent_keeps {A} (f : World → A) content key :
  (∀ g w, f (set_rand_Reader g w) = f w) → keeps f (encryptContent content key).
Proof.
  intros Hf. unfold encryptContent. keeps_go.
  intros w. unfold rand_ReadFull. case_decide; apply Hf.
Qed.

Lemma walkFiles_keeps {A} (f : World → A) key files written :
  (∀ g w, f (set_rand_Reader g w) = f w) → keeps f (walkFiles key files written).
Proof.
  intros Hf. revert written.
  induction files as [|[relPath content] files IH]; intros written; simpl;
    keeps_go; by apply encryptContent_keeps.
Qed.

Lemma walk_keeps {A} (f : World → A) dirPath key :
  (∀ g w, f (set_rand_Reader g w) = f w) → keeps f (walk dirPath key).
Proof.
  intros Hf. unfold walk. keeps_go; by apply walkFiles_keeps.
Qed.

Lemma Set_keeps {A V} `{Json V} (f : World → A) d bucket key (v : V) :
  (∀ g w, f (set_rand_Reader g w) = f w) →
  (∀ g w, f (set_boltdb g w) = f w) →
  keeps f (Set_ d bucket key v).
Proof.
  intros Hr Hb. unfold Set_. keeps_go; [by apply Encrypt_keeps|].
  intros w. unfold bbolt.Update. case_match; [apply Hb|done].
Qed.

(** After [EncryptDirectory] has returned no error there is a file at
    the path. *)
Lemma EncryptDirectory_Ok dirPath key w w' :
  EncryptDirectory dirPath key w = (Ok tt, w') →
  ∃ mode data, fs w' !! dirPath = Some (File mode data).
Proof.
  assert (Hne : dirPath +:+ ".ark_encrypted" ≠ dirPath) by by apply String_app_ne.
  set (archivePath := dirPath +:+ ".ark_encrypted") in *.
  unfold EncryptDirectory. fold archivePath. munfold.
  destruct (os_Create archivePath w) as [[[]|] w0] eqn:Hcreate; [|done].
  assert (∃ mode, fs w0 !! archivePath = Some (File mode [])) as [mode Harch].
  { unfold os_Create, os_WriteFile in Hcreate.
    repeat case_match; simplify_eq/=; rewrite lookup_insert_eq; eauto. }
  pose proof (walk_keeps fs dirPath key (λ _ _, eq_refl) w0) as Hwalk.
  destruct (walk dirPath key w0) as [[[walked written]|] w1]; simpl in Hwalk;
    [|done].
  destruct walked as [[]|]; [|by destruct (fd_flush _ _ _) as [[|] ?]].
  destruct (os_RemoveAll dirPath w1) as [[[]|] w2] eqn:Hrm;
    [|by destruct (fd_flush _ _ _) as [[|] ?]].
  apply os_RemoveAll_Ok in Hrm as ->.
  unfold os_Rename. simpl.
  rewrite lookup_delete_ne, Hwalk, Harch, lookup_delete_eq by done.
  case_decide; [done|]. unfold fd_flush. simpl.
  rewrite lookup_insert_eq. intros [= <-]. simpl.
  rewrite lookup_insert_eq. eauto.
Qed.

Lemma EncryptDirectory_keeps_euid_root dirPath key :
  keeps euid_root (EncryptDirectory dirPath key).
Proof.
  unfold EncryptDirectory. keeps_go. by apply walk_keeps.
Qed.

Lemma Lock_keeps_euid_root s path useMaster password hide :
  keeps euid_root (Lock s path useMaster password hide).
Proof.
  unfold Lock.
  keeps_go; first [apply EncryptDirectory_keeps_euid_root | by apply Set_keeps].
Qed.

Lemma EncryptDirectory_keeps_undeletable dirPath key :
  keeps undeletable (EncryptDirectory dirPath key).
Proof.
  unfold EncryptDirectory. keeps_go. by apply walk_keeps.
Qed.

Lemma Lock_keeps_undeletable s path useMaster password hide :
  keeps undeletable (Lock s path useMaster password hide).
Proof.
  unfold Lock.
  keeps_go; first [apply EncryptDirectory_keeps_undeletable | by apply Set_keeps].
Qed.

Lemma LockedDirectory_Unmarshal_Marshal `{!JsonLaws LockedDirectoryJSON}
    (rec : LockedDirectory) data :
  json_Marshal rec = Ok data → json_Unmarshal data = Ok (of_JSON (to_JSON rec)).
Proof.
  simpl. intros Hm. by rewrite (json_Unmarshal_Marshal _ _ Hm).
Qed.

(** What a successful [Lock] under the master key leaves behind: a
    file without any permission at the path, and the record in the
    store. *)
Lemma Lock_master_Ok `{!GcmLaws} `{!JsonLaws LockedDirectoryJSON}
    s path abs password hide w w1 :
  filepath_Abs path = Ok abs →
  Lock s path true password hide w = (Ok tt, w1) →
  (∃ data, fs w1 !! abs = Some (File mode_0000 data)) ∧
  ∃ now, Get (DB s) "locked_dirs" abs w1
         = (Ok (SetMetadata "mode" "encrypted" (NewLockedDirectory now abs true hide)),
            w1).
Proof.
  intros Habs. unfold Lock. rewrite Habs.
  intros (? & w0 & [[= <-] ->]%lift_Ok_inv & Hlock)%bind_Ok_inv.
  apply bind_Ok_inv in Hlock as (info & w0 & Hstat & Hlock).
  destruct (negb (is_dir info)); [done|].
  apply bind_Ok_inv in Hlock as (key & w2 & Hkey & Hlock).
  apply bind_Ok_inv in Hlock as ([] & w3 & Henc%wrapM_Ok_inv & Hlock).
  apply EncryptDirectory_Ok in Henc as (mode & data & Hfile).
  apply bind_Ok_inv in Hlock as ([] & w4 & Hchmod & Hlock).
  assert (Hfile4 : fs w4 !! abs = Some (File mode_0000 data)).
  { injection Hchmod as <-. unfold os_Chmod. rewrite Hfile. simpl.
    by rewrite lookup_insert_eq. }
  apply bind_Ok_inv in Hlock as ([] & w5 & Hhide & Hlock).
  assert (Hfile5 : fs w5 !! abs = Some (File mode_0000 data)).
  { destruct hide.
    - injection Hhide as <-. unfold chflags. by rewrite Hfile4.
    - by injection Hhide as <-. }
  apply bind_Ok_inv in Hlock as (now & w6 & [= <- <-] & Hset).
  simpl in Hset. split.
  - exists data.
    pose proof (Set_keeps fs (DB s) "locked_dirs" abs
      (SetMetadata "mode" "encrypted" (NewLockedDirectory (clock w5 (ticks w5)) abs true hide))
      (λ _ _, eq_refl) (λ _ _, eq_refl) (set_ticks S w5)) as Hfs.
    rewrite Hset in Hfs. simpl in Hfs. by rewrite Hfs.
  - exists (clock w5 (ticks w5)).
    eapply Get_after_Set_gen; [exact Hset|].
    intros d Hd. by rewrite (LockedDirectory_Unmarshal_Marshal _ _ Hd).
Qed.

(** C4 (what the code does instead).  A process without root
    privileges locks a directory under the master key: [Lock] returns
    no error and leaves the archive at the path with mode [0000].
    [Unlock] then cannot open the archive, takes the path for
    something that is not an encrypted directory, and fails; the
    directory is not restored. *)
Theorem Unlock_after_Lock_unprivileged `{!GcmLaws} `{!JsonLaws LockedDirectoryJSON}
    (s : Service) (path abs password master provided : string) (hide : bool)
    (w w1 : World) :
  filepath_Abs path = Ok abs →
  euid_root w = false →
  Lock s path true password hide w = (Ok tt, w1) →
  (∃ data, fs w1 !! abs = Some (File mode_0000 data)) ∧
  Unlock s path master provided w1
    = (Err (Wrap "failed to decrypt directory" ErrNotEncrypted), w1).
Proof.
  intros Habs Hroot Hlock.
  pose proof (Lock_keeps_euid_root s path true password hide w) as Hroot1.
  rewrite Hlock in Hroot1. simpl in Hroot1. rewrite Hroot in Hroot1.
  destruct (Lock_master_Ok _ _ _ _ _ _ _ Habs Hlock) as [[data Hfile] [now Hget]].
  split; [eauto|].
  unfold Unlock. munfold. rewrite Habs, Hget. cbn beta iota.
  change (UseMaster (SetMetadata "mode" "encrypted"
            (NewLockedDirectory now abs true hide))) with true.
  rewrite andb_false_r. unfold getMasterKey. cbn beta iota.
  unfold DecryptDirectory, isEncryptedDirectory, openArchive, can_read. munfold.
  rewrite Hfile, Hroot1. done.
Qed.

End dirlock_props.

Section roundtrip.
Import models_lock.
Context `{GoLib} `{!GcmLaws} `{!ZipLaws}.
Context `{Json LockedDirectoryJSON} `{!JsonLaws LockedDirectoryJSON}.
Import crypto storage dirlock.

Lemma encryptContent_Ok content key w encrypted w' :
  encryptContent content key w = (Ok encrypted, w') →
  decryptContent encrypted key = Ok content.
Proof.
  unfold encryptContent, decryptContent, aes_NewCipher. munfold.
  destruct (aes_key_size_ok (length key)) eqn:Hk; [|done].
  destruct (rand_ReadFull gcm_NonceSize w) as [[nonce|] w0] eqn:Hr; [|done].
  apply rand_ReadFull_Ok in Hr as (Hn & _ & _). intros [= <- <-].
  case_decide as Hl; [rewrite length_app in Hl; lia|].
  rewrite take_app_length', drop_app_length' by done.
  by rewrite gcm_Open_Seal.
Qed.

Lemma walkFiles_Ok key files acc w written w' :
  walkFiles key files acc w = (Ok (Ok tt, written), w') →
  ∃ new, written = acc ++ new ∧ Forall2 (holds key) files new.
Proof.
  revert acc w. induction files as [|[relPath content] files IH]; intros acc w.
  - intros [= <- <-]. exists []. by rewrite app_nil_r.
  - simpl. munfold.
    destruct (encryptContent content key w) as [[encrypted|] w0] eqn:Henc; [|done].
    intros (new & -> & Hnew)%IH. apply encryptContent_Ok in Henc.
    exists ((relPath, encrypted) :: new). split; [by rewrite <- app_assoc|].
    by constructor.
Qed.

Lemma below_app_ne t name : t +:+ "/" +:+ name ≠ t.
Proof.
  apply String_app_ne. change ("/" +:+ name) with (String slash name). done.
Qed.

(** The loop of [DecryptDirectory] on an archive that holds [files]
    under names that land in the temporary directory: each file is
    put there under its name. *)
Lemma extractFiles_holds dirPath m all pre t key files entries w mode into :
  Forall2 (holds key) files entries →
  all = pre ++ entries →
  fs w !! dirPath = Some (File m (zip_Writer all)) →
  fs w !! t = Some (Dir mode into) → can_write w mode = true → t ≠ dirPath →
  (∀ file, file ∈ files → lands_in w t file.1) →
  (∀ a b, a ∈ files.*1 ∨ is_Some (into !! a) → b ∈ files.*1 → apart a b) →
  extractFiles dirPath (zip_Writer all) t key entries.*1 (length pre) w
    = (Ok tt, set_fs <[t := Dir mode (insert_all files into)]> w).
Proof.
  intros Hholds. revert w into pre.
  induction Hholds as [|[name content] [name' encrypted] files entries [Hn Hd] _ IH];
    intros w into pre Hall Harch Ht Hw Hne Hland Hapart.
  - simpl. by rewrite set_fs_insert_id.
  - simpl in Hn, Hd. subst name'. cbn [fmap list_fmap extractFiles fst].
    destruct (Hland (name, content)) as (Hname & Hjoin & Hfree & Hnone); [by left|].
    simpl in Hname, Hjoin, Hfree, Hnone.
    rewrite (bind_Ok _ _ w (zip_Writer all) w) by (unfold fd_ReadAll; by rewrite Harch).
    rewrite (bind_Ok _ _ w encrypted w).
    2:{ unfold lift. rewrite (zip_ReadAll_Writer all (length pre) name encrypted); [done|].
        rewrite Hall. by apply list_lookup_middle. }
    rewrite (bind_Ok _ _ w content w) by (unfold lift; by rewrite Hd).
    cbv zeta. rewrite Hjoin.
    set (w1 := set_fs <[t := Dir mode (<[name := content]> into)]> w).
    assert (Hwrite : os_MkdirAll_WriteFile (t +:+ "/" +:+ name) content w = (Ok tt, w1)).
    { unfold os_MkdirAll_WriteFile. rewrite Hfree.
      rewrite (holder_Some _ _ t (Dir mode into) name); [|done|by apply rel_below_app|done].
      rewrite (proj2 (some_key_false (λ key, below key name) into)).
      2:{ intros k Hk. apply below_false.
          apply (Hapart k name); [by right|]. simpl. left. }
      rewrite (proj2 (some_key_false (below name) into)).
      2:{ intros k Hk. apply below_false.
          apply (Hapart k name); [by right|]. simpl. left. }
      by rewrite Hw. }
    rewrite (bind_Ok _ _ w tt w1) by done.
    replace (S (length pre)) with (length (pre ++ [(name, encrypted)]))
      by (rewrite length_app; simpl; lia).
    rewrite (IH w1 (<[name := content]> into)).
    + f_equal. destruct w. unfold w1, set_fs. simpl. by rewrite insert_insert_eq.
    + by rewrite Hall, <- app_assoc.
    + simpl. by rewrite lookup_insert_ne.
    + simpl. by rewrite lookup_insert_eq.
    + done.
    + done.
    + intros file Hin. destruct (Hland file) as (? & ? & Hf & Hn); [by right|].
      split_and!; try done.
      * simpl. rewrite lookup_insert_ne; [done|]. intros Heq. by eapply below_app_ne.
      * intros d Hd' Hdt. apply Hn; [|done]. simpl in Hd'.
        by rewrite lookup_insert_ne in Hd'.
    + intros a b Ha Hb. apply Hapart; [|simpl; by right].
      destruct Ha as [Ha|Ha]; [left; simpl; by right|].
      destruct (decide (a = name)) as [->|Hane]; [left; simpl; left|].
      right. by rewrite lookup_insert_ne in Ha.
Qed.

Lemma walk_Ok_dir dirPath key w mode files written w' :
  fs w !! dirPath = Some (Dir mode files) →
  walk dirPath key w = (Ok (Ok tt, written), w') →
  Forall2 (holds key) (map_to_list files) written.
Proof.
  intros Hdir. unfold walk, os_Stat. munfold. rewrite Hdir.
  destruct (can_read w mode); [|done].
  intros (new & -> & Hnew)%walkFiles_Ok. done.
Qed.

(** What [EncryptDirectory] has done to a directory when it returns
    no error. *)
Lemma EncryptDirectory_Ok_dir dirPath key w w' mode files :
  fs w !! dirPath = Some (Dir mode files) →
  EncryptDirectory dirPath key w = (Ok tt, w') →
  ∃ m written,
    Forall2 (holds key) (map_to_list files) written ∧
    fs w' !! dirPath = Some (File m (zip_Writer written)) ∧
    fs w' !! (dirPath +:+ ".ark_encrypted") = None ∧
    (∀ p, p ≠ dirPath → p ≠ dirPath +:+ ".ark_encrypted" → fs w' !! p = fs w !! p) ∧
    euid_root w' = euid_root w.
Proof.
  intros Hdir.
  assert (Hne : dirPath +:+ ".ark_encrypted" ≠ dirPath) by by apply String_app_ne.
  pose proof (EncryptDirectory_keeps_euid_root dirPath key w) as Hroot.
  revert Hroot.
  set (archivePath := dirPath +:+ ".ark_encrypted") in *.
  unfold EncryptDirectory. fold archivePath. munfold.
  destruct (os_Create archivePath w) as [[[]|] w0] eqn:Hcreate; [|done].
  assert (∃ m, fs w0 = <[archivePath := File m []]> (fs w)) as [m Hfs0].
  { unfold os_Create, os_WriteFile in Hcreate.
    repeat case_match; simplify_eq/=; eauto. }
  assert (Hdir0 : fs w0 !! dirPath = Some (Dir mode files)).
  { by rewrite Hfs0, lookup_insert_ne. }
  pose proof (walk_keeps fs dirPath key (λ _ _, eq_refl) w0) as Hwalk.
  destruct (walk dirPath key w0) as [[[walked written]|] w1] eqn:Hwalked;
    simpl in Hwalk; [|done].
  destruct walked as [[]|]; [|by destruct (fd_flush _ _ _) as [[|] ?]].
  apply (walk_Ok_dir _ _ _ _ _ _ _ Hdir0) in Hwalked.
  destruct (os_RemoveAll dirPath w1) as [[[]|] w2] eqn:Hrm;
    [|by destruct (fd_flush _ _ _) as [[|] ?]].
  apply os_RemoveAll_Ok in Hrm as ->.
  unfold os_Rename. simpl.
  rewrite lookup_delete_ne, Hwalk, Hfs0, lookup_insert_eq, lookup_delete_eq by done.
  case_decide; [done|]. unfold fd_flush. simpl.
  rewrite lookup_insert_eq. intros Hroot [= <-]. simpl in *.
  exists m, written. split_and!; try done.
  - by rewrite lookup_insert_eq.
  - by rewrite !lookup_insert_ne, lookup_delete_eq.
  - intros p Hp1 Hp2.
    rewrite !lookup_insert_ne, !lookup_delete_ne, Hwalk, Hfs0 by done.
    by rewrite lookup_insert_ne.
Qed.

Lemma Set_world {V} `{Json V} d bucket key (v : V) w r w' :
  Set_ d bucket key v w = (r, w') →
  fs w' = fs w ∧ euid_root w' = euid_root w.
Proof.
  intros Hset.
  pose proof (Set_keeps fs d bucket key v (λ _ _, eq_refl) (λ _ _, eq_refl) w) as Hfs.
  pose proof (Set_keeps euid_root d bucket key v (λ _ _, eq_refl) (λ _ _, eq_refl) w)
    as Hroot.
  rewrite Hset in Hfs, Hroot. done.
Qed.

(** What a successful [Lock] of a directory under the master key leaves
    behind. *)
Lemma Lock_master_Ok_dir s path abs password hide w w1 mode files :
  filepath_Abs path = Ok abs →
  fs w !! abs = Some (Dir mode files) →
  Lock s path true password hide w = (Ok tt, w1) →
  ∃ written now,
    Forall2 (holds (replicate 32 "000"%byte)) (map_to_list files) written ∧
    fs w1 !! abs = Some (File mode_0000 (zip_Writer written)) ∧
    (∀ p, p ≠ abs → is_Some (fs w1 !! p) → is_Some (fs w !! p)) ∧
    euid_root w1 = euid_root w ∧
    Get (DB s) "locked_dirs" abs w1
      = (Ok (SetMetadata "mode" "encrypted" (NewLockedDirectory now abs true hide)), w1).
Proof.
  intros Habs Hdir Hlock.
  destruct (Lock_master_Ok _ _ _ _ _ _ _ Habs Hlock) as [_ [now Hget]].
  pose proof (Lock_keeps_euid_root s path true password hide w) as Hroot.
  rewrite Hlock in Hroot. simpl in Hroot.
  revert Hlock. unfold Lock. rewrite Habs.
  intros (? & w0 & [[= <-] ->]%lift_Ok_inv & Hlock)%bind_Ok_inv.
  apply bind_Ok_inv in Hlock as (info & w0 & Hstat & Hlock).
  assert (w0 = w) as ->.
  { unfold os_Stat in Hstat. rewrite Hdir in Hstat. by injection Hstat. }
  destruct (negb (is_dir info)); [done|].
  apply bind_Ok_inv in Hlock as (key & w2 & [[= <-] ->]%lift_Ok_inv & Hlock).
  apply bind_Ok_inv in Hlock as ([] & w3 & Henc%wrapM_Ok_inv & Hlock).
  apply (EncryptDirectory_Ok_dir _ _ _ _ _ _ Hdir) in Henc
    as (m & written & Hholds & Hfile & Hgone & Hother & _).
  apply bind_Ok_inv in Hlock as ([] & w4 & Hchmod & Hlock).
  assert (Hfs4 : fs w4 = <[abs := File mode_0000 (zip_Writer written)]> (fs w3)).
  { injection Hchmod as <-. unfold os_Chmod. by rewrite Hfile. }
  apply bind_Ok_inv in Hlock as ([] & w5 & Hhide & Hlock).
  assert (Hfs5 : fs w5 = fs w4).
  { destruct hide.
    - injection Hhide as <-. unfold chflags. by destruct (fs w4 !! abs).
    - by injection Hhide as <-. }
  apply bind_Ok_inv in Hlock as (now' & w6 & [= <- <-] & Hset).
  apply Set_world in Hset as [Hfs1 _]. simpl in Hfs1.
  exists written, now. rewrite Hfs1, Hfs5, Hfs4. split_and!; try done.
  - by rewrite lookup_insert_eq.
  - intros p Hp. rewrite lookup_insert_ne by done.
    destruct (decide (p = abs +:+ ".ark_encrypted")) as [->|Hpa].
    + rewrite Hgone. by intros [? ?].
    + by rewrite Hother.
Qed.

Lemma openArchive_Writer dirPath w m written :
  fs w !! dirPath = Some (File m (zip_Writer written)) →
  can_read w m = true →
  openArchive dirPath w = (Ok (zip_Writer written, written.*1), w).
Proof.
  intros Hfile Hread. unfold openArchive.
  by rewrite Hfile, Hread, zip_NewReader_Writer.
Qed.

(** [DecryptDirectory] of an archive that holds [files], readable by
    the process and free to be removed, with nothing in the way of the
    temporary directory, under names that land in it and keep apart. *)
Lemma DecryptDirectory_holds dirPath key w m files written :
  fs w !! dirPath = Some (File m (zip_Writer written)) →
  can_read w m = true →
  dirPath ∉ undeletable w →
  fs w !! (dirPath +:+ ".ark_temp") = None →
  Forall2 (holds key) files written →
  (∀ file, file ∈ files → lands_in w (dirPath +:+ ".ark_temp") file.1) →
  (∀ a b, a ∈ files.*1 → b ∈ files.*1 → apart a b) →
  ∃ w', DecryptDirectory dirPath key w = (Ok tt, w') ∧
        fs w' !! dirPath = Some (Dir mode_0700 (insert_all files ∅)) ∧
        boltdb w' = boltdb w.
Proof.
  intros Hfile Hread Hremovable Htemp Hholds Hland Hapart.
  assert (Hne : dirPath +:+ ".ark_temp" ≠ dirPath) by by apply String_app_ne.
  pose proof (DecryptDirectory_keeps_boltdb dirPath key w) as Hdb.
  cut (∃ w', DecryptDirectory dirPath key w = (Ok tt, w') ∧
             fs w' !! dirPath = Some (Dir mode_0700 (insert_all files ∅))).
  { intros (w' & Hrun & Hdir). rewrite Hrun in Hdb. eauto. }
  clear Hdb.
  set (tempDir := dirPath +:+ ".ark_temp") in *.
  set (w1 := set_fs <[tempDir := Dir mode_0700 ∅]> w).
  set (w2 := set_fs <[tempDir := Dir mode_0700 (insert_all files ∅)]> w1).
  assert (Hopen : openArchive dirPath w = (Ok (zip_Writer written, written.*1), w))
    by by apply (openArchive_Writer _ _ m).
  assert (Hmkdir : os_MkdirAll tempDir mode_0700 w = (Ok tt, w1)).
  { unfold os_MkdirAll. by rewrite Htemp. }
  assert (Hfile1 : fs w1 !! dirPath = Some (File m (zip_Writer written))).
  { simpl. by rewrite lookup_insert_ne. }
  assert (Hopen1 : openArchive dirPath w1 = (Ok (zip_Writer written, written.*1), w1)).
  { by apply (openArchive_Writer _ _ m). }
  assert (Hextract : extractFiles dirPath (zip_Writer written) tempDir key written.*1 0 w1
                     = (Ok tt, w2)).
  { apply (extractFiles_holds dirPath m written [] tempDir key files written w1
             mode_0700 ∅); try done.
    - simpl. by rewrite lookup_insert_eq.
    - unfold can_write. replace (N.testbit mode_0700 7) with true by reflexivity.
      apply orb_true_r.
    - intros file Hin. destruct (Hland file Hin) as (? & ? & Hfree & Hnone).
      split_and!; try done.
      + simpl. rewrite lookup_insert_ne; [done|]. intros Heq. by eapply below_app_ne.
      + intros d Hd Hdt. apply Hnone; [|done]. simpl in Hd.
        by rewrite lookup_insert_ne in Hd.
    - intros a b [Ha|[? Ha]] Hb; [by apply Hapart|]. by rewrite lookup_empty in Ha. }
  assert (Hisenc : isEncryptedDirectory dirPath w = (Ok true, w)).
  { unfold isEncryptedDirectory. munfold. by rewrite Hopen. }
  set (w3 := set_hidden (.∖ {[dirPath]}) (set_fs (delete dirPath) w2)).
  assert (Hrm : os_RemoveAll dirPath w2 = (Ok tt, w3)).
  { apply (os_RemoveAll_file dirPath w2 m (zip_Writer written)); [|done].
    simpl. by rewrite !lookup_insert_ne, Hfile. }
  destruct (os_Rename tempDir dirPath w3) as [r4 w4] eqn:Hrename.
  assert (Hw4 : r4 = Ok tt ∧
                fs w4 !! dirPath = Some (Dir mode_0700 (insert_all files ∅)) ∧
                fs w4 !! tempDir = None).
  { revert Hrename. unfold os_Rename. simpl.
    rewrite lookup_delete_ne, lookup_insert_eq by done.
    case_decide; [done|]. rewrite lookup_delete_eq.
    intros [= <- <-]. simpl. split; [done|]. split.
    - by rewrite lookup_insert_eq.
    - by rewrite lookup_insert_ne, lookup_delete_eq. }
  destruct Hw4 as (-> & Hdir4 & Htemp4).
  exists (os_RemoveAll tempDir w4).2. split.
  - unfold DecryptDirectory. fold tempDir.
    rewrite (bind_Ok _ _ _ _ _ Hisenc). cbn [negb].
    rewrite (bind_Ok _ _ _ _ _ Hmkdir). unfold defer.
    rewrite (bind_Ok _ _ _ _ _ Hopen1). cbv beta iota.
    rewrite (bind_Ok _ _ _ _ _ Hextract).
    rewrite (bind_Ok _ _ _ _ _ Hrm), Hrename. done.
  - rewrite (os_RemoveAll_keeps_other dirPath tempDir) by done. done.
Qed.

(** Where the code does restore the directory.  For a process that
    runs as root, [Unlock] after a successful [Lock] under the master
    key returns no error, puts back a directory with exactly the files
    of the original, each under its relative path and with its
    contents, and removes the record.  (The directory comes back with
    mode [0700]; the path is free to be removed, nothing may be in the
    way of the temporary directory, and the files carry names such as
    [filepath.Walk] gives them: they land in the temporary directory
    and none lies below another.) *)
Theorem Unlock_after_Lock_root (s : Service)
    (path abs password master provided : string) (hide : bool)
    (w w1 : World) (mode : N) (files : gmap string bytes) :
  filepath_Abs path = Ok abs →
  euid_root w = true →
  abs ∉ undeletable w →
  fs w !! abs = Some (Dir mode files) →
  fs w !! (abs +:+ ".ark_temp") = None →
  (∀ name, is_Some (files !! name) → lands_in w (abs +:+ ".ark_temp") name) →
  (∀ a b, is_Some (files !! a) → is_Some (files !! b) → apart a b) →
  Lock s path true password hide w = (Ok tt, w1) →
  ∃ w2, Unlock s path master provided w1 = (Ok tt, w2) ∧
        fs w2 !! abs = Some (Dir mode_0700 files) ∧
        Get (V := LockedDirectory) (DB s) "locked_dirs" abs w2
          = (Err (ErrKeyNotFound abs "locked_dirs"), w2).
Proof.
  intros Habs Hroot Hremovable Hdir Htemp Hland Hapart Hlock.
  destruct (Lock_master_Ok_dir _ _ _ _ _ _ _ _ _ Habs Hdir Hlock)
    as (written & now & Hholds & Hfile & Hdom & Hroot1 & Hget).
  rewrite Hroot in Hroot1.
  pose proof (Lock_keeps_undeletable s path true password hide w) as Hun1.
  rewrite Hlock in Hun1. simpl in Hun1.
  assert (Hne : abs +:+ ".ark_temp" ≠ abs) by by apply String_app_ne.
  assert (Hbelow_ne : ∀ name, (abs +:+ ".ark_temp") +:+ "/" +:+ name ≠ abs).
  { intros name. rewrite String_app_assoc. apply String_app_ne.
    change (".ark_temp" +:+ "/" +:+ name)
      with (String (Ascii.ascii_of_nat 46) ("ark_temp" +:+ "/" +:+ name)). done. }
  assert (Hfree : ∀ p, p ≠ abs → fs w !! p = None → fs w1 !! p = None).
  { intros p Hp Hnone. apply eq_None_not_Some. intros Hsome.
    apply (Hdom p Hp) in Hsome. rewrite Hnone in Hsome. by destruct Hsome. }
  destruct (DecryptDirectory_holds abs (replicate 32 "000"%byte) w1 mode_0000
              (map_to_list files) written) as (w2 & Hdec & Hdir2 & Hdb2); try done.
  { unfold can_read. by rewrite Hroot1. }
  { by rewrite Hun1. }
  { by apply Hfree. }
  { intros [name content] Hin%elem_of_map_to_list. simpl.
    destruct (Hland name) as (? & ? & Hf & Hnone); [eauto|].
    split_and!; try done.
    - by apply Hfree.
    - intros d Hd Hdt. apply Hnone; [|done].
      destruct (decide (d = abs)) as [->|Hda]; [by rewrite Hdir|by apply Hdom]. }
  { intros a b ([a' ca] & -> & Ha%elem_of_map_to_list)%list_elem_of_fmap
                ([b' cb] & -> & Hb%elem_of_map_to_list)%list_elem_of_fmap.
    apply Hapart; eauto. }
  rewrite insert_all_map_to_list in Hdir2.
  destruct (Get_Ok _ _ _ _ _ _ Hget) as (b & _ & _ & Hb & _).
  rewrite <- Hdb2 in Hb.
  unfold Unlock. rewrite Habs.
  rewrite (bind_Ok _ _ w1 abs w1) by done.
  rewrite (bind_Ok _ _ w1 _ w1) by (unfold try; by rewrite Hget).
  cbn iota.
  change (UseMaster (SetMetadata "mode" "encrypted"
            (NewLockedDirectory now abs true hide))) with true.
  rewrite andb_false_r. cbn iota. unfold getMasterKey.
  rewrite (bind_Ok _ _ w1 (replicate 32 "000"%byte) w1) by done.
  rewrite (bind_Ok _ _ w1 tt w2) by (unfold wrapM; by rewrite Hdec).
  unfold chflags, os_Chmod, time_Now, Delete, bbolt.Update. munfold.
  rewrite Hdir2. simpl. rewrite Hdir2. simpl. rewrite Hb. simpl.
  eexists. split; [done|]. split.
  - simpl. by rewrite lookup_insert_eq.
  - unfold Get, bbolt.View. munfold. simpl.
    by rewrite lookup_insert_eq, lookup_delete_eq.
Qed.

End roundtrip.

(* ===================================================================== *)
(** ** The reference instance satisfies the laws                          *)
(* ===================================================================== *)

Section reference_laws.
Import reference.

Lemma positive_of_bytes_of_positive p :
  positive_of_bytes (bytes_of_positive p) = Some p.
Proof. induction p as [p IH|p IH|]; simpl; [rewrite IH..|]; done. Qed.

Lemma decode_encode_bytes {A} `{Countable A} (a : A) :
  decode_bytes (encode_bytes a) = Some a.
Proof.
  unfold decode_bytes, encode_bytes.
  rewrite positive_of_bytes_of_positive. simpl. apply decode_encode.
Qed.

#[global] Instance reference_json_laws {V} `{Countable V} : @JsonLaws V json.
Proof.
  split. intros v d [= <-]. simpl. by rewrite decode_encode_bytes.
Qed.

Lemma length_tag k nonce : length (tag k nonce) = 16%nat.
Proof.
  unfold tag. rewrite length_take, !length_app, length_replicate. lia.
Qed.

#[global] Instance reference_gcm_laws : @GcmLaws lib.
Proof.
  split.
  - intros k nonce p _ _. simpl. unfold Open, Seal.
    rewrite length_app, length_tag.
    replace (length p + 16 - 16)%nat with (length p) by lia.
    rewrite drop_app_length, take_app_length.
    case_decide as Hd; [done|]. destruct Hd. split; [lia|done].
  - intros k nonce p. simpl. unfold Seal. by rewrite length_app, length_tag.
Qed.
#[global] Instance reference_sha256_laws : @Sha256Laws lib.
Proof.
  split. intros data. simpl. unfold pad.
  rewrite length_take, length_app, length_replicate. lia.
Qed.
Lemma read_unary_unary n rest : read_unary (unary n ++ rest) = Some (n, rest).
Proof.
  induction n as [|n IH]; [done|].
  unfold unary in *. cbn [replicate app read_unary].
  rewrite decide_False, decide_True by done. by rewrite IH.
Qed.

Lemma read_field_field b rest : read_field (field b ++ rest) = Some (b, rest).
Proof.
  unfold read_field, field. rewrite <- app_assoc, read_unary_unary. simpl.
  rewrite decide_True by (rewrite length_app; lia).
  by rewrite take_app_length, drop_app_length.
Qed.

Lemma unpack_upto_pack entries fuel :
  (length entries < fuel)%nat → unpack_upto fuel (pack entries) = Some entries.
Proof.
  revert fuel. induction entries as [|[name data] entries IH]; intros [|fuel] Hfuel;
    try (simpl in Hfuel; lia).
  - done.
  - cbn [pack unpack_upto]. rewrite decide_False, decide_True by done.
    rewrite read_field_field. cbn [mbind option_bind].
    rewrite read_field_field. cbn [mbind option_bind].
    rewrite IH by (simpl in Hfuel; lia). cbn [mbind option_bind].
    unfold bytes_of_string. by rewrite String.string_of_list_byte_of_string.
Qed.

Lemma length_pack entries : (length entries < length (pack entries))%nat.
Proof.
  induction entries as [|[name data] entries IH]; simpl; [lia|].
  rewrite !length_app. lia.
Qed.

Lemma unpack_pack entries : unpack (pack entries) = Some entries.
Proof. apply unpack_upto_pack, length_pack. Qed.

#[global] Instance reference_zip_laws : @ZipLaws lib.
Proof.
  split.
  - intros entries. simpl. by rewrite unpack_pack.
  - intros entries i name data Hi. simpl. rewrite unpack_pack. simpl.
    by rewrite Hi.
Qed.
End reference_laws.

Section crypto_examples.
Import crypto reference.

(** [Decrypt_Encrypt] at the all-zero key and the plaintext ["hi"]. *)
Lemma Decrypt_Encrypt_witness :
  let k := replicate 32 "000"%byte in
  let p := bytes_of_string "hi" in
  length k = KeySize ∧
  ∃ e, NewEncryptor k = Ok e ∧
    (∀ w ct w', Encrypt e p w = (Ok ct, w') → Decrypt e ct = Ok p) ∧
    (∀ w, (NonceSize ≤ length (rand_Reader w))%nat →
          ∃ ct w', Encrypt e p w = (Ok ct, w') ∧ Decrypt e ct = Ok p).
Proof.
    split; [reflexivity|].
    apply (Decrypt_Encrypt (replicate 32 "000"%byte) (bytes_of_string "hi")).
    reflexivity.
Defined.
End crypto_examples.

(* ===================================================================== *)
(** ** Worked examples                                                    *)
(* ===================================================================== *)

Section examples.
Import reference.

(** [Set_Get_Exists_Delete] on the scenario of the design document:
    the secret ["s3cr3t"] is stored under ["db-pass"], read back, and
    deleted. *)
Lemma Set_Get_Exists_Delete_witness :
  ∃ w1 w2,
    storage.Set_ database "vault" "db-pass" "s3cr3t" world = (Ok tt, w1) ∧
    storage.Get database "vault" "db-pass" w1 = (Ok "s3cr3t", w1) ∧
    storage.Exists database "vault" "db-pass" w1 = (Ok true, w1) ∧
    storage.Delete database "vault" "db-pass" w1 = (Ok tt, w2) ∧
    storage.Get (V := string) database "vault" "db-pass" w2
      = (Err (ErrKeyNotFound "db-pass" "vault"), w2) ∧
    storage.Exists database "vault" "db-pass" w2 = (Ok false, w2).
Proof.
  eexists _, _.
  assert (Hset : storage.Set_ database "vault" "db-pass" "s3cr3t" world
                 = (Ok tt, (storage.Set_ database "vault" "db-pass" "s3cr3t" world).2))
    by (vm_compute; reflexivity).
  split; [exact Hset|].
  assert (Hv : JsonSerializable "s3cr3t") by apply json_Unmarshal_Marshal.
  destruct (Set_Get_Exists_Delete database "vault" "db-pass" "s3cr3t" world Hv)
    as [Hafter_set _].
  destruct (Hafter_set _ Hset) as [Hget Hexists].
  split; [exact Hget|]. split; [exact Hexists|].
  set (w1 := (storage.Set_ database "vault" "db-pass" "s3cr3t" world).2) in *.
  assert (Hdel : storage.Delete database "vault" "db-pass" w1
                 = (Ok tt, (storage.Delete database "vault" "db-pass" w1).2))
    by (vm_compute; reflexivity).
  split; [exact Hdel|].
  destruct (Set_Get_Exists_Delete (V := string) database "vault" "db-pass" "s3cr3t" w1 Hv)
    as [_ Hafter_delete].
  exact (Hafter_delete _ Hdel).
Defined.
(** [Delete_absent]: a key nobody stored, and a bucket nobody made. *)
Lemma Delete_absent_witness :
  storage.Delete database "vault" "no-such-key" world = (Ok tt, world) ∧
  storage.Delete database "no-such-bucket" "db-pass" world
    = (Err (ErrBucketNotFound "no-such-bucket"), world).
Proof.
  split.
  - apply (proj1 (Delete_absent database "vault" "no-such-key" world) ∅);
      vm_compute; reflexivity.
  - apply (proj2 (Delete_absent database "no-such-bucket" "db-pass" world));
      vm_compute; reflexivity.
Defined.

(** [GetMasterKey_held_or_uninitialised]: a configuration holding its
    key, and one with neither key nor salt nor cache file. *)
Lemma GetMasterKey_held_or_uninitialised_witness :
  config.GetMasterKey config_held world
    = (Ok (config.MasterKey config_held, config_held), world) ∧
  let w1 := (config.loadCachedMasterKey config_fresh world).2 in
  config.GetMasterKey config_fresh world = (Err ErrNoSalt, w1) ∧
  stdin w1 = stdin world ∧ stdout w1 = stdout world.
Proof.
  split.
  - apply (proj1 (GetMasterKey_held_or_uninitialised config_held world)).
    discriminate.
  - apply (proj2 (GetMasterKey_held_or_uninitialised config_fresh world));
      vm_compute; reflexivity.
Defined.


(** [Get_touches_UpdatedAt] on the stored entry ["db-pass"]. *)
Lemma Get_touches_UpdatedAt_witness :
  let vm := {| vault.db := database |} in
  let entry' := models_vault.set_UpdatedAt 1700000000000000000 entry in
  ∃ w', vault.Get vm "db-pass" world_entry = (Ok entry', w') ∧
        storage.Get database "vault" "db-pass" w' = (Ok entry', w') ∧
        models_vault.UpdatedAt entry' = 1700000000000000000 ∧
        models_vault.Key entry' = "db-pass" ∧
        models_vault.Value entry' = "s3cr3t" ∧
        models_vault.Format entry' = "text" ∧
        models_vault.Description entry' = "" ∧
        models_vault.Tags entry' = [] ∧
        models_vault.Metadata entry' = ∅ ∧
        models_vault.CreatedAt entry' = 1600000000000000000.
Proof.
  intros vm entry'.
  apply (Get_touches_UpdatedAt vm "db-pass" entry world_entry
           (encode_bytes entry')).
  - vm_compute; reflexivity.
  - reflexivity.
  - vm_compute; lia.
  - discriminate.
  - vm_compute; discriminate.
  - vm_compute; discriminate.
Defined.

(** [Unlock_entry_overwrites_archive]: the archive whose first entry
    is called [../secret] is overwritten by what that entry holds; with
    a second entry that does not authenticate [Unlock] fails and the
    record stays, without one [Unlock] succeeds, the record goes, and
    the directory it leaves is empty. *)
Lemma Unlock_entry_overwrites_archive_witness :
  filepath_Join [secret +:+ ".ark_temp"; "../secret"] = secret ∧
  dirlock.decryptContent untagged zero_key = Err ErrGCMOpen ∧
  (∃ e w', dirlock.Unlock service secret "master" "master" world_slip = (Err e, w') ∧
           fs w' !! secret = Some (File mode_0600 inner) ∧
           storage.Get database "locked_dirs" secret w' = (Ok record, w')) ∧
  (∃ w', dirlock.Unlock service secret "master" "master" world_slip_alone = (Ok tt, w') ∧
         fs w' !! secret = Some (Dir mode_0700 ∅) ∧
         storage.Get (V := models_lock.LockedDirectory) database "locked_dirs" secret w'
           = (Err (ErrKeyNotFound secret "locked_dirs"), w')).
Proof.
  assert (Habs : filepath_Abs secret = Ok secret) by reflexivity.
  assert (Hjoin : filepath_Join [secret +:+ ".ark_temp"; "../secret"] = secret)
    by (vm_compute; reflexivity).
  assert (Hbad : dirlock.decryptContent untagged zero_key = Err ErrGCMOpen)
    by (vm_compute; reflexivity).
  split; [exact Hjoin|]. split; [exact Hbad|]. split.
  - set (archive := zip_Writer [("../secret", sealed inner); ("b", untagged)]).
    assert (Hget : storage.Get database "locked_dirs" secret world_slip
                   = (Ok record, world_slip)) by (vm_compute; reflexivity).
    assert (Hfile : fs world_slip !! secret = Some (File mode_0600 archive))
      by (vm_compute; reflexivity).
    assert (Htemp : fs world_slip !! (secret +:+ ".ark_temp") = None)
      by (vm_compute; reflexivity).
    assert (Hr : can_read world_slip mode_0600 = true) by (vm_compute; reflexivity).
    assert (Hw : can_write world_slip mode_0600 = true) by (vm_compute; reflexivity).
    assert (Hzip : zip_NewReader archive = Some ["../secret"; "b"])
      by (vm_compute; reflexivity).
    assert (Hfirst : zip_ReadAll archive 0 archive = Ok (sealed inner))
      by (vm_compute; reflexivity).
    assert (Hplain : dirlock.decryptContent (sealed inner) (replicate 32 "000"%byte)
                     = Ok inner) by (vm_compute; reflexivity).
    assert (Hsecond : zip_ReadAll archive 1 inner = Ok untagged)
      by (vm_compute; reflexivity).
    apply (proj1 (Unlock_entry_overwrites_archive service secret secret "master" "master"
                    "../secret" ["b"] world_slip record mode_0600 archive
                    (sealed inner) inner
                    Habs Hget eq_refl Hfile Hr Hw Htemp Hzip Hjoin
                    Hfirst Hplain)).
    + discriminate.
    + intros encrypted Hread. rewrite Hsecond in Hread. injection Hread as <-. eauto.
  - set (archive := zip_Writer [("../secret", sealed (bytes_of_string "hello"))]).
    assert (Hget : storage.Get database "locked_dirs" secret world_slip_alone
                   = (Ok record, world_slip_alone)) by (vm_compute; reflexivity).
    assert (Hfile : fs world_slip_alone !! secret = Some (File mode_0600 archive))
      by (vm_compute; reflexivity).
    assert (Htemp : fs world_slip_alone !! (secret +:+ ".ark_temp") = None)
      by (vm_compute; reflexivity).
    assert (Hr : can_read world_slip_alone mode_0600 = true) by (vm_compute; reflexivity).
    assert (Hw : can_write world_slip_alone mode_0600 = true) by (vm_compute; reflexivity).
    assert (Hzip : zip_NewReader archive = Some ["../secret"])
      by (vm_compute; reflexivity).
    assert (Hfirst : zip_ReadAll archive 0 archive = Ok (sealed (bytes_of_string "hello")))
      by (vm_compute; reflexivity).
    assert (Hplain : dirlock.decryptContent (sealed (bytes_of_string "hello"))
                       (replicate 32 "000"%byte)
                     = Ok (bytes_of_string "hello")) by (vm_compute; reflexivity).
    apply (proj2 (Unlock_entry_overwrites_archive service secret secret "master" "master"
                    "../secret" [] world_slip_alone record mode_0600 archive
                    (sealed (bytes_of_string "hello")) (bytes_of_string "hello")
                    Habs Hget eq_refl Hfile Hr Hw Htemp Hzip Hjoin
                    Hfirst Hplain)).
    + reflexivity.
    + assert (Hnone : undeletable world_slip_alone = ∅) by (vm_compute; reflexivity).
      rewrite Hnone. apply not_elem_of_empty.
Defined.

(** [Password_not_persisted]: the record stored for a lock under
    ["hunter2"] comes back without it, and [Unlock] turns ["hunter2"]
    away. *)
Lemma Password_not_persisted_witness :
  (json_Marshal (models_lock.SetPassword "hunter2" record)
     = json_Marshal (models_lock.SetPassword "correct horse" record) ∧
   ∀ w, storage.Set_ database "locked_dirs" secret
          (models_lock.SetPassword "hunter2" record) w
        = storage.Set_ database "locked_dirs" secret
            (models_lock.SetPassword "correct horse" record) w) ∧
  (∃ rec', storage.Get database "locked_dirs" secret world_custom = (Ok rec', world_custom) ∧
           models_lock.UseMaster rec' = false ∧
           models_lock.Password rec' = "" ∧
           models_lock.GetPassword rec' "master" = "") ∧
  dirlock.Unlock service secret "master" "hunter2" world_custom
    = (Err (ErrInvalidPassword secret), world_custom).
Proof.
  destruct (Password_not_persisted database service "locked_dirs" secret record)
    as (Hsame & Hempty & Hunlock).
  assert (Hget : storage.Get database "locked_dirs" secret world_custom
                 = (Ok (models_lock.SetPassword "" record), world_custom))
    by (vm_compute; reflexivity).
  split; [|split].
  - apply Hsame.
  - eexists. split; [exact Hget|]. split; [reflexivity|].
    split; [exact (Hempty _ _ _ Hget)|].
    apply (Hunlock secret secret "master" "hunter2" world_custom _
             eq_refl Hget eq_refl).
  - apply (Hunlock secret secret "master" "hunter2" world_custom _
             eq_refl Hget eq_refl). discriminate.
Defined.

(** [custom_password_salt_not_persisted]: locking ["/home/u/secret"]
    under ["hunter2"] fails on the salt, and so does unlocking a record
    of such a lock with the empty password. *)
Lemma custom_password_salt_not_persisted_witness :
  dirlock.Lock service secret false "hunter2" false world_dir
    = (Err (ErrInvalidSaltSize 16), set_rand_Reader (drop 16) world_dir) ∧
  dirlock.Unlock service secret "master" "" world_custom
    = (Err (ErrInvalidSaltSize 16), world_custom) ∧
  dirlock.Unlock service secret "master" "hunter2" world_custom
    = (Err (ErrInvalidPassword secret), world_custom).
Proof.
  assert (Hdir : fs world_dir !! secret
                 = Some (Dir mode_0700 {[ "a.txt" := bytes_of_string "hello" ]}))
    by (vm_compute; reflexivity).
  assert (Hrnd : (16 ≤ length (rand_Reader world_dir))%nat) by (vm_compute; lia).
  assert (Habs : filepath_Abs secret = Ok secret) by reflexivity.
  destruct (custom_password_salt_not_persisted service secret secret "hunter2" false
              world_dir mode_0700 {[ "a.txt" := bytes_of_string "hello" ]}
              Habs Hdir Hrnd)
    as [Hlock Hunlock].
  assert (Hget : storage.Get database "locked_dirs" secret world_custom
                 = (Ok (models_lock.SetPassword "" record), world_custom))
    by (vm_compute; reflexivity).
  split_and!.
  - exact Hlock.
  - exact (Hunlock "master" "" world_custom _ Hget eq_refl).
  - exact (Hunlock "master" "hunter2" world_custom _ Hget eq_refl).
Defined.

(** [Unlock_after_Lock_unprivileged]: the directory holding [a.txt]
    is locked under the master key by an ordinary user, and cannot be
    unlocked again. *)
Lemma Unlock_after_Lock_unprivileged_witness :
  ∃ w1,
    euid_root world_dir = false ∧
    dirlock.Lock service secret true "" false world_dir = (Ok tt, w1) ∧
    (∃ data, fs w1 !! secret = Some (File mode_0000 data)) ∧
    dirlock.Unlock service secret "master" "master" w1
      = (Err (Wrap "failed to decrypt directory" ErrNotEncrypted), w1).
Proof.
  assert (Hlock : dirlock.Lock service secret true "" false world_dir
                  = (Ok tt, (dirlock.Lock service secret true "" false world_dir).2))
    by (vm_compute; reflexivity).
  assert (Habs : filepath_Abs secret = Ok secret) by reflexivity.
  eexists. split; [reflexivity|]. split; [exact Hlock|].
  exact (Unlock_after_Lock_unprivileged service secret secret "" "master" "master"
           false world_dir _ Habs eq_refl Hlock).
Defined.

(** [Unlock_after_Lock_root]: the same directory, locked and unlocked
    by root, is back with [a.txt] holding ["hello"]. *)
Example Unlock_after_Lock_root_example :
  ∃ w1 w2,
    dirlock.Lock service secret true "" false world_dir_root = (Ok tt, w1) ∧
    dirlock.Unlock service secret "master" "master" w1 = (Ok tt, w2) ∧
    fs w2 !! secret = Some (Dir mode_0700 {[ "a.txt" := bytes_of_string "hello" ]}) ∧
    storage.Get (V := models_lock.LockedDirectory) database "locked_dirs" secret w2
      = (Err (ErrKeyNotFound secret "locked_dirs"), w2).
Proof.
  assert (Hlock : dirlock.Lock service secret true "" false world_dir_root
                  = (Ok tt, (dirlock.Lock service secret true "" false
                               world_dir_root).2))
    by (vm_compute; reflexivity).
  assert (Habs : filepath_Abs secret = Ok secret) by reflexivity.
  assert (Hfs : fs world_dir_root
                = {[ secret := Dir mode_0700 {[ "a.txt" := bytes_of_string "hello" ]} ]})
    by (vm_compute; reflexivity).
  assert (Hdir : fs world_dir_root !! secret
                 = Some (Dir mode_0700 {[ "a.txt" := bytes_of_string "hello" ]}))
    by (vm_compute; reflexivity).
  assert (Htemp : fs world_dir_root !! (secret +:+ ".ark_temp") = None)
    by (vm_compute; reflexivity).
  assert (Hname : ∀ name,
            is_Some (({[ "a.txt" := bytes_of_string "hello" ]} : gmap string bytes) !! name) →
            name = "a.txt").
  { intros name [content Hname]. by apply lookup_singleton_Some in Hname as [<- _]. }
  assert (Hland : ∀ name,
            is_Some (({[ "a.txt" := bytes_of_string "hello" ]} : gmap string bytes) !! name) →
            lands_in world_dir_root (secret +:+ ".ark_temp") name).
  { intros name ->%Hname. split_and!.
    - done.
    - vm_compute; reflexivity.
    - vm_compute; reflexivity.
    - intros d [n Hd] _. rewrite Hfs in Hd.
      apply lookup_singleton_Some in Hd as [<- _]. vm_compute; reflexivity. }
  assert (Hapart : ∀ a b,
            is_Some (({[ "a.txt" := bytes_of_string "hello" ]} : gmap string bytes) !! a) →
            is_Some (({[ "a.txt" := bytes_of_string "hello" ]} : gmap string bytes) !! b) →
            apart a b).
  { intros a b ->%Hname ->%Hname. split; vm_compute; reflexivity. }
  assert (Hremovable : secret ∉ undeletable world_dir_root) by apply not_elem_of_empty.
  destruct (Unlock_after_Lock_root service secret secret "" "master" "master" false
              world_dir_root _ mode_0700 {[ "a.txt" := bytes_of_string "hello" ]}
              Habs eq_refl Hremovable Hdir Htemp Hland Hapart Hlock)
    as (w2 & Hunlock & Hfs2 & Hget).
  eauto 10.
Qed.

End examples.

(* ===================================================================== *)
(** * More properties                                                     *)
(* ===================================================================== *)

(** ** Password hashes *)

Section hash_props.
Context `{GoLib}.
Import crypto crypto_hash.

Lemma int_inj a b : int a = int b → a = b.
Proof.
  unfold int. intros Hab%(inj Z.of_N).
  apply (f_equal Byte.of_N) in Hab. rewrite !Byte.of_to_N in Hab. congruence.
Qed.

Lemma foldl_lor_0 (f : nat → Z) l acc :
  foldl (λ result i, Z.lor result (f i)) acc l = 0 ↔ acc = 0 ∧ ∀ i, i ∈ l → f i = 0.
Proof.
  revert acc. induction l as [|i l IH]; intros acc; simpl.
  - split; [|tauto]. intros ->. split; [done|]. by intros i ?%elem_of_nil.
  - rewrite IH, Z.lor_eq_0_iff. split.
    + intros [[-> Hi] Hl]. split; [done|]. intros j [->|?]%elem_of_cons; auto.
    + intros [-> Hl]. split_and!; [done|..].
      * apply Hl. left.
      * intros j ?. apply Hl. by right.
Qed.

Lemma compareBytes_decides (a b : bytes) : compareBytes a b = true ↔ a = b.
Proof.
  unfold compareBytes. case_decide as Hl.
  - split; [done|]. by intros ->.
  - rewrite bool_decide_eq_true, foldl_lor_0. split.
    + intros [_ Hi]. eapply list_eq_same_length; [done..|].
      intros i x y Hlt Hx Hy.
      specialize (Hi i). rewrite elem_of_seq in Hi.
      apply Z.lxor_eq, int_inj in Hi; [|lia].
      rewrite (list_lookup_total_correct _ _ _ Hx) in Hi.
      by rewrite (list_lookup_total_correct _ _ _ Hy) in Hi.
    + intros ->. split; [done|]. intros i _. apply Z.lxor_nilpotent.
Qed.

(** X1. [compareBytes] answers true exactly when the two slices are
    equal: slices of different lengths are told apart before the loop,
    and the accumulated OR of the bytewise XORs is zero only when every
    pair of bytes agrees. *)
Theorem compareBytes_true_iff (a b : bytes) : compareBytes a b = true ↔ a = b.
Proof. apply compareBytes_decides. Qed.

(** X2. [VerifyPassword] accepts a hash exactly when the salt has 32
    bytes and the hash is the Argon2id key of the password under that
    salt; with a salt of any other size it rejects every hash. *)
Theorem VerifyPassword_true_iff (password : string) (hash salt : bytes) :
  VerifyPassword password hash salt = true ↔
  length salt = SaltSize ∧
  hash = argon2_IDKey (bytes_of_string password) salt 1 (64 * 1024) 4 (N.of_nat KeySize).
Proof.
  unfold VerifyPassword, HashPassword, DeriveKey. case_decide as Hs.
  - split; [done|]. by intros [? _].
  - rewrite andb_true_iff, bool_decide_eq_true, compareBytes_decides.
    split.
    + by intros [_ <-].
    + by intros [_ ->].
Qed.
End hash_props.

(* ===================================================================== *)
(** ** Keys of the store                                                  *)
(* ===================================================================== *)

Lemma String_app_nil_r s : s +:+ "" = s.
Proof.
  unfold String.app. induction s as [|a s IH]; simpl; [done|]. by rewrite IH.
Qed.

Lemma substring_prefix sub post : String.substring 0 (len sub) (sub +:+ post) = sub.
Proof.
  unfold String.app. induction sub as [|a sub IH]; simpl.
  - by destruct post.
  - by rewrite IH.
Qed.

Lemma substring_app_mid pre sub post :
  String.substring (len pre) (len sub) (pre +:+ sub +:+ post) = sub.
Proof.
  induction pre as [|a pre IH].
  - exact (substring_prefix sub post).
  - exact IH.
Qed.

Lemma substring_0_found sub s :
  String.substring 0 (len sub) s = sub → ∃ post, s = sub +:+ post.
Proof.
  unfold String.app. revert s. induction sub as [|a sub IH]; intros s; simpl.
  - intros _. by exists s.
  - destruct s as [|c s]; [done|]. intros [= -> [post ->]%IH]. by exists post.
Qed.

Lemma substring_found i sub s :
  String.substring i (len sub) s = sub → ∃ pre post, s = pre +:+ sub +:+ post.
Proof.
  revert s. induction i as [|i IH]; intros s.
  - intros [post ->]%substring_0_found. by exists "", post.
  - destruct s as [|c s]; simpl.
    + intros <-. by exists "", "".
    + intros (pre & post & ->)%IH. by exists (String c pre), post.
Qed.

Section scan_props.
Context `{GoLib}.
Import storage storage_scan.

Lemma containsSubstring_found s substr :
  containsSubstring s substr = true → ∃ pre post, s = pre +:+ substr +:+ post.
Proof.
  unfold containsSubstring. intros (i & _ & Hi)%existsb_exists.
  apply bool_decide_eq_true in Hi. unfold slice in Hi.
  replace (i + len substr - i)%nat with (len substr) in Hi by lia.
  by eapply substring_found.
Qed.

(** What [contains] decides: [substr] occurs in [s]. *)
Lemma contains_decides s substr :
  contains s substr = true ↔ ∃ pre post, s = pre +:+ substr +:+ post.
Proof.
  unfold contains. split.
  - intros [Hle%bool_decide_eq_true Hor]%andb_true_iff.
    apply orb_true_iff in Hor as [->%bool_decide_eq_true|Hor].
    { exists "", "". by rewrite String_app_nil_r. }
    apply andb_true_iff in Hor as [_ Hor].
    apply orb_true_iff in Hor as [Hor|Hsub]; [|by apply containsSubstring_found].
    apply orb_true_iff in Hor as [Hpre%bool_decide_eq_true|Hsuf%bool_decide_eq_true].
    + unfold slice in Hpre. rewrite Nat.sub_0_r in Hpre. by eapply substring_found.
    + unfold slice in Hsuf.
      replace (len s - (len s - len substr))%nat with (len substr) in Hsuf by lia.
      by eapply substring_found.
  - intros (pre & post & ->).
    assert (Hlen : len (pre +:+ substr +:+ post) = (len pre + len substr + len post)%nat).
    { rewrite !String_length_app. lia. }
    apply andb_true_iff. split; [apply bool_decide_eq_true; lia|].
    destruct (decide (pre +:+ substr +:+ post = substr)) as [Heq|Hne].
    { rewrite bool_decide_eq_true_2 by done. done. }
    rewrite (bool_decide_eq_false_2 _ Hne). simpl.
    assert (Hlt : (len substr < len (pre +:+ substr +:+ post))%nat).
    { rewrite Hlen. destruct pre as [|a pre]; [|simpl; lia].
      destruct post as [|c post].
      - exfalso. apply Hne. simpl. apply String_app_nil_r.
      - simpl. lia. }
    rewrite (bool_decide_eq_true_2 _ Hlt). simpl.
    apply orb_true_iff. right. unfold containsSubstring.
    apply existsb_exists. exists (len pre). split.
    + apply list_elem_of_In, elem_of_seq. lia.
    + apply bool_decide_eq_true. unfold slice.
      replace (len pre + len substr - len pre)%nat with (len substr) by lia.
      apply substring_app_mid.
Qed.

(** X3. [contains] answers true exactly when [substr] occurs in [s],
    byte for byte: letter case is not folded, and the empty string
    occurs in every string. *)
Theorem contains_true_iff (s substr : string) :
  contains s substr = true ↔ ∃ pre post, s = pre +:+ substr +:+ post.
Proof. apply contains_decides. Qed.

#[local] Instance le_fst_total : Total (λ p q : string * bytes, String.le p.1 q.1).
Proof. intros p q. apply (total String.le). Qed.

(** The keys a cursor visits: every key of the bucket once, in order. *)
Lemma pairs_keys b :
  let keys := (bbolt_tx.pairs b).*1 in
  Sorted String.le keys ∧ NoDup keys ∧ ∀ key, key ∈ keys ↔ is_Some (b !! key).
Proof.
  intros keys. subst keys. unfold bbolt_tx.pairs. split_and!.
  - apply (Sorted_fmap _ (λ p q : string * bytes, String.le p.1 q.1)); [done|].
    apply Sorted_merge_sort, _.
  - rewrite merge_sort_Permutation. apply NoDup_fst_map_to_list.
  - intros key. rewrite merge_sort_Permutation, list_elem_of_fmap. split.
    + intros ([k v] & -> & Hkv%elem_of_map_to_list). by exists v.
    + intros [v Hv]. exists (key, v). split; [done|]. by apply elem_of_map_to_list.
Qed.

(** A callback that never fails folds over the pairs. *)
Lemma ForEach_total {A} b (fn : A → string → bytes → result A) (g : A → string → A) acc :
  (∀ acc key value, fn acc key value = Ok (g acc key)) →
  bbolt_tx.ForEach b fn acc = Ok (foldl g acc (bbolt_tx.pairs b).*1).
Proof.
  intros Hfn. unfold bbolt_tx.ForEach. generalize (bbolt_tx.pairs b) as l.
  intros l. revert acc. induction l as [|p l IH]; intros acc; simpl; [done|].
  by rewrite Hfn, IH.
Qed.

Lemma foldl_snoc_filter {A} (P : A → bool) (l acc : list A) :
  foldl (λ keys key, if P key then keys ++ [key] else keys) acc l
  = acc ++ filter (λ key, P key = true) l.
Proof.
  revert acc. induction l as [|x l IH]; intros acc; simpl.
  - by rewrite app_nil_r.
  - rewrite IH. rewrite filter_cons. destruct (P x) eqn:HP.
    + rewrite decide_True by done. by rewrite <- app_assoc.
    + rewrite decide_False by done. done.
Qed.

Lemma filter_all {A} (P : A → Prop) `{∀ x, Decision (P x)} (l : list A) :
  (∀ x, x ∈ l → P x) → filter P l = l.
Proof.
  induction l as [|x l IH]; intros Hl; [done|].
  rewrite filter_cons, decide_True, IH; [done| |].
  - intros y ?. apply Hl. by right.
  - apply Hl. left.
Qed.

Lemma List_Ok d bucket w b :
  boltdb w !! bucket = Some b → List d bucket w = (Ok (bbolt_tx.pairs b).*1, w).
Proof.
  intros Hb. unfold List, bbolt.View. rewrite Hb.
  rewrite (ForEach_total _ _ (λ keys key, keys ++ [key])) by done.
  pose proof (foldl_snoc_filter (λ _ : string, true) (bbolt_tx.pairs b).*1 []) as Hf.
  simpl in Hf. rewrite Hf. do 2 f_equal. by apply filter_all.
Qed.

Lemma Search_Ok d bucket pattern w b :
  boltdb w !! bucket = Some b →
  Search d bucket pattern w
  = (Ok (filter (λ key, contains key pattern = true) (bbolt_tx.pairs b).*1), w).
Proof.
  intros Hb. unfold Search, bbolt.View. rewrite Hb.
  rewrite (ForEach_total _ _
    (λ keys key, if contains key pattern then keys ++ [key] else keys)).
  - by rewrite foldl_snoc_filter.
  - intros acc key _. by destruct (contains key pattern).
Qed.

(** X4. [List] of a bucket that exists returns every key of the bucket
    exactly once, in bytewise order, and a key is listed exactly when
    [Exists] answers true for it; of a bucket that does not exist it
    returns the bucket-not-found error.  The world is left as it was. *)
Theorem List_keys (d : Database) (bucket : string) (w : World) :
  match boltdb w !! bucket with
  | None => List d bucket w = (Err (ErrBucketNotFound bucket), w)
  | Some _ =>
      ∃ keys, List d bucket w = (Ok keys, w) ∧
        Sorted String.le keys ∧ NoDup keys ∧
        ∀ key, key ∈ keys ↔ Exists d bucket key w = (Ok true, w)
  end.
Proof.
  destruct (boltdb w !! bucket) as [b|] eqn:Hb.
  - exists (bbolt_tx.pairs b).*1. split; [by apply List_Ok|].
    destruct (pairs_keys b) as (Hsorted & Hnodup & Hin). split_and!; [done..|].
    intros key. rewrite Hin. unfold Exists, bbolt.View. rewrite Hb. split.
    + intros Hk. by rewrite bool_decide_eq_true_2.
    + intros [= Hk%bool_decide_eq_true]. done.
  - unfold List, bbolt.View. by rewrite Hb.
Qed.

(** X5. [Search] returns the keys [List] returns that contain the
    pattern, byte for byte, in the same order; with the empty pattern
    that is every key. *)
Theorem Search_keys (d : Database) (bucket pattern : string) (w : World) :
  match boltdb w !! bucket with
  | None => Search d bucket pattern w = (Err (ErrBucketNotFound bucket), w)
  | Some _ =>
      ∃ keys found, List d bucket w = (Ok keys, w) ∧
        Search d bucket pattern w = (Ok found, w) ∧
        Search d bucket "" w = (Ok keys, w) ∧
        found = filter (λ key, contains key pattern = true) keys ∧
        ∀ key, key ∈ found ↔
               key ∈ keys ∧ ∃ pre post, key = pre +:+ pattern +:+ post
  end.
Proof.
  destruct (boltdb w !! bucket) as [b|] eqn:Hb.
  - eexists _, _. split_and!; [by apply List_Ok|by apply Search_Ok| |done|].
    + rewrite (Search_Ok _ _ _ _ _ Hb). do 2 f_equal.
      apply filter_all. intros key _. apply contains_decides. by exists "", key.
    + intros key. rewrite list_elem_of_filter, contains_decides. tauto.
  - unfold Search, bbolt.View. by rewrite Hb.
Qed.
End scan_props.

Section open_props.
Context `{GoLib} `{GoErrors}.
Import storage storage_scan.

Lemma initBuckets_fold d w :
  initBuckets d w = (Ok tt, set_boltdb (λ _, foldl ensure (boltdb w) buckets) w).
Proof.
  unfold initBuckets, bbolt.Update.
  assert (Hfold : ∀ names tx, Forall (λ name, name ≠ "") names →
    foldl (λ r bucket, tx ← r;
             wrapR ("failed to create bucket " +:+ bucket)
                   (bbolt_tx.CreateBucketIfNotExists tx bucket))
          (Ok tx) names = Ok (foldl ensure tx names)).
  { induction names as [|name names IH]; intros tx Hne; cbn [foldl]; [done|].
    inversion_clear Hne as [|?? Hname Hnames].
    rewrite <- IH by done. f_equal.
    unfold bbolt_tx.CreateBucketIfNotExists, ensure, mbind, result_bind, wrapR.
    destruct (decide (len name = 0%nat)) as [Hz%String_length_0|_]; [done|].
    by destruct (tx !! name). }
  rewrite Hfold; [done|]. unfold buckets. by repeat constructor.
Qed.

Lemma foldl_ensure names tx name :
  foldl ensure tx names !! name =
  match tx !! name with
  | Some b => Some b
  | None => if decide (name ∈ names) then Some ∅ else None
  end.
Proof.
  revert tx. induction names as [|n names IH]; intros tx; cbn [foldl].
  - destruct (tx !! name); [done|]. rewrite decide_False; [done|]. apply not_elem_of_nil.
  - rewrite IH. unfold ensure. destruct (decide (n = name)) as [->|Hne].
    + destruct (tx !! name) as [b|] eqn:Hb; [by rewrite Hb|].
      rewrite lookup_insert_eq. rewrite decide_True; [done|]. left.
    + assert (Hn : (match tx !! n with Some _ => tx | None => <[n := ∅]> tx end) !! name
                   = tx !! name).
      { destruct (tx !! n); [done|]. by rewrite lookup_insert_ne. }
      rewrite Hn. destruct (tx !! name); [done|].
      destruct (decide (name ∈ names)).
      * rewrite decide_True; [done|]. by right.
      * rewrite decide_False; [done|]. intros [?|?]%elem_of_cons; done.
Qed.

(** X6. [initBuckets] never fails.  Afterwards each of the six buckets
    exists; a bucket that existed keeps its contents, one that was
    missing is empty, and no other bucket appears.  Running it again
    changes nothing. *)
Theorem initBuckets_creates (d : Database) (w : World) :
  ∃ w', initBuckets d w = (Ok tt, w') ∧
    initBuckets d w' = (Ok tt, w') ∧
    w' = set_boltdb (λ _, boltdb w') w ∧
    ∀ name,
      boltdb w' !! name =
      match boltdb w !! name with
      | Some b => Some b
      | None => if decide (name ∈ buckets) then Some ∅ else None
      end.
Proof.
  eexists. split; [apply initBuckets_fold|]. split_and!.
  - rewrite initBuckets_fold. f_equal.
    change (boltdb (set_boltdb ?f w)) with (f (boltdb w)). cbv beta.
    assert (Hid : foldl ensure (foldl ensure (boltdb w) buckets) buckets
                  = foldl ensure (boltdb w) buckets).
    { apply map_eq. intros name. rewrite foldl_ensure.
      destruct (foldl ensure (boltdb w) buckets !! name) eqn:Hl; [done|].
      rewrite foldl_ensure in Hl. destruct (boltdb w !! name); [done|].
      by destruct (decide (name ∈ buckets)). }
    rewrite Hid. by destruct w.
  - by destruct w.
  - intros name. exact (foldl_ensure buckets (boltdb w) name).
Qed.
End open_props.

(* ===================================================================== *)
(** ** The key cache                                                      *)
(* ===================================================================== *)

Section ttl_props.
Context `{GoLib} `{!GcmLaws} `{!Sha256Laws} `{Json config.cacheEntry}.
Import crypto config config_admin.

(** What a successful [saveCachedMasterKey] has written. *)
Lemma saveCachedMasterKey_Ok c masterKey timeoutSeconds w w1 :
  saveCachedMasterKey c masterKey timeoutSeconds w = (Ok tt, w1) →
  let entry := {| Key := masterKey;
                  ExpiresAt := clock w (ticks w) + wrap64 (timeoutSeconds * time_Second) |} in
  ∃ data nonce mode,
    json_Marshal entry = Ok data ∧ length nonce = NonceSize ∧
    fs w1 !! getCacheFilePath c
      = Some (File mode (nonce ++ gcm_Seal (crypto.key (cacheEncryptor c)) nonce data)) ∧
    (mode = mode_0600 ∨ ∃ old, fs w !! getCacheFilePath c = Some (File mode old)) ∧
    euid_root w1 = euid_root w.
Proof.
  intros Hsave entry. unfold saveCachedMasterKey in Hsave.
  apply bind_Ok_inv in Hsave as (now & w0 & Hnow & Hsave).
  injection Hnow as <- <-.
  apply bind_Ok_inv in Hsave as (data & ? & [Hdata ->]%lift_Ok_inv & Hsave).
  apply bind_Ok_inv in Hsave as (encKey & ? & [HencKey ->]%lift_Ok_inv & Hsave).
  injection HencKey as <-.
  apply bind_Ok_inv in Hsave as (encryptor & ? & [Henc ->]%lift_Ok_inv & Hsave).
  rewrite NewEncryptor_cache in Henc. injection Henc as <-.
  apply bind_Ok_inv in Hsave as (ct & w2 & Hct%wrapM_Ok_inv & Hsave).
  destruct (Encrypt_frame _ _ _ _ _ Hct) as [rnd ->].
  apply Encrypt_Ok in Hct as (nonce & Hn & -> & _).
  apply bind_Ok_inv in Hsave as ([] & w3 & Hmk%wrapM_Ok_inv & Hwr%wrapM_Ok_inv).
  fold entry in Hdata. exists data, nonce.
  unfold wrapR in Hdata. destruct (json_Marshal entry) as [data'|] eqn:Hm; [|done].
  injection Hdata as ->.
  set (cachePath := getCacheFilePath c) in *.
  set (cacheDir := filepath_Dir cachePath) in *.
  unfold os_MkdirAll in Hmk. simpl fs in Hmk.
  unfold os_WriteFile in Hwr.
  destruct (fs w !! cacheDir) as [[|dmode dfiles]|] eqn:Hdir; simplify_eq.
  - (* the directory was there *)
    simpl in Hwr.
    destruct (fs w !! cachePath) as [[fmode old|]|] eqn:Hfile; simplify_eq.
    + destruct (can_write _ fmode); simplify_eq. simpl.
      exists fmode. rewrite lookup_insert_eq. split_and!; eauto.
    + simpl. exists mode_0600. rewrite lookup_insert_eq. split_and!; eauto.
  - (* the directory has been created *)
    simpl in Hwr. destruct (decide (cachePath = cacheDir)) as [Heq|Hne].
    { rewrite Heq, lookup_insert_eq in Hwr. done. }
    rewrite lookup_insert_ne in Hwr by done.
    destruct (fs w !! cachePath) as [[fmode old|]|] eqn:Hfile; simplify_eq.
    + destruct (can_write _ fmode); simplify_eq. simpl.
      exists fmode. rewrite lookup_insert_eq. split_and!; eauto.
    + simpl. exists mode_0600. rewrite lookup_insert_eq. split_and!; eauto.
Qed.

(** Loading a cache file that holds a sealed entry. *)
Lemma loadCachedMasterKey_sealed c w mode nonce data entry :
  fs w !! getCacheFilePath c
    = Some (File mode (nonce ++ gcm_Seal (crypto.key (cacheEncryptor c)) nonce data)) →
  can_read w mode = true → length nonce = NonceSize →
  json_Unmarshal data = Ok entry →
  loadCachedMasterKey c w =
    if decide (ExpiresAt entry < clock w (ticks w))
    then (Err ErrCacheExpired, (os_Remove (getCacheFilePath c) (set_ticks S w)).2)
    else (Ok (Key entry), set_ticks S w).
Proof.
  intros Hf Hr Hn Hj.
  unfold loadCachedMasterKey, os_Stat, os_ReadFile, getCacheEncryptionKey.
  munfold. rewrite Hf; cbn beta iota. rewrite Hf, Hr; cbn beta iota.
  rewrite NewEncryptor_cache, Decrypt_Seal, Hj; [|simpl; by rewrite sha256_Sum256_length|done].
  unfold time_Now; cbn beta iota. by case_decide.
Qed.

(** A later world in which the file [saveCachedMasterKey] wrote is
    still there, read by the same user. *)
Lemma loadCachedMasterKey_saved `{!JsonLaws cacheEntry}
    c masterKey timeoutSeconds w w1 w2 :
  saveCachedMasterKey c masterKey timeoutSeconds w = (Ok tt, w1) →
  (∀ mode data, fs w !! getCacheFilePath c = Some (File mode data) →
                can_read w mode = true) →
  fs w2 !! getCacheFilePath c = fs w1 !! getCacheFilePath c →
  euid_root w2 = euid_root w →
  loadCachedMasterKey c w2 =
    if decide (clock w (ticks w) + wrap64 (timeoutSeconds * time_Second)
               < clock w2 (ticks w2))
    then (Err ErrCacheExpired, (os_Remove (getCacheFilePath c) (set_ticks S w2)).2)
    else (Ok masterKey, set_ticks S w2).
Proof.
  intros (data & nonce & mode & Hm & Hn & Hf & Hmode & Heuid)%saveCachedMasterKey_Ok
    Hread Hsame Hroot.
  rewrite <- Hsame in Hf.
  assert (Hr : can_read w2 mode = true).
  { unfold can_read. rewrite Hroot. destruct Hmode as [->|[old Hold]].
    - apply orb_true_r.
    - by eapply Hread. }
  apply json_Unmarshal_Marshal in Hm.
  by rewrite (loadCachedMasterKey_sealed _ _ _ _ _ _ Hf Hr Hn Hm).
Qed.


(** X8. With no key in memory, [GetMasterKey] returns a key that was
    saved to the cache and has not expired, and keeps it in memory: the
    clock is read once, and nothing is printed to or read from the
    terminal. *)
Theorem GetMasterKey_from_cache `{!JsonLaws cacheEntry}
    (c : Config) (masterKey : bytes) (timeoutSeconds : Z) (w w1 w2 : World) :
  saveCachedMasterKey c masterKey timeoutSeconds w = (Ok tt, w1) →
  (∀ mode data, fs w !! getCacheFilePath c = Some (File mode data) →
                can_read w mode = true) →
  fs w2 !! getCacheFilePath c = fs w1 !! getCacheFilePath c →
  euid_root w2 = euid_root w →
  MasterKey c = [] → masterKey ≠ [] →
  clock w2 (ticks w2) ≤ clock w (ticks w) + wrap64 (timeoutSeconds * time_Second) →
  GetMasterKey c w2 = (Ok (masterKey, set_MasterKey masterKey c), set_ticks S w2).
Proof.
  intros Hsave Hread Hsame Hroot Hk Hne Ht.
  unfold GetMasterKey. rewrite Hk. simpl.
  unfold mbind at 1, M_bind at 1, try at 1.
  rewrite (loadCachedMasterKey_saved _ _ _ _ _ _ Hsave Hread Hsame Hroot).
  rewrite decide_False by lia. by destruct masterKey.
Qed.
End ttl_props.

Section key_props.
Context `{GoLib} `{Json config.cacheEntry}.
Import crypto config config_admin.

(** X9. Once [GetMasterKey] has returned a key, the configuration it
    leaves holds that key, which is not empty: [GetMasterKeySilent]
    returns it, and every later [GetMasterKey] returns it and leaves
    the world alone.  The salt and the directory of the configuration
    are as they were. *)
Theorem GetMasterKey_again `{!Argon2Laws} (c c' : Config) (key : bytes) (w w' : World) :
  GetMasterKey c w = (Ok (key, c'), w') →
  key ≠ [] ∧ GetMasterKeySilent c' = key ∧
  Salt c' = Salt c ∧ ConfigDir c' = ConfigDir c ∧
  ∀ w'', GetMasterKey c' w'' = (Ok (key, c'), w'').
Proof.
  assert (Hheld : ∀ k c0, k ≠ [] → MasterKey c0 = k →
            ∀ w'', GetMasterKey c0 w'' = (Ok (k, c0), w'')).
  { intros k c0 Hk <- w''. unfold GetMasterKey. rewrite decide_True; [done|].
    destruct (MasterKey c0); [done|simpl; lia]. }
  unfold GetMasterKey. case_decide as Hl.
  - intros [= <- <- <-].
    assert (MasterKey c ≠ []) by (intros Hk; rewrite Hk in Hl; simpl in Hl; lia).
    split_and!; [done..|]. by apply Hheld.
  - intros Hget. apply bind_Ok_inv in Hget as (cached & w0 & _ & Hget).
    assert (Hprompt : (if decide (length (Salt c) = 0%nat) then fail ErrNoSalt
              else
                masterPassword ← wrapM "failed to get master password" password.GetMasterPassword;
                masterKey ← lift (wrapR "failed to derive master key"
                                    (DeriveKey masterPassword (Salt c)));
                let timeout := PasswordCacheTimeout c in
                let timeout := if decide (timeout ≤ 0) then 300 else timeout in
                _ ← discard (saveCachedMasterKey c masterKey timeout);
                mret (masterKey, set_MasterKey masterKey c)) w0 = (Ok (key, c'), w') →
            key ≠ [] ∧ c' = set_MasterKey key c).
    { clear Hget. case_decide; [done|]. intros Hget.
      apply bind_Ok_inv in Hget as (pw & ? & _ & Hget).
      apply bind_Ok_inv in Hget as (mk & ? & [Hmk ->]%lift_Ok_inv & Hget).
      apply bind_Ok_inv in Hget as ([] & ? & _ & Hget).
      injection Hget as <- <- <-. split; [|done].
      unfold DeriveKey in Hmk. case_decide; [done|]. simpl in Hmk. injection Hmk as <-.
      intros Hnil%(f_equal length). rewrite argon2_IDKey_length in Hnil. done. }
    assert (Hres : key ≠ [] ∧ c' = set_MasterKey key c).
    { destruct cached as [[|x k]|e]; [by apply Hprompt| |by apply Hprompt].
      injection Hget as <- <- <-. done. }
    destruct Hres as [Hne ->]. split_and!; [done..|]. by apply Hheld.
Qed.

(** X10. A timeout of zero or less does not switch the cache off:
    [SetPasswordCacheTimeout] stores a negative timeout as zero, and
    with a timeout of zero or less [GetMasterKey] returns the key and
    leaves the world, cache file included, exactly as it does with a
    timeout of 300 seconds. *)
Theorem GetMasterKey_timeout_default (c : Config) (timeoutSeconds : Z) (w : World) :
  timeoutSeconds ≤ 0 →
  let c0 := SetPasswordCacheTimeout timeoutSeconds c in
  let c300 := SetPasswordCacheTimeout 300 c in
  PasswordCacheTimeout c0 = 0 ∧
  returned_key (GetMasterKey c0 w).1 = returned_key (GetMasterKey c300 w).1 ∧
  (GetMasterKey c0 w).2 = (GetMasterKey c300 w).2.
Proof.
  intros Ht c0 c300. split.
  { unfold c0, SetPasswordCacheTimeout. simpl. case_decide; lia. }
  assert (Hload : loadCachedMasterKey c0 = loadCachedMasterKey c300) by done.
  assert (Hsave : ∀ k t, saveCachedMasterKey c0 k t = saveCachedMasterKey c300 k t) by done.
  unfold GetMasterKey.
  change (MasterKey c0) with (MasterKey c). change (MasterKey c300) with (MasterKey c).
  case_decide; [done|].
  munfold. rewrite Hload.
  destruct (loadCachedMasterKey c300 w) as [cached w0].
  change (Salt c0) with (Salt c). change (Salt c300) with (Salt c).
  assert (Hto : (if decide (PasswordCacheTimeout c0 ≤ 0) then 300 else PasswordCacheTimeout c0)
                = (if decide (PasswordCacheTimeout c300 ≤ 0) then 300 else PasswordCacheTimeout c300)).
  { unfold c0, c300, SetPasswordCacheTimeout. simpl. repeat case_decide; lia. }
  destruct cached as [[|x k]|e]; [|by split|];
    (destruct (decide (length (Salt c) = 0%nat)); [by split|];
     destruct (password.GetMasterPassword w0) as [[pw|] w2]; [|by split];
     destruct (DeriveKey pw (Salt c)); cbn beta iota; [|by split];
     rewrite Hto, Hsave; by split).
Qed.

Lemma set_MasterKey_id c : set_MasterKey (MasterKey c) c = c.
Proof. by destruct c. Qed.

Lemma GenerateSalt_run w :
  GenerateSalt w =
    if decide (SaltSize ≤ length (rand_Reader w))%nat
    then (Ok (take SaltSize (rand_Reader w)), set_rand_Reader (drop SaltSize) w)
    else (Err (Wrap "failed to generate salt" ErrUnexpectedEOF),
          set_rand_Reader (λ _, []) w).
Proof. unfold GenerateSalt, rand_ReadFull. munfold. by case_decide. Qed.

Lemma DeriveKey_SaltSize password salt :
  length salt = SaltSize →
  DeriveKey password salt
  = Ok (argon2_IDKey (bytes_of_string password) salt 1 (64 * 1024) 4 (N.of_nat KeySize)).
Proof. intros Hs. unfold DeriveKey. by rewrite decide_False by (by intros ?). Qed.

(** X11. [Initialize] succeeds exactly when the random source delivers
    64 bytes.  The first 32 become the salt and the next 32 the backup
    key; the master key is the Argon2id key of the password under that
    salt, and the cache timeout is 300 seconds.  The same key comes
    back when the configuration is loaded without its key and the same
    password is typed at the prompt. *)
Theorem Initialize_key (configDir masterPassword : string) (w : World) :
  is_Ok (Initialize configDir masterPassword w).1
    = bool_decide (64 ≤ length (rand_Reader w))%nat ∧
  ∀ c backupKey w',
    Initialize configDir masterPassword w = (Ok (c, backupKey), w') →
    Salt c = take 32 (rand_Reader w) ∧ length (Salt c) = SaltSize ∧
    backupKey = take 32 (drop 32 (rand_Reader w)) ∧
    rand_Reader w' = drop 64 (rand_Reader w) ∧
    ConfigDir c = configDir ∧ PasswordCacheTimeout c = 300 ∧
    MasterKey c = argon2_IDKey (bytes_of_string masterPassword) (Salt c)
                    1 (64 * 1024) 4 (N.of_nat KeySize) ∧
    ∀ w0 e w1 rest,
      loadCachedMasterKey (set_MasterKey [] c) w0 = (Err e, w1) →
      stdin w0 = Some masterPassword :: rest → masterPassword ≠ "" →
      ∃ w2, GetMasterKey (set_MasterKey [] c) w0 = (Ok (MasterKey c, c), w2).
Proof.
  unfold Initialize, DefaultConfig, time_Now. munfold. cbn beta iota.
  rewrite GenerateSalt_run. change SaltSize with 32%nat. cbn [rand_Reader set_ticks].
  destruct (decide (32 ≤ length (rand_Reader w))%nat) as [H32|H32]; cbn beta iota.
  2:{ split; [|done]. simpl. rewrite bool_decide_eq_false_2; [done|lia]. }
  rewrite DeriveKey_SaltSize by (rewrite length_take; unfold SaltSize; lia).
  cbn beta iota. rewrite GenerateSalt_run. change SaltSize with 32%nat.
  cbn [rand_Reader set_rand_Reader set_ticks]. rewrite length_drop.
  destruct (decide (32 ≤ length (rand_Reader w) - 32)%nat) as [H64|H64]; cbn beta iota.
  2:{ split; [|done]. simpl. rewrite bool_decide_eq_false_2; [done|lia]. }
  split. { simpl. rewrite bool_decide_eq_true_2; [done|lia]. }
  intros c backupKey w' [= <- <- <-]. simpl.
  assert (Hlen : length (take 32 (rand_Reader w)) = SaltSize).
  { rewrite length_take. unfold SaltSize. lia. }
  split_and!; try done.
  - by rewrite drop_drop.
  - intros w0 e w1 rest Hload Hin Hpw.
    edestruct (GetMasterKey_prompts
      {| MasterKey := []; Salt := take 32 (rand_Reader w); ConfigDir := configDir;
         PasswordCacheTimeout := 300 |} w0 e w1 masterPassword rest)
      as (w2 & Hget & _); try done.
    exists w2. exact Hget.
Qed.



End key_props.

(* ===================================================================== *)
(** ** Vault entries                                                      *)
(* ===================================================================== *)

Section entry_props.
Import models_vault vault_entry.

Lemma existsb_eq (tag : string) (l : list string) :
  existsb (λ existingTag, bool_decide (existingTag = tag)) l = bool_decide (tag ∈ l).
Proof.
  induction l as [|x l IH]; cbn [existsb].
  - by rewrite bool_decide_eq_false_2 by apply not_elem_of_nil.
  - rewrite IH. destruct (decide (x = tag)) as [->|Hne].
    + rewrite (bool_decide_eq_true_2 (tag = tag)) by done.
      by rewrite (bool_decide_eq_true_2 (tag ∈ tag :: l)) by left.
    + rewrite (bool_decide_eq_false_2 (x = tag)) by done. cbn [orb].
      apply bool_decide_ext. rewrite elem_of_cons. split; [by right|].
      by intros [->|?].
Qed.

Lemma HasTag_elem tag e : HasTag tag e = bool_decide (tag ∈ Tags e).
Proof. apply existsb_eq. Qed.

Lemma AddTag_run tag e w :
  AddTag tag e w =
    if decide (tag ∈ Tags e) then (Ok e, w)
    else (Ok (set_UpdatedAt (clock w (ticks w)) (set_Tags (Tags e ++ [tag]) e)),
          set_ticks S w).
Proof.
  unfold AddTag. rewrite existsb_eq. case_decide.
  - by rewrite bool_decide_eq_true_2.
  - by rewrite bool_decide_eq_false_2.
Qed.

Lemma RemoveTag_run tag e w :
  NoDup (Tags e) →
  ∃ e' w', RemoveTag tag e w = (Ok e', w') ∧
    NoDup (Tags e') ∧ (∀ t, t ∈ Tags e' ↔ t ∈ Tags e ∧ t ≠ tag) ∧
    Key e' = Key e ∧ Value e' = Value e ∧ Format e' = Format e ∧
    Description e' = Description e ∧ Metadata e' = Metadata e ∧
    CreatedAt e' = CreatedAt e.
Proof.
  intros Hnd. unfold RemoveTag.
  destruct (list_find _ (Tags e)) as [[i x]|] eqn:Hfind.
  - apply list_find_Some in Hfind as (Hi & -> & _).
    eexists _, _. split; [reflexivity|]. simpl.
    pose proof (take_drop_middle _ _ _ Hi) as Hmid.
    set (l1 := take i (Tags e)) in *. set (l2 := drop (S i) (Tags e)) in *.
    clearbody l1 l2. rewrite <- Hmid in *. clear Hmid Hi.
    apply list.NoDup_app in Hnd as (Hnd1 & Hdis & [Hnotin Hnd2]%list.NoDup_cons).
    split_and!; try done.
    + apply list.NoDup_app. split_and!; [done| |done].
      intros t Ht1 Ht2. apply (Hdis t Ht1). by right.
    + intros t. rewrite !elem_of_app, elem_of_cons. split.
      * intros [Ht|Ht]; (split; [tauto|]); intros ->.
        -- apply (Hdis tag Ht). left.
        -- done.
      * intros [[?|[?|?]] ?]; tauto.
  - apply list_find_None in Hfind.
    eexists _, _. split; [reflexivity|]. split_and!; try done.
    intros t. split; [|tauto]. intros Ht. split; [done|]. intros ->.
    rewrite Forall_forall in Hfind.
    apply (Hfind tag); [by apply list_elem_of_In|done].
Qed.

(** X14. The tags of an entry behave as a set.  [AddTag] leaves an
    entry that has the tag, adds nothing when the tag is already
    there, and keeps the tags free of duplicates; on such tags
    [RemoveTag] leaves an entry that no longer has the tag and keeps
    every other tag. *)
Theorem tags_are_a_set (tag : string) (e : VaultEntry) (w : World) :
  NoDup (Tags e) →
  ∃ e1 w1, AddTag tag e w = (Ok e1, w1) ∧
    HasTag tag e1 = true ∧ NoDup (Tags e1) ∧
    (∀ t, t ∈ Tags e1 ↔ t ∈ Tags e ∨ t = tag) ∧
    AddTag tag e1 w1 = (Ok e1, w1) ∧
    ∃ e2 w2, RemoveTag tag e1 w1 = (Ok e2, w2) ∧
      HasTag tag e2 = false ∧ NoDup (Tags e2) ∧
      (∀ t, t ∈ Tags e2 ↔ t ∈ Tags e ∧ t ≠ tag).
Proof.
  intros Hnd.
  assert (Hadd : ∃ e1 w1, AddTag tag e w = (Ok e1, w1) ∧ tag ∈ Tags e1 ∧
            NoDup (Tags e1) ∧ (∀ t, t ∈ Tags e1 ↔ t ∈ Tags e ∨ t = tag)).
  { rewrite AddTag_run. case_decide as Hin.
    - eexists _, _. split; [done|]. split_and!; [done..|].
      intros t. split; [tauto|]. by intros [?| ->].
    - eexists _, _. split; [done|]. simpl. split_and!.
      + apply elem_of_app. right. left.
      + apply list.NoDup_app. split_and!; [done| |apply NoDup_singleton].
        by intros t Ht ->%list_elem_of_singleton.
      + intros t. by rewrite elem_of_app, list_elem_of_singleton. }
  destruct Hadd as (e1 & w1 & Hadd & Hin & Hnd1 & Hmem).
  exists e1, w1. split_and!; try done.
  - rewrite HasTag_elem. by apply bool_decide_eq_true.
  - rewrite AddTag_run. by rewrite decide_True.
  - destruct (RemoveTag_run tag e1 w1 Hnd1) as (e2 & w2 & Hrm & Hnd2 & Hmem2 & _).
    exists e2, w2. split_and!; try done.
    + rewrite HasTag_elem. apply bool_decide_eq_false. rewrite Hmem2. tauto.
    + intros t. rewrite Hmem2, Hmem. split; [|tauto]. intros [[?|?] ?]; tauto.
Qed.
End entry_props.

(* ===================================================================== *)
(** ** The vault manager                                                  *)
Section stored_props.
Context `{GoLib} `{!GcmLaws}.
Import storage.

(** [Get] of the store reads what is stored. *)
Lemma Get_stored {V} `{Json V} (d : Database) bucket key (b : gmap string bytes) w :
  boltdb w !! bucket = Some b →
  match storage.Get (V := V) d bucket key w with
  | (Ok v, _) => stored d b key v
  | (Err _, _) => ∀ v : V, ¬ stored d b key v
  end.
Proof.
  intros Hb. destruct (storage.Get d bucket key w) as [[e|err] w'] eqn:Hget.
  - apply Get_Ok in Hget as (b' & ct & pt & Hb' & Hct & Hd & Hj & _).
    rewrite Hb in Hb'. injection Hb' as <-. by exists ct, pt.
  - intros e (ct & pt & Hct & Hd & Hj). revert Hget.
    unfold storage.Get, bbolt.View. munfold. by rewrite Hb, Hct, Hd, Hj.
Qed.

(** [Set_] touches one key of one bucket, if anything. *)
Lemma Set_bucket {V} `{Json V} (d : Database) bucket key (v : V) (b : gmap string bytes) w :
  boltdb w !! bucket = Some b →
  ∃ b', boltdb (storage.Set_ d bucket key v w).2 !! bucket = Some b' ∧
        ∀ k, k ≠ key → b' !! k = b !! k.
Proof.
  intros Hb. unfold storage.Set_. munfold.
  destruct (json_Marshal v) as [data|]; simpl; [|eauto].
  destruct (crypto.Encrypt (enc d) data w) as [[ct|] w0] eqn:He;
    apply Encrypt_frame in He as [rnd ->]; simpl; [|eauto].
  unfold bbolt.Update. simpl. rewrite Hb.
  destruct (bbolt.Put b key ct) as [b'|] eqn:Hput; simpl; [|eauto].
  exists b'. split; [apply lookup_insert_eq|].
  intros k Hk. unfold bbolt.Put in Hput. repeat case_decide; simplify_eq.
  by rewrite lookup_insert_ne.
Qed.

End stored_props.

(* ===================================================================== *)

Section manager_props.
Import models_vault.
Context `{GoLib} `{!GcmLaws} `{GoErrors} `{GoStrings}.
Context `{Json VaultEntry}.
Import storage vault.

(** [vault.Get] on an entry the store can read. *)
Lemma vault_Get_run vm key e w :
  storage.Get (db vm) "vault" key w = (Ok e, w) →
  let e' := set_UpdatedAt (clock w (ticks w)) e in
  vault.Get vm key w = (Ok e', (storage.Set_ (db vm) "vault" key e' (set_ticks S w)).2).
Proof.
  intros Hget e'. unfold vault.Get.
  rewrite (bind_Ok _ _ _ e w) by (unfold wrapM; by rewrite Hget).
  unfold time_Now. munfold. done.
Qed.

Lemma vault_Get_Ok vm key e' w w' :
  vault.Get vm key w = (Ok e', w') →
  ∃ e, storage.Get (db vm) "vault" key w = (Ok e, w) ∧
       e' = set_UpdatedAt (clock w (ticks w)) e ∧
       w' = (storage.Set_ (db vm) "vault" key e' (set_ticks S w)).2.
Proof.
  intros Hget. unfold vault.Get in Hget.
  apply bind_Ok_inv in Hget as (e & w0 & Hsget%wrapM_Ok_inv & Hget).
  pose proof (Get_world (V := VaultEntry) (db vm) "vault" key w) as Hw.
  rewrite Hsget in Hw. simpl in Hw. subst w0.
  exists e. split; [done|].
  unfold time_Now in Hget. munfold. by injection Hget as <- <-.
Qed.

(** The loop over the tags to add: the entry keeps its other fields,
    and only the clock is read. *)
Lemma addTags_run tags e w :
  ∃ e' n, vault_manager.addTags tags e w = (Ok e', set_ticks (λ _, n) w) ∧
    (NoDup (Tags e) → NoDup (Tags e')) ∧
    (∀ t, t ∈ Tags e' ↔ t ∈ Tags e ∨ t ∈ tags) ∧
    (∃ added, Tags e' = Tags e ++ added ∧ sublist added tags) ∧
    Key e' = Key e ∧ Value e' = Value e ∧ Format e' = Format e ∧
    Description e' = Description e ∧ Metadata e' = Metadata e ∧
    CreatedAt e' = CreatedAt e.
Proof.
  revert e w. induction tags as [|tag tags IH]; intros e w.
  - exists e, (ticks w). split; [by destruct w|]. split_and!; try done.
    + intros t. split; [tauto|]. intros [?|?%elem_of_nil]; done.
    + exists []. by rewrite app_nil_r.
  - cbn [vault_manager.addTags].
    unfold mbind at 1, M_bind at 1. rewrite AddTag_run.
    destruct (decide (tag ∈ Tags e)) as [Hin|Hin].
    + destruct (IH e w) as (e' & n & -> & Hnd & Hmem & (added & Hadd & Hsub) & Hrest).
      exists e', n. split; [done|]. split_and!; try done; try tauto.
      * intros t. rewrite Hmem, elem_of_cons. split; [tauto|].
        intros [?|[->|?]]; tauto.
      * exists added. split; [done|]. by apply sublist_cons.
    + destruct (IH (set_UpdatedAt (clock w (ticks w)) (vault_entry.set_Tags (Tags e ++ [tag]) e))
                   (set_ticks S w))
        as (e' & n & -> & Hnd & Hmem & (added & Hadd & Hsub) & Hrest).
      simpl in *. exists e', n. split; [by destruct w|]. split_and!; try tauto.
      * intros Hnd0. apply Hnd. apply list.NoDup_app. split_and!; [done| |apply NoDup_singleton].
        by intros t Ht ->%list_elem_of_singleton.
      * intros t. rewrite Hmem, elem_of_app, list_elem_of_singleton, elem_of_cons. tauto.
      * exists (tag :: added). split; [by rewrite Hadd, <- app_assoc|]. by apply sublist_skip.
Qed.

(** X15. When [Set] has returned no error, the format was one
    [isValidFormat] accepts, and what [Set] gave the store to write
    under the key, in the call that made the world what it is, is an
    entry with the key, value, format and description given, no
    metadata, the time of the call as its creation time, and the tags
    given, each once and in the order given.  The store holds that
    very entry, and [Get] returns it with [UpdatedAt] set to the time
    of the read, when the entry survives the trip through JSON:
    [json.Marshal] writes U+FFFD for the bytes of a string that are
    not valid UTF-8 and reports no error, so an entry with such a
    string is read back as another entry. *)
Theorem Set_then_Get (vm : VaultManager) (key value format description : string)
    (tags : list string) (w w1 : World) :
  vault_manager.Set_ vm key value format description tags w = (Ok tt, w1) →
  ∃ e w0,
    storage.Set_ (db vm) "vault" key e w0 = (Ok tt, w1) ∧
    vault_manager.isValidFormat format = true ∧
    Key e = key ∧ Value e = value ∧ Format e = format ∧
    Description e = description ∧ Metadata e = ∅ ∧
    CreatedAt e = clock w (ticks w) ∧
    NoDup (Tags e) ∧ sublist (Tags e) tags ∧ (∀ t, t ∈ Tags e ↔ t ∈ tags) ∧
    (JsonSerializable e →
     storage.Get (db vm) "vault" key w1 = (Ok e, w1) ∧
     ∃ w2, vault.Get vm key w1 = (Ok (set_UpdatedAt (clock w1 (ticks w1)) e), w2)).
Proof.
  unfold vault_manager.Set_.
  destruct (vault_manager.isValidFormat format) eqn:Hvalid; [|done]. cbn [negb].
  unfold vault_entry.NewVaultEntry, vault_entry.SetDescription, time_Now.
  munfold. cbn beta iota. intros Hset.
  match type of Hset with
  | (let (r, w') := vault_manager.addTags tags ?e0 ?w0 in _) = _ =>
      destruct (addTags_run tags e0 w0)
        as (e & n & Htags & Hnd & Hmem & (added & Hadd & Hsub) & Hk & Hv & Hf & Hd & Hm & Hc)
  end.
  rewrite Htags in Hset. simpl in *.
  eexists e, _. split; [exact Hset|].
  split_and!; try done.
  - apply Hnd, NoDup_nil_2.
  - by rewrite Hadd.
  - intros t. rewrite Hmem. split; [|tauto]. by intros [?%elem_of_nil|?].
  - intros Hjson.
    pose proof (Get_after_Set_gen _ _ _ _ _ _ _ Hset Hjson) as Hget.
    split; [done|]. eexists. by apply vault_Get_run.
Qed.

(** X16. When [Update] of an entry the store can read has returned no
    error, what it gave the store to write under the key is the entry
    with its value, format and description replaced and its tags
    replaced by those given (each once, in the order given), and with
    its key, creation time and metadata kept.  The format is written
    as given: [Update] does not ask [isValidFormat].  The store holds
    that very entry when the entry survives the trip through JSON,
    which an entry with a string that is not valid UTF-8 does not. *)
Theorem Update_replaces (vm : VaultManager) (key value format description : string)
    (tags : list string) (e0 : VaultEntry) (w w1 : World) :
  storage.Get (db vm) "vault" key w = (Ok e0, w) →
  vault_manager.Update vm key value format description tags w = (Ok tt, w1) →
  ∃ e1 w0,
    storage.Set_ (db vm) "vault" key e1 w0 = (Ok tt, w1) ∧
    Key e1 = Key e0 ∧ CreatedAt e1 = CreatedAt e0 ∧ Metadata e1 = Metadata e0 ∧
    Value e1 = value ∧ Format e1 = format ∧ Description e1 = description ∧
    NoDup (Tags e1) ∧ sublist (Tags e1) tags ∧ (∀ t, t ∈ Tags e1 ↔ t ∈ tags) ∧
    (JsonSerializable e1 → storage.Get (db vm) "vault" key w1 = (Ok e1, w1)).
Proof.
  intros Hget0 Hupd. unfold vault_manager.Update in Hupd.
  apply bind_Ok_inv in Hupd as (ex & w0 & Hex%wrapM_Ok_inv & Hupd).
  unfold storage.Exists, bbolt.View in Hex.
  assert (w0 = w) as -> by (by destruct (boltdb w !! "vault"); simplify_eq).
  destruct ex; [|done]. cbn [negb] in Hupd.
  apply bind_Ok_inv in Hupd as (e & w2 & Hvget%wrapM_Ok_inv & Hupd).
  apply vault_Get_Ok in Hvget as (e0' & Hget0' & -> & _).
  rewrite Hget0 in Hget0'. injection Hget0' as <-.
  unfold vault_entry.SetDescription, time_Now in Hupd. munfold. cbn beta iota in Hupd.
  match type of Hupd with
  | (let (r, w') := vault_manager.addTags tags ?e ?w0 in _) = _ =>
      destruct (addTags_run tags e w0)
        as (e1 & n & Htags & Hnd & Hmem & (added & Hadd & Hsub) & Hk & Hv & Hf & Hd & Hm & Hc)
  end.
  rewrite Htags in Hupd. simpl in *.
  eexists e1, _. split; [exact Hupd|].
  split_and!; try done.
  - apply Hnd, NoDup_nil_2.
  - by rewrite Hadd.
  - intros t. rewrite Hmem. split; [|tauto]. by intros [?%elem_of_nil|?].
  - intros Hjson. by apply (Get_after_Set_gen _ _ _ _ _ _ _ Hupd Hjson).
Qed.

(** X17. [Delete] of the manager removes the entry and nothing else,
    after which [Exists] answers false, and reports a key that is not
    there: deleting again, or deleting or updating a key that was
    never stored, fails with the not-found error and leaves the world
    as it was (where [Delete] of the store returns no error). *)
Theorem Delete_reports_missing (vm : VaultManager) (key : string) (w : World)
    (b : gmap string bytes) :
  boltdb w !! "vault" = Some b →
  let missing := errors_New ("vault entry '" +:+ key +:+ "' not found") in
  (is_Some (b !! key) →
   ∃ w1, vault_manager.Delete vm key w = (Ok tt, w1) ∧
         w1 = set_boltdb <["vault" := delete key b]> w ∧
         vault_manager.Exists vm key w1 = (Ok false, w1) ∧
         vault_manager.Delete vm key w1 = (Err missing, w1)) ∧
  (b !! key = None →
   vault_manager.Delete vm key w = (Err missing, w) ∧
   ∀ value format description tags,
     vault_manager.Update vm key value format description tags w = (Err missing, w)).
Proof.
  intros Hb missing.
  assert (Hex : ∀ w0 b0, boltdb w0 !! "vault" = Some b0 → b0 !! key = None →
            storage.Exists (db vm) "vault" key w0 = (Ok false, w0)).
  { intros w0 b0 Hb0 Hk. unfold storage.Exists, bbolt.View. rewrite Hb0.
    rewrite bool_decide_eq_false_2; [done|]. rewrite Hk. by intros [? ?]. }
  assert (Habsent : ∀ w0 b0, boltdb w0 !! "vault" = Some b0 → b0 !! key = None →
    vault_manager.Delete vm key w0 = (Err missing, w0) ∧
    ∀ value format description tags,
      vault_manager.Update vm key value format description tags w0 = (Err missing, w0)).
  { intros w0 b0 Hb0 Hk.
    split; [|intros value format description tags];
      unfold vault_manager.Delete, vault_manager.Update;
      rewrite (bind_Ok _ _ _ false w0)
        by (unfold wrapM; by rewrite (Hex _ _ Hb0 Hk)); done. }
  split; [|by apply Habsent].
  intros Hk. eexists. split_and!; [|done| |].
  - unfold vault_manager.Delete.
    rewrite (bind_Ok _ _ _ true w).
    + cbn [negb]. unfold storage.Delete, bbolt.Update. by rewrite Hb.
    + unfold wrapM, storage.Exists, bbolt.View. rewrite Hb.
      by rewrite bool_decide_eq_true_2.
  - apply (Hex _ (delete key b)); [apply lookup_insert_eq|apply lookup_delete_eq].
  - apply (Habsent _ (delete key b)); [apply lookup_insert_eq|apply lookup_delete_eq].
Qed.

Lemma deleteEach_run vm keys w b :
  boltdb w !! "vault" = Some b →
  vault_manager.deleteEach vm keys w
  = (Ok tt, set_boltdb (λ _, <["vault" := foldl (λ m key, delete key m) b keys]> (boltdb w)) w).
Proof.
  revert w b. induction keys as [|key keys IH]; intros w b Hb.
  - cbn [vault_manager.deleteEach foldl]. rewrite insert_id by done.
    by rewrite set_boltdb_id.
  - cbn [vault_manager.deleteEach foldl].
    rewrite (bind_Ok _ _ _ tt (set_boltdb (λ _, <["vault" := delete key b]> (boltdb w)) w)).
    + rewrite (IH _ (delete key b)) by apply lookup_insert_eq.
      f_equal. destruct w. unfold set_boltdb. simpl. f_equal. apply insert_insert_eq.
    + unfold wrapM, storage.Delete, bbolt.Update. by rewrite Hb.
Qed.

Lemma foldl_delete_lookup (keys : list string) (b : gmap string bytes) key :
  foldl (λ m key, delete key m) b keys !! key
  = if decide (key ∈ keys) then None else b !! key.
Proof.
  revert b. induction keys as [|k keys IH]; intros b; cbn [foldl].
  - by rewrite decide_False by apply not_elem_of_nil.
  - rewrite IH. destruct (decide (key ∈ keys)) as [Hin|Hin].
    + rewrite decide_True; [done|by right].
    + destruct (decide (k = key)) as [->|Hne].
      * rewrite lookup_delete_eq. rewrite decide_True; [done|left].
      * rewrite lookup_delete_ne by done. rewrite decide_False; [done|].
        by intros [?|?]%elem_of_cons.
Qed.

(** X18. [Clear] empties the vault bucket and leaves every other
    bucket, and the rest of the world, as it was; when the store has no
    vault bucket it fails and changes nothing. *)
Theorem Clear_empties (vm : VaultManager) (w : World) :
  match boltdb w !! "vault" with
  | Some _ =>
      vault_manager.Clear vm w = (Ok tt, set_boltdb <["vault" := ∅]> w)
  | None =>
      vault_manager.Clear vm w
      = (Err (Wrap "failed to list vault keys" (ErrBucketNotFound "vault")), w)
  end.
Proof.
  unfold vault_manager.Clear.
  destruct (boltdb w !! "vault") as [b|] eqn:Hb.
  - rewrite (bind_Ok _ _ _ (bbolt_tx.pairs b).*1 w)
      by (unfold wrapM; by rewrite (List_Ok _ _ _ _ Hb)).
    rewrite (deleteEach_run _ _ _ _ Hb). f_equal. unfold set_boltdb. f_equal. f_equal.
    apply map_eq. intros key. rewrite foldl_delete_lookup.
    destruct (decide _) as [|Hnotin]; [done|].
    rewrite lookup_empty. apply eq_None_not_Some. intros Hsome.
    apply Hnotin. by apply pairs_keys.
  - unfold storage_scan.List, bbolt.View. munfold. by rewrite Hb.
Qed.

Lemma filter_none {A} (P : A → Prop) `{∀ x, Decision (P x)} (l : list A) :
  (∀ x, x ∈ l → ¬ P x) → filter P l = [].
Proof.
  induction l as [|x l IH]; intros Hl; [done|].
  rewrite filter_cons, decide_False, IH; [done| |].
  - intros y ?. apply Hl. by right.
  - apply Hl. left.
Qed.

(** X19. [Search] of the manager only reaches entries whose key
    contains the query, byte for byte: when no key of the vault
    contains it, nothing is found and no entry is read, whatever the
    descriptions, tags and values hold. *)
Theorem Search_needs_key_match (vm : VaultManager) (query : string) (w : World)
    (b : gmap string bytes) :
  boltdb w !! "vault" = Some b →
  (∀ key, is_Some (b !! key) → ¬ ∃ pre post, key = pre +:+ query +:+ post) →
  vault_manager.Search vm query w = (Ok [], w).
Proof.
  intros Hb Hnone. unfold vault_manager.Search.
  rewrite (bind_Ok _ _ _ [] w); [done|].
  unfold wrapM. rewrite (Search_Ok _ _ _ _ _ Hb).
  rewrite filter_none; [done|].
  intros key Hin%pairs_keys Hc%contains_decides. by apply (Hnone key).
Qed.

(** X20. When [SetMetadata] of the manager has returned no error,
    what it gave the store to write under the key is an entry that has
    the value under the metadata key.  [GetMetadata] of the same entry
    and metadata key then returns that value when the entry survives
    the trip through JSON, which an entry with a metadata key or value
    that is not valid UTF-8 does not. *)
Theorem SetMetadata_then_GetMetadata (vm : VaultManager) (key metaKey value : string)
    (w w1 : World) :
  vault_manager.SetMetadata vm key metaKey value w = (Ok tt, w1) →
  ∃ e w0,
    storage.Set_ (db vm) "vault" key e w0 = (Ok tt, w1) ∧
    vault_entry.GetMetadata metaKey e = Some value ∧
    (JsonSerializable e →
     ∃ w2, vault_manager.GetMetadata vm key metaKey w1 = (Ok (Some value), w2)).
Proof.
  intros Hset. unfold vault_manager.SetMetadata in Hset.
  apply bind_Ok_inv in Hset as (e & w0 & _ & Hset).
  apply bind_Ok_inv in Hset as (e' & w0' & Hmeta & Hset).
  unfold vault_entry.SetMetadata, time_Now in Hmeta. munfold.
  injection Hmeta as <- <-.
  eexists _, _. split; [exact Hset|].
  split; [unfold vault_entry.GetMetadata; simpl; by rewrite lookup_insert_eq|].
  intros Hjson.
  pose proof (Get_after_Set_gen _ _ _ _ _ _ _ Hset Hjson) as Hget.
  apply vault_Get_run in Hget.
  unfold vault_manager.GetMetadata. eexists.
  erewrite bind_Ok; [|unfold wrapM; rewrite Hget; reflexivity].
  unfold vault_entry.GetMetadata. munfold. simpl. by rewrite lookup_insert_eq.
Qed.

(** X21. When [AddTag] of the manager has returned no error on an
    entry the store can read, what it gave the store to write under
    the key is an entry that has the tag and every tag the entry had;
    when [RemoveTag] has returned no error on an entry whose tags were
    free of duplicates, it is an entry that does not have the tag and
    has every other tag the entry had.  In both cases the store holds
    that very entry when the entry survives the trip through JSON,
    which an entry with a tag that is not valid UTF-8 does not. *)
Theorem manager_tags (vm : VaultManager) (key tag : string) (e0 : VaultEntry)
    (w w1 : World) :
  storage.Get (db vm) "vault" key w = (Ok e0, w) →
  (vault_manager.AddTag vm key tag w = (Ok tt, w1) →
   ∃ e1 w0, storage.Set_ (db vm) "vault" key e1 w0 = (Ok tt, w1) ∧
            vault_entry.HasTag tag e1 = true ∧
            (∀ t, t ∈ Tags e1 ↔ t ∈ Tags e0 ∨ t = tag) ∧
            (JsonSerializable e1 →
             storage.Get (db vm) "vault" key w1 = (Ok e1, w1))) ∧
  (vault_manager.RemoveTag vm key tag w = (Ok tt, w1) → NoDup (Tags e0) →
   ∃ e1 w0, storage.Set_ (db vm) "vault" key e1 w0 = (Ok tt, w1) ∧
            vault_entry.HasTag tag e1 = false ∧
            (∀ t, t ∈ Tags e1 ↔ t ∈ Tags e0 ∧ t ≠ tag) ∧
            (JsonSerializable e1 →
             storage.Get (db vm) "vault" key w1 = (Ok e1, w1))).
Proof.
  intros Hget0. split.
  - intros Hadd. unfold vault_manager.AddTag in Hadd.
    apply bind_Ok_inv in Hadd as (e & w0 & Hvget%wrapM_Ok_inv & Hadd).
    apply vault_Get_Ok in Hvget as (e0' & Hget0' & -> & _).
    rewrite Hget0 in Hget0'. injection Hget0' as <-.
    apply bind_Ok_inv in Hadd as (e1 & w2 & Htag & Hset).
    rewrite AddTag_run in Htag. simpl in Htag.
    exists e1, w2. split; [exact Hset|].
    split_and!; [| |intros Hjson; by apply (Get_after_Set_gen _ _ _ _ _ _ _ Hset Hjson)].
    all: rewrite ?HasTag_elem, ?bool_decide_eq_true.
    all: destruct (decide (tag ∈ Tags e0)) as [Hin|Hin]; injection Htag as <- <-; simpl.
    + done.
    + apply elem_of_app; right; left.
    + intros t. split; [tauto|]. by intros [?| ->].
    + intros t. by rewrite elem_of_app, list_elem_of_singleton.
  - intros Hrm Hnd. unfold vault_manager.RemoveTag in Hrm.
    apply bind_Ok_inv in Hrm as (e & w0 & Hvget%wrapM_Ok_inv & Hrm).
    apply vault_Get_Ok in Hvget as (e0' & Hget0' & -> & _).
    rewrite Hget0 in Hget0'. injection Hget0' as <-.
    apply bind_Ok_inv in Hrm as (e1 & w2 & Htag & Hset).
    edestruct (RemoveTag_run tag (set_UpdatedAt (clock w (ticks w)) e0))
      as (e1' & w2' & Hrun & _ & Hmem & _); [done|].
    rewrite Hrun in Htag. injection Htag as <- <-.
    exists e1', w2'. split; [exact Hset|].
    split_and!; [|done|intros Hjson; by apply (Get_after_Set_gen _ _ _ _ _ _ _ Hset Hjson)].
    rewrite HasTag_elem. apply bool_decide_eq_false.
    rewrite Hmem. tauto.
Qed.

Lemma getEach_all vm (b : gmap string bytes) keys :
  NoDup keys →
  ∀ w acc bnow,
    boltdb w !! "vault" = Some bnow →
    (∀ key, key ∈ keys → bnow !! key = b !! key) →
    ∃ entries kept w',
      vault_manager.getEach vm (λ _, true) keys acc w = (Ok (acc ++ entries), w') ∧
      sublist kept keys ∧
      (∀ key, key ∈ kept ↔ key ∈ keys ∧ ∃ e0, stored (db vm) b key e0) ∧
      Forall2 (λ e key, ∃ e0 t, stored (db vm) b key e0 ∧ e = set_UpdatedAt t e0)
              entries kept.
Proof.
  induction 1 as [|key keys Hnotin Hnd IH]; intros w acc bnow Hb Hsame.
  - exists [], [], w. rewrite app_nil_r. split_and!; try done.
    intros key. split; [by intros ?%elem_of_nil|]. by intros [?%elem_of_nil _].
  - cbn [vault_manager.getEach]. unfold mbind at 1, M_bind at 1, try at 1.
    pose proof (Get_stored (db vm) "vault" key bnow w Hb) as Hst.
    assert (Hsame_key : ∀ e, stored (db vm) bnow key e ↔ stored (db vm) b key e).
    { intros e. unfold stored. rewrite (Hsame key) by left. done. }
    destruct (Get vm key w) as [[e'|err] w1] eqn:Hvget.
    + (* the entry is read, and written back *)
      apply vault_Get_Ok in Hvget as (e0 & Hget & -> & ->).
      rewrite Hget in Hst. apply Hsame_key in Hst.
      destruct (Set_bucket (db vm) "vault" key
                  (set_UpdatedAt (clock w (ticks w)) e0) bnow (set_ticks S w) Hb)
        as (b1 & Hb1 & Hother).
      destruct (IH _ (acc ++ [set_UpdatedAt (clock w (ticks w)) e0]) b1 Hb1)
        as (entries & kept & w' & Hrun & Hsub & Hmem & Hall).
      { intros k Hk. rewrite Hother; [apply Hsame; by right|]. by intros ->. }
      exists (set_UpdatedAt (clock w (ticks w)) e0 :: entries), (key :: kept), w'.
      split_and!.
      * rewrite Hrun. by rewrite <- app_assoc.
      * by apply sublist_skip.
      * intros k. rewrite !elem_of_cons, Hmem. split.
        -- intros [->|[? ?]]; [|tauto]. split; [by left|by exists e0].
        -- intros [[->|?] ?]; [by left|tauto].
      * constructor; [|done]. by exists e0, (clock w (ticks w)).
    + (* the entry cannot be read: it is skipped *)
      assert (w1 = w) as ->.
      { unfold Get in Hvget. munfold.
        pose proof (Get_world (V := VaultEntry) (db vm) "vault" key w) as Hw.
        destruct (storage.Get (db vm) "vault" key w) as [[?|?] ?]; simpl in *;
          [|by simplify_eq].
        unfold time_Now in Hvget. done. }
      assert (Hunread : ∀ e, ¬ stored (db vm) b key e).
      { intros e He%Hsame_key. revert He.
        unfold Get in Hvget. munfold.
        destruct (storage.Get (db vm) "vault" key w) as [[?|?] ?]; [|by apply Hst].
        unfold time_Now in Hvget. done. }
      destruct (IH w acc bnow Hb) as (entries & kept & w' & Hrun & Hsub & Hmem & Hall).
      { intros k Hk. apply Hsame. by right. }
      exists entries, kept, w'. split_and!; try done.
      * by apply sublist_cons.
      * intros k. rewrite elem_of_cons, Hmem. split; [tauto|].
        intros [[->|?] [e He]]; [by destruct (Hunread e)|]. split; [done|by exists e].
Qed.

(** X22. [List] of the manager returns one entry for every key of the
    vault whose stored value can be read, in the order of the keys,
    and skips the others: each entry is what is stored, with
    [UpdatedAt] set to the time it was read.  [GetByTag] and
    [GetByFormat] return, of these entries, the ones that have the tag,
    and the ones whose format is the one asked for, letter for
    letter. *)
Theorem List_reads_each (vm : VaultManager) (w : World) (b : gmap string bytes) :
  boltdb w !! "vault" = Some b →
  ∃ keys kept entries w',
    storage_scan.List (db vm) "vault" w = (Ok keys, w) ∧
    vault_manager.List vm w = (Ok entries, w') ∧
    (∀ tag, vault_manager.GetByTag vm tag w
            = (Ok (List.filter (vault_entry.HasTag tag) entries), w')) ∧
    (∀ format, vault_manager.GetByFormat vm format w
               = (Ok (List.filter (λ e, bool_decide (Format e = format)) entries), w')) ∧
    sublist kept keys ∧
    (∀ key, key ∈ kept ↔ ∃ e0, stored (db vm) b key e0) ∧
    Forall2 (λ e key, ∃ e0 t, stored (db vm) b key e0 ∧ e = set_UpdatedAt t e0)
            entries kept.
Proof.
  intros Hb. destruct (pairs_keys b) as (_ & Hnd & Hin).
  destruct (getEach_all vm b _ Hnd w [] b Hb) as (entries & kept & w' & Hrun & Hsub & Hmem & Hall);
    [done|].
  assert (Hlist : vault_manager.List vm w = (Ok entries, w')).
  { unfold vault_manager.List.
    by rewrite (bind_Ok _ _ _ (bbolt_tx.pairs b).*1 w)
      by (unfold wrapM; by rewrite (List_Ok _ _ _ _ Hb)). }
  exists (bbolt_tx.pairs b).*1, kept, entries, w'.
  split_and!; try done.
  - by apply List_Ok.
  - intros tag. unfold vault_manager.GetByTag. by rewrite (bind_Ok _ _ _ _ _ Hlist).
  - intros format. unfold vault_manager.GetByFormat. by rewrite (bind_Ok _ _ _ _ _ Hlist).
  - intros key. rewrite Hmem. split; [by intros [_ ?]|].
    intros [e0 He0]. split; [|by exists e0].
    apply Hin. destruct He0 as (ct & _ & Hct & _). by exists ct.
Qed.
End manager_props.

(* ===================================================================== *)
(** ** The lock service                                                   *)
(* ===================================================================== *)

Section content_props.
Context `{GoLib} `{!GcmLaws}.
Import dirlock.

(** X23. [decryptContent] undoes [encryptContent].  Under a key of 16,
    24 or 32 bytes and with 12 random bytes to draw, [encryptContent]
    returns the nonce followed by the sealed content, 28 bytes longer
    than the content, and [decryptContent] gives the content back;
    whatever [encryptContent] returns decrypts to the content. *)
Theorem decryptContent_encryptContent (content key : bytes) (w : World) :
  aes_key_size_ok (length key) = true →
  (gcm_NonceSize ≤ length (rand_Reader w))%nat →
  (∃ encrypted w', encryptContent content key w = (Ok encrypted, w') ∧
     length encrypted = (length content + 28)%nat ∧
     decryptContent encrypted key = Ok content) ∧
  ∀ w0 encrypted w', encryptContent content key w0 = (Ok encrypted, w') →
                     decryptContent encrypted key = Ok content.
Proof.
  intros Hk Hr. split; [|intros w0 encrypted w'; apply encryptContent_Ok].
  assert (Henc : encryptContent content key w
    = (Ok (take gcm_NonceSize (rand_Reader w)
           ++ gcm_Seal key (take gcm_NonceSize (rand_Reader w)) content),
       set_rand_Reader (drop gcm_NonceSize) w)).
  { unfold encryptContent, aes_NewCipher, rand_ReadFull. munfold. rewrite Hk.
    by rewrite decide_True by done. }
  eexists _, _. split; [exact Henc|]. split.
  - rewrite length_app, gcm_Seal_length, length_take. unfold gcm_NonceSize in *. lia.
  - by eapply encryptContent_Ok.
Qed.
End content_props.


Section service_props.
Context `{GoLib} `{!GcmLaws}.
Context `{Json models_lock.LockedDirectoryJSON} `{!JsonLaws models_lock.LockedDirectoryJSON}.
Import storage dirlock dirlock_service.

Lemma IsLocked_run s path abs w :
  filepath_Abs path = Ok abs →
  (strings_HasPrefix path "/" = true → path = abs) →
  IsLocked s path w = storage.Exists (DB s) "locked_dirs" abs w.
Proof.
  intros Habs Hclean. unfold IsLocked.
  destruct (strings_HasPrefix path "/"); cbn [negb].
  - by rewrite <- Hclean.
  - by rewrite Habs.
Qed.




(** X26. [IsLocked] follows [Lock] and [Unlock].  After [Lock] has
    returned no error it answers true, and locking the path again is
    refused, for the path holds a file; after [Unlock] has returned no
    error it answers false.  (A path that starts with a slash is
    looked up as it is written, so it must be the absolute path the
    record is kept under.) *)
Theorem IsLocked_tracks (s : Service) (path abs : string) (w w1 : World) :
  filepath_Abs path = Ok abs →
  (strings_HasPrefix path "/" = true → path = abs) →
  (∀ password hide,
     Lock s path true password hide w = (Ok tt, w1) →
     IsLocked s path w1 = (Ok true, w1) ∧
     ∀ useMaster' password' hide',
       Lock s path useMaster' password' hide' w1 = (Err (ErrNotADirectory abs), w1)) ∧
  (∀ masterPassword provided,
     Unlock s path masterPassword provided w = (Ok tt, w1) →
     IsLocked s path w1 = (Ok false, w1)).
Proof.
  intros Habs Hclean. split.
  - intros password hide Hlock.
    destruct (Lock_master_Ok _ _ _ _ _ _ _ Habs Hlock) as [[data Hfile] [now Hget]].
    split.
    + rewrite (IsLocked_run _ _ _ _ Habs Hclean).
      apply Get_Ok in Hget as (b & ct & _ & Hb & Hct & _).
      unfold storage.Exists, bbolt.View. rewrite Hb.
      by rewrite bool_decide_eq_true_2 by by rewrite Hct.
    + intros useMaster' password' hide'. unfold Lock, os_Stat. munfold.
      by rewrite Habs, Hfile.
  - intros masterPassword provided Hunlock.
    rewrite (IsLocked_run _ _ _ _ Habs Hclean).
    unfold Unlock in Hunlock. rewrite Habs in Hunlock.
    apply bind_Ok_inv in Hunlock as (? & ? & [[= <-] ->]%lift_Ok_inv & Hunlock).
    apply bind_Ok_inv in Hunlock as (got & w0 & Hgot & Hunlock).
    unfold try in Hgot.
    pose proof (Get_world (V := models_lock.LockedDirectory) (DB s) "locked_dirs" abs w) as Hw.
    destruct (storage.Get (DB s) "locked_dirs" abs w) as [[rec|] w0'] eqn:Hget;
      simpl in Hw; subst w0'; injection Hgot as <- <-; [|done].
    apply Get_Ok in Hget as (b & ct & _ & Hb & Hct & _).
    destruct (_ && _); [done|].
    apply bind_Ok_inv in Hunlock as (key & w2 & Hkey & Hunlock).
    assert (Hdb2 : boltdb w2 = boltdb w).
    { destruct (models_lock.UseMaster rec); by apply lift_Ok_inv in Hkey as [_ ->]. }
    apply bind_Ok_inv in Hunlock as ([] & w3 & Hdec & Hunlock).
    pose proof (DecryptDirectory_keeps_boltdb abs key w2) as Hdb3.
    apply wrapM_Ok_inv in Hdec. rewrite Hdec in Hdb3. simpl in Hdb3.
    revert Hunlock. munfold. unfold time_Now. intros [= <-].
    unfold storage.Delete, bbolt.Update, chflags, os_Chmod.
    repeat case_match; simpl; simplify_eq/=;
      unfold storage.Exists, bbolt.View; simpl;
      rewrite ?lookup_insert_eq;
      try (rewrite bool_decide_eq_false_2;
             [done|rewrite lookup_delete_eq; by intros [? ?]]);
      congruence.
Qed.
(** X27. [Stamp] of a path with a record sets [LastAccessed] of the
    stored record to the time of the call and keeps every other field;
    the write happens when it can (its error is not looked at).
    [Stamp] of a path the store cannot read a record for does nothing,
    and does not read the clock. *)
Theorem Stamp_touches_LastAccessed (s : Service) (path : string) (w : World) :
  (∀ rec data,
     storage.Get (DB s) "locked_dirs" path w = (Ok rec, w) →
     let rec' := set_LastAccessed (clock w (ticks w)) rec in
     json_Marshal rec' = Ok data →
     (crypto.NonceSize ≤ length (rand_Reader w))%nat →
     path ≠ "" → Z.of_nat (String.length path) ≤ bbolt.MaxKeySize →
     Z.of_nat (length data) + 28 ≤ bbolt.MaxValueSize →
     ∃ w', Stamp s path w = (Ok tt, w') ∧
           storage.Get (DB s) "locked_dirs" path w' = (Ok rec', w')) ∧
  (∀ e, storage.Get (V := models_lock.LockedDirectory) (DB s) "locked_dirs" path w
        = (Err e, w) →
        Stamp s path w = (Ok tt, w)).
Proof.
  split.
  - intros rec data Hget rec' Hm Hr Hk0 Hk1 Hv.
    pose proof (Get_Password_empty _ _ _ _ _ _ Hget) as Hpw.
    destruct (Get_Ok _ _ _ _ _ _ Hget) as (b & ct & pt & Hb & Hct & Hd & Hj & Haes).
    destruct (Set_succeeds (DB s) "locked_dirs" path rec' (set_ticks S w) data b)
      as [w1 Hset]; try done.
    exists w1. split.
    + unfold Stamp. munfold. rewrite Hget. unfold time_Now. cbn beta iota.
      fold rec'. by rewrite Hset.
    + eapply Get_after_Set_gen; [done|].
      intros data' Hm'. rewrite (LockedDirectory_Unmarshal_Marshal _ _ Hm').
      f_equal. destruct rec. simpl in *. by subst.
  - intros e Hget. unfold Stamp. munfold. by rewrite Hget.
Qed.

Lemma service_getEach s (b : gmap string bytes) w keys acc :
  boltdb w !! "locked_dirs" = Some b →
  ∃ recs kept,
    getEach s keys acc w = (Ok (acc ++ recs), w) ∧
    sublist kept keys ∧
    (∀ key, key ∈ kept ↔ key ∈ keys ∧ ∃ rec : models_lock.LockedDirectory,
                                        stored (DB s) b key rec) ∧
    Forall2 (λ rec key, stored (DB s) b key rec) recs kept.
Proof.
  intros Hb. revert acc. induction keys as [|key keys IH]; intros acc.
  - exists [], []. rewrite app_nil_r. split_and!; try done.
    intros key. split; [by intros ?%elem_of_nil|]. by intros [?%elem_of_nil _].
  - cbn [getEach]. unfold mbind at 1, M_bind at 1, try at 1.
    pose proof (Get_stored (V := models_lock.LockedDirectory) (DB s) "locked_dirs" key b w Hb)
      as Hst.
    pose proof (Get_world (V := models_lock.LockedDirectory) (DB s) "locked_dirs" key w) as Hw.
    destruct (storage.Get (DB s) "locked_dirs" key w) as [[rec|err] w1];
      simpl in Hw; subst w1.
    + destruct (IH (acc ++ [rec])) as (recs & kept & Hrun & Hsub & Hmem & Hall).
      exists (rec :: recs), (key :: kept). split_and!.
      * rewrite Hrun. by rewrite <- app_assoc.
      * by apply sublist_skip.
      * intros k. rewrite !elem_of_cons, Hmem. split.
        -- intros [->|[? ?]]; [|tauto]. split; [by left|by exists rec].
        -- intros [[->|?] ?]; [by left|tauto].
      * by constructor.
    + destruct (IH acc) as (recs & kept & Hrun & Hsub & Hmem & Hall).
      exists recs, kept. split_and!; try done.
      * by apply sublist_cons.
      * intros k. rewrite elem_of_cons, Hmem. split; [tauto|].
        intros [[->|?] [rec Hrec]]; [by destruct (Hst rec)|].
        split; [done|by exists rec].
Qed.

(** X28. [List] of the service returns the record of every key of the
    bucket whose stored value can be read, in the order of the keys,
    skips the others, and changes nothing.  No record it returns
    carries a password. *)
Theorem service_List_reads_each (s : Service) (w : World) (b : gmap string bytes) :
  boltdb w !! "locked_dirs" = Some b →
  ∃ keys kept recs,
    storage_scan.List (DB s) "locked_dirs" w = (Ok keys, w) ∧
    List s w = (Ok recs, w) ∧
    sublist kept keys ∧
    (∀ key, key ∈ kept ↔ ∃ rec : models_lock.LockedDirectory, stored (DB s) b key rec) ∧
    Forall2 (λ rec key, stored (DB s) b key rec) recs kept ∧
    Forall (λ rec, models_lock.Password rec = "") recs.
Proof.
  intros Hb. destruct (pairs_keys b) as (_ & _ & Hin).
  destruct (service_getEach s b w (bbolt_tx.pairs b).*1 [] Hb)
    as (recs & kept & Hrun & Hsub & Hmem & Hall).
  exists (bbolt_tx.pairs b).*1, kept, recs. split_and!; try done.
  - by apply List_Ok.
  - unfold List. by rewrite (bind_Ok _ _ _ _ _ (List_Ok _ _ _ _ Hb)).
  - intros key. rewrite Hmem. split; [by intros [_ ?]|].
    intros [rec Hrec]. split; [|by exists rec].
    apply Hin. destruct Hrec as (ct & _ & Hct & _). by exists ct.
  - clear Hrun Hmem Hsub. induction Hall as [|rec key recs kept Hrec _ IH]; constructor; [|done].
    destruct Hrec as (ct & pt & _ & _ & Hj). simpl in Hj.
    unfold mbind, result_bind in Hj.
    destruct (json_Unmarshal pt) as [j|]; [|done]. by injection Hj as <-.
Qed.
End service_props.

(* ===================================================================== *)
(** ** Passwords                                                          *)
(* ===================================================================== *)

Section utf8_props.
Import utf8.

Lemma value_bounds b : 0 ≤ value b < 256.
Proof.
  unfold value. pose proof (Byte.to_N_bounded b). lia.
Qed.

Lemma lor_ge_128_l a b : 0 ≤ a → 0 ≤ b → 128 ≤ a → 128 ≤ Z.lor a b.
Proof.
  intros Ha Hb Hge.
  destruct (Z.lt_ge_cases (Z.lor a b) 128) as [Hlt|]; [|done].
  assert (Hpos : 0 < Z.lor a b).
  { assert (0 ≤ Z.lor a b) by by apply Z.lor_nonneg.
    destruct (decide (Z.lor a b = 0)) as [H0|]; [|lia].
    apply Z.lor_eq_0_iff in H0. lia. }
  change 128 with (2 ^ 7) in Hlt. apply Z.log2_lt_pow2 in Hlt; [|done].
  rewrite Z.log2_lor in Hlt by done.
  assert (Z.log2 a < 7) by lia.
  assert (a < 2 ^ 7) by (apply Z.log2_lt_pow2; lia). lia.
Qed.

Lemma lor_ge_128_r a b : 0 ≤ a → 0 ≤ b → 128 ≤ b → 128 ≤ Z.lor a b.
Proof. intros. rewrite Z.lor_comm. by apply lor_ge_128_l. Qed.

Lemma land_mask_nonneg a m : 0 ≤ m → 0 ≤ Z.land a m.
Proof. intros. apply Z.land_nonneg. by right. Qed.

Lemma shiftl_mask_nonneg a m k : 0 ≤ m → 0 ≤ Z.shiftl (Z.land a m) k.
Proof. intros. apply Z.shiftl_nonneg. by apply land_mask_nonneg. Qed.

Lemma land_ones_mod a n : 0 ≤ n → Z.land a (Z.ones n) = a mod 2 ^ n.
Proof. apply Z.land_ones. Qed.

(** A code point below 128 is a byte below 128, decoded alone; every
    other code point is 128 or more and takes bytes that are all 128
    or more. *)
Lemma DecodeRune_cases b0 rest :
  let '(char, width) := DecodeRune (b0 :: rest) in
  (value b0 < 128 ∧ char = value b0 ∧ width = 1%nat) ∨
  (128 ≤ value b0 ∧ 128 ≤ char ∧ (1 ≤ width)%nat ∧
   Forall (λ b, 128 ≤ value b) (take width (b0 :: rest))).
Proof.
  pose proof (value_bounds b0) as H0.
  assert (Hone : 128 ≤ value b0 → Forall (λ b, 128 ≤ value b) (take 1 (b0 :: rest))).
  { intros. simpl. rewrite take_0. repeat (constructor; [lia|]). constructor. }
  assert (Herr : 128 ≤ value b0 →
    (value b0 < 128 ∧ RuneError = value b0 ∧ 1%nat = 1%nat) ∨
    (128 ≤ value b0 ∧ 128 ≤ RuneError ∧ (1 ≤ 1)%nat ∧
     Forall (λ b, 128 ≤ value b) (take 1 (b0 :: rest)))).
  { intros. right. split_and!; [done|by unfold RuneError|lia|by apply Hone]. }
  unfold DecodeRune, between.
  destruct (value b0 <? 128) eqn:Hascii.
  { left. apply Z.ltb_lt in Hascii. done. }
  apply Z.ltb_ge in Hascii.
  destruct ((194 <=? value b0) && (value b0 <=? 223)) eqn:H2.
  { apply andb_true_iff in H2 as [Hlo%Z.leb_le Hhi%Z.leb_le].
    destruct rest as [|b1 rest]; [by apply Herr|].
    pose proof (value_bounds b1) as H1.
    destruct ((128 <=? value b1) && (value b1 <=? 191)) eqn:Hc1; [|by apply Herr].
    apply andb_true_iff in Hc1 as [Hlo1%Z.leb_le Hhi1%Z.leb_le].
    right. split_and!; [done| |lia|].
    - apply lor_ge_128_l; [by apply shiftl_mask_nonneg|by apply land_mask_nonneg|].
      rewrite Z.shiftl_mul_pow2 by done.
      change 31 with (Z.ones 5). rewrite land_ones_mod by done.
      change (2 ^ 5) with 32. change (2 ^ 6) with 64.
      assert (2 ≤ value b0 mod 32); [|lia].
      Z.div_mod_to_equations. lia.
    - simpl. rewrite take_0. repeat (constructor; [lia|]). constructor. }
  destruct ((224 <=? value b0) && (value b0 <=? 239)) eqn:H3.
  { apply andb_true_iff in H3 as [Hlo%Z.leb_le Hhi%Z.leb_le].
    destruct rest as [|b1 [|b2 rest]]; [by apply Herr..|].
    pose proof (value_bounds b1) as H1. pose proof (value_bounds b2) as H2'.
    match goal with |- context [if ?c then _ else _] => destruct c eqn:Hc end;
      [|by apply Herr].
    apply andb_true_iff in Hc as [Hc1 Hc2].
    apply andb_true_iff in Hc1 as [Hlo1%Z.leb_le Hhi1%Z.leb_le].
    apply andb_true_iff in Hc2 as [Hlo2%Z.leb_le Hhi2%Z.leb_le].
    assert (Hb1 : 128 ≤ value b1 ≤ 191).
    { revert Hlo1 Hhi1. destruct (value b0 =? 224), (value b0 =? 237); lia. }
    right. split_and!; [done| |lia|].
    - apply lor_ge_128_l;
        [apply Z.lor_nonneg; split; by apply shiftl_mask_nonneg
        |by apply land_mask_nonneg|].
      rewrite !Z.shiftl_mul_pow2 by done.
      change 15 with (Z.ones 4). change 63 with (Z.ones 6).
      rewrite !land_ones_mod by done.
      change (2 ^ 4) with 16. change (2 ^ 6) with 64. change (2 ^ 12) with 4096.
      destruct (decide (value b0 = 224)) as [He0|Hne0].
      + apply lor_ge_128_r.
        * apply Z.mul_nonneg_nonneg; [|done]. by apply Z.mod_pos_bound.
        * apply Z.mul_nonneg_nonneg; [|done]. by apply Z.mod_pos_bound.
        * rewrite He0 in Hlo1. simpl in Hlo1.
          assert (32 ≤ value b1 mod 64); [|lia].
          Z.div_mod_to_equations. lia.
      + apply lor_ge_128_l.
        * apply Z.mul_nonneg_nonneg; [|done]. by apply Z.mod_pos_bound.
        * apply Z.mul_nonneg_nonneg; [|done]. by apply Z.mod_pos_bound.
        * assert (1 ≤ value b0 mod 16); [|lia].
          Z.div_mod_to_equations. lia.
    - simpl. rewrite take_0. repeat (constructor; [lia|]). constructor. }
  destruct ((240 <=? value b0) && (value b0 <=? 244)) eqn:H4; [|by apply Herr].
  apply andb_true_iff in H4 as [Hlo%Z.leb_le Hhi%Z.leb_le].
  destruct rest as [|b1 [|b2 [|b3 rest]]]; [by apply Herr..|].
  pose proof (value_bounds b1) as H1. pose proof (value_bounds b2) as H2'.
  pose proof (value_bounds b3) as H3'.
  match goal with |- context [if ?c then _ else _] => destruct c eqn:Hc end;
    [|by apply Herr].
  apply andb_true_iff in Hc as [Hc12 Hc3].
  apply andb_true_iff in Hc12 as [Hc1 Hc2].
  apply andb_true_iff in Hc1 as [Hlo1%Z.leb_le Hhi1%Z.leb_le].
  apply andb_true_iff in Hc2 as [Hlo2%Z.leb_le Hhi2%Z.leb_le].
  apply andb_true_iff in Hc3 as [Hlo3%Z.leb_le Hhi3%Z.leb_le].
  assert (Hb1 : 128 ≤ value b1 ≤ 191).
  { revert Hlo1 Hhi1. destruct (value b0 =? 240), (value b0 =? 244); lia. }
  right. split_and!; [done| |lia|].
  - apply lor_ge_128_l;
      [apply Z.lor_nonneg; split;
         [apply Z.lor_nonneg; split|]; by apply shiftl_mask_nonneg
      |by apply land_mask_nonneg|].
    apply lor_ge_128_l;
      [apply Z.lor_nonneg; split; by apply shiftl_mask_nonneg
      |by apply shiftl_mask_nonneg|].
    rewrite !Z.shiftl_mul_pow2 by done.
    change 7 with (Z.ones 3). change 63 with (Z.ones 6).
    rewrite !land_ones_mod by done.
    change (2 ^ 3) with 8. change (2 ^ 6) with 64.
    change (2 ^ 12) with 4096. change (2 ^ 18) with 262144.
    destruct (decide (value b0 = 240)) as [He0|Hne0].
    + apply lor_ge_128_r.
      * apply Z.mul_nonneg_nonneg; [|done]. by apply Z.mod_pos_bound.
      * apply Z.mul_nonneg_nonneg; [|done]. by apply Z.mod_pos_bound.
      * rewrite He0 in Hlo1. simpl in Hlo1.
        assert (16 ≤ value b1 mod 64); [|lia].
        Z.div_mod_to_equations. lia.
    + apply lor_ge_128_l.
      * apply Z.mul_nonneg_nonneg; [|done]. by apply Z.mod_pos_bound.
      * apply Z.mul_nonneg_nonneg; [|done]. by apply Z.mod_pos_bound.
      * assert (1 ≤ value b0 mod 8); [|lia].
        Z.div_mod_to_equations. lia.
  - simpl. rewrite take_0. repeat (constructor; [lia|]). constructor.
Qed.

Lemma filter_ascii_none (l : bytes) :
  Forall (λ b, 128 ≤ value b) l → filter (λ c, c < 128) (value <$> l) = [].
Proof.
  induction 1 as [|b l Hb _ IH]; [done|].
  rewrite fmap_cons, filter_cons, decide_False by lia. done.
Qed.

(** The code points below 128 that the loop visits are the bytes below
    128 of the string, in order. *)
Lemma runes_from_ascii fuel (s : bytes) :
  (length s ≤ fuel)%nat →
  filter (λ c, c < 128) (runes_from fuel s) = filter (λ c, c < 128) (value <$> s).
Proof.
  revert s. induction fuel as [|fuel IH]; intros s Hlen.
  - by destruct s; [|simpl in Hlen; lia].
  - destruct s as [|b0 rest]; [done|]. cbn [runes_from].
    pose proof (DecodeRune_cases b0 rest) as Hcases.
    destruct (DecodeRune (b0 :: rest)) as [char width].
    destruct Hcases as [(Hb0 & -> & ->)|(Hb0 & Hchar & Hwidth & Hall)].
    + cbn [drop]. rewrite fmap_cons, !filter_cons, !decide_True by done.
      f_equal. apply IH. simpl in Hlen. lia.
    + rewrite filter_cons, decide_False by lia.
      rewrite IH by (rewrite length_drop; simpl in *; lia).
      rewrite <- (take_drop width (b0 :: rest)) at 2.
      rewrite fmap_app, list.filter_app.
      by rewrite (filter_ascii_none (take width (b0 :: rest))) by done.
Qed.

Lemma runes_ascii (s : string) c :
  c < 128 → c ∈ runes s ↔ ∃ b, b ∈ bytes_of_string s ∧ value b = c.
Proof.
  intros Hc. unfold runes.
  pose proof (runes_from_ascii (length (bytes_of_string s)) (bytes_of_string s)
                (le_n _)) as Hfilter.
  transitivity (c ∈ filter (λ c, c < 128) (runes_from (length (bytes_of_string s))
                                                     (bytes_of_string s))).
  { rewrite list_elem_of_filter. tauto. }
  rewrite Hfilter, list_elem_of_filter, list_elem_of_fmap. split.
  - intros [_ (b & -> & Hb)]. by exists b.
  - intros (b & Hb & <-). split; [done|]. by exists b.
Qed.

(** A class of characters below 128 is met in the loop exactly when a
    byte of the string is in it. *)
Lemma existsb_runes (P : Z → Prop) `{∀ c, Decision (P c)} (s : string) :
  (∀ c, P c → c < 128) →
  existsb (λ c, bool_decide (P c)) (runes s) = true
  ↔ ∃ b, b ∈ bytes_of_string s ∧ P (value b).
Proof.
  intros Hascii. rewrite existsb_exists. split.
  - intros (c & Hin%list_elem_of_In & Hc%bool_decide_eq_true).
    apply runes_ascii in Hin as (b & Hb & <-); [|by apply Hascii]. by exists b.
  - intros (b & Hb & HP). exists (value b). split; [|by apply bool_decide_eq_true].
    apply list_elem_of_In, runes_ascii; [by apply Hascii|]. by exists b.
Qed.
End utf8_props.

Section password_props.
Context `{GoErrors}.
Import password_rules.

Lemma bool_decide_between (P : Prop) `{Decision P} lo hi c :
  (P ↔ lo ≤ c ≤ hi) → bool_decide P = (lo <=? c) && (c <=? hi).
Proof.
  intros HP. destruct (Z.leb_spec lo c), (Z.leb_spec c hi); cbn [andb];
    [apply bool_decide_eq_true_2|apply bool_decide_eq_false_2..]; rewrite HP; lia.
Qed.

Lemma bool_decide_special c :
  bool_decide (is_special c)
  = (33 <=? c) && (c <=? 126) && negb (bool_decide (is_upper c))
    && negb (bool_decide (is_lower c)) && negb (bool_decide (is_digit c)).
Proof.
  rewrite <- (bool_decide_between (33 ≤ c ≤ 126) 33 126 c) by done.
  unfold is_special. repeat case_bool_decide; cbn [andb negb]; tauto.
Qed.

Lemma foldl_see rs hasUpper hasLower hasDigit hasSpecial :
  foldl see (hasUpper, hasLower, hasDigit, hasSpecial) rs =
  (hasUpper || existsb (λ c, bool_decide (is_upper c)) rs,
   hasLower || existsb (λ c, bool_decide (is_lower c)) rs,
   hasDigit || existsb (λ c, bool_decide (is_digit c)) rs,
   hasSpecial || existsb (λ c, bool_decide (is_special c)) rs).
Proof.
  revert hasUpper hasLower hasDigit hasSpecial.
  induction rs as [|c rs IH]; intros u l d sp; cbn [foldl existsb].
  - by rewrite !orb_false_r.
  - unfold see at 2. rewrite bool_decide_special.
    rewrite <- (bool_decide_between (is_upper c) 65 90 c) by done.
    rewrite <- (bool_decide_between (is_lower c) 97 122 c) by done.
    rewrite <- (bool_decide_between (is_digit c) 48 57 c) by done.
    assert (Hexcl : is_upper c → is_lower c → False) by (unfold is_upper, is_lower; lia).
    assert (Hexcl' : is_upper c → is_digit c → False) by (unfold is_upper, is_digit; lia).
    assert (Hexcl'' : is_lower c → is_digit c → False) by (unfold is_lower, is_digit; lia).
    destruct (bool_decide (is_upper c)) eqn:HU;
      destruct (bool_decide (is_lower c)) eqn:HL;
      destruct (bool_decide (is_digit c)) eqn:HD;
      destruct ((33 <=? c) && (c <=? 126)) eqn:HS;
      first
        [ apply bool_decide_eq_true in HU; apply bool_decide_eq_true in HL;
          by destruct (Hexcl HU HL)
        | apply bool_decide_eq_true in HU; apply bool_decide_eq_true in HD;
          by destruct (Hexcl' HU HD)
        | apply bool_decide_eq_true in HL; apply bool_decide_eq_true in HD;
          by destruct (Hexcl'' HL HD)
        | cbn [andb negb]; rewrite IH; cbn [orb];
          rewrite ?orb_true_r, ?orb_false_r; reflexivity ].
Qed.

(** X29. [ValidatePasswordStrength] accepts a password exactly when it
    has at least 8 bytes and, among its bytes, an upper-case letter, a
    lower-case letter and a digit of ASCII and one more printable ASCII
    character (33 to 126).  The length is counted in bytes, not in
    characters, and a character outside ASCII counts for none of the
    four. *)
Theorem ValidatePasswordStrength_accepts (password : string) :
  ValidatePasswordStrength password = Ok tt ↔
  (8 ≤ len password)%nat ∧
  (∃ b, b ∈ bytes_of_string password ∧ is_upper (utf8.value b)) ∧
  (∃ b, b ∈ bytes_of_string password ∧ is_lower (utf8.value b)) ∧
  (∃ b, b ∈ bytes_of_string password ∧ is_digit (utf8.value b)) ∧
  (∃ b, b ∈ bytes_of_string password ∧ is_special (utf8.value b)).
Proof.
  unfold ValidatePasswordStrength. case_decide as Hlen.
  { split; [done|]. intros [? _]. lia. }
  rewrite foldl_see. cbn [orb].
  pose proof (existsb_runes is_upper password) as HU.
  pose proof (existsb_runes is_lower password) as HL.
  pose proof (existsb_runes is_digit password) as HD.
  pose proof (existsb_runes is_special password) as HS.
  rewrite <- HU, <- HL, <- HD, <- HS
    by (unfold is_upper, is_lower, is_digit, is_special; intros; lia).
  destruct (existsb _ (utf8.runes password)); cbn [negb];
    [|split; [done|by intros (_ & ? & _)]].
  destruct (existsb _ (utf8.runes password)); cbn [negb];
    [|split; [done|by intros (_ & _ & ? & _)]].
  destruct (existsb _ (utf8.runes password)); cbn [negb];
    [|split; [done|by intros (_ & _ & _ & ? & _)]].
  destruct (existsb _ (utf8.runes password)); cbn [negb];
    [|split; [done|by intros (_ & _ & _ & _ & ?)]].
  split; [|done]. intros _. split_and!; [lia|done..].
Qed.

(** X30. [SetupMasterPassword] returns a password only when it has at
    least 8 bytes and was typed twice, the same both times.  A shorter
    password is refused before the confirmation is asked for, and a
    confirmation that differs is refused; nothing else is asked of the
    password. *)
Theorem SetupMasterPassword_rules (w : World) :
  (∀ p w', SetupMasterPassword w = (Ok p, w') →
     (8 ≤ len p)%nat ∧ ∃ rest, stdin w = Some p :: Some p :: rest ∧ stdin w' = rest) ∧
  (∀ p rest, stdin w = Some p :: rest → (len p < 8)%nat →
     ∃ w', SetupMasterPassword w
             = (Err (errors_New "password must be at least 8 characters long"), w') ∧
           stdin w' = rest) ∧
  (∀ p q rest, stdin w = Some p :: Some q :: rest → (8 ≤ len p)%nat →
     ∃ w', stdin w' = rest ∧
           SetupMasterPassword w
           = (if decide (p = q) then Ok p
              else Err (errors_New "passwords do not match"), w')).
Proof.
  unfold SetupMasterPassword, fmt_Println, password.getPassword, modify.
  munfold. cbn [stdin set_stdout set_stdin]. split_and!.
  - intros p w'. destruct (stdin w) as [|[p1|] rest1]; [done| |done].
    case_decide as Hlen; [done|]. cbn [stdin set_stdout set_stdin].
    destruct rest1 as [|[p2|] rest2]; [done| |done].
    case_decide as Hne; [done|]. intros [= <- <-]. subst p2.
    cbn [stdin set_stdout set_stdin].
    split; [lia|]. by exists rest2.
  - intros p rest -> Hlen. rewrite decide_True by done. by eexists.
  - intros p q rest -> Hlen. rewrite decide_False by lia.
    cbn [stdin set_stdout set_stdin].
    destruct (decide (p = q)) as [->|Hne].
    + rewrite decide_False by (intros Hne; by apply Hne).
      eexists. split; [|reflexivity]. reflexivity.
    + rewrite decide_True by done.
      eexists. split; [|reflexivity]. reflexivity.
Qed.
End password_props.

(* ===================================================================== *)
(** ** More worked examples                                               *)
(* ===================================================================== *)

Section reference_more_laws.
Import reference.

#[global] Instance reference_argon2_laws : @Argon2Laws lib.
Proof.
  split. intros password salt time memory threads keyLen. simpl. unfold pad.
  rewrite length_take, length_app, length_replicate. lia.
Qed.
End reference_more_laws.

Section more_examples.
Import reference scenario.


(** [GetMasterKey_from_cache]: the cached key is returned, and the
    password waiting on the terminal is not read. *)
Lemma GetMasterKey_from_cache_witness :
  ∃ w', config.GetMasterKey config_cold world_cached
          = (Ok (cached_key, config.set_MasterKey cached_key config_cold), w') ∧
        stdin w' = [Some "TestPassword123!"] ∧ stdout w' = [].
Proof.
  eexists. split.
  - apply (GetMasterKey_from_cache config_cold cached_key 300 world_rich
             world_cached world_cached).
    + vm_compute; reflexivity.
    + intros mode data Hf. vm_compute in Hf. discriminate.
    + reflexivity.
    + reflexivity.
    + reflexivity.
    + discriminate.
    + by vm_compute.
  - split; vm_compute; reflexivity.
Defined.

(** [GetMasterKey_again]: after the password has been asked for once. *)
Lemma GetMasterKey_again_witness :
  let key := argon2_IDKey (bytes_of_string "TestPassword123!") (config.Salt config_cold)
                          1 (64 * 1024) 4 (N.of_nat crypto.KeySize) in
  let c' := config.set_MasterKey key config_cold in
  let w' := (config.GetMasterKey config_cold world).2 in
  config.GetMasterKey config_cold world = (Ok (key, c'), w') ∧
  key ≠ [] ∧ config_admin.GetMasterKeySilent c' = key ∧
  config.Salt c' = config.Salt config_cold ∧
  config.ConfigDir c' = config.ConfigDir config_cold ∧
  ∀ w'', config.GetMasterKey c' w'' = (Ok (key, c'), w'').
Proof.
  intros key c' w'.
  assert (Hget : config.GetMasterKey config_cold world = (Ok (key, c'), w'))
    by (vm_compute; reflexivity).
  split; [exact Hget|].
  exact (GetMasterKey_again config_cold c' key world w' Hget).
Defined.

(** [GetMasterKey_timeout_default]: a timeout of minus one. *)
Lemma GetMasterKey_timeout_default_witness :
  let c0 := config_admin.SetPasswordCacheTimeout (-1) config_cold in
  let c300 := config_admin.SetPasswordCacheTimeout 300 config_cold in
  config.PasswordCacheTimeout c0 = 0 ∧
  returned_key (config.GetMasterKey c0 world).1
    = returned_key (config.GetMasterKey c300 world).1 ∧
  (config.GetMasterKey c0 world).2 = (config.GetMasterKey c300 world).2.
Proof.
  apply (GetMasterKey_timeout_default config_cold (-1) world). lia.
Defined.

(** [Initialize_key]: a first run in the sample world, whose random
    source has exactly the 64 bytes needed, and the login that
    follows. *)
Lemma Initialize_key_witness :
  let salt := replicate 32 "007"%byte in
  let c := {| config.MasterKey :=
                argon2_IDKey (bytes_of_string "TestPassword123!") salt
                             1 (64 * 1024) 4 (N.of_nat crypto.KeySize);
              config.Salt := salt; config.ConfigDir := "/home/u/.ark";
              config.PasswordCacheTimeout := 300 |} in
  let w' := (config_admin.Initialize "/home/u/.ark" "TestPassword123!" world).2 in
  config_admin.Initialize "/home/u/.ark" "TestPassword123!" world = (Ok (c, salt), w') ∧
  rand_Reader w' = [] ∧
  ∃ w2, config.GetMasterKey (config.set_MasterKey [] c) world
          = (Ok (config.MasterKey c, c), w2).
Proof.
  intros salt c w'.
  assert (Hinit : config_admin.Initialize "/home/u/.ark" "TestPassword123!" world
                  = (Ok (c, salt), w')) by (vm_compute; reflexivity).
  split; [exact Hinit|].
  destruct (Initialize_key "/home/u/.ark" "TestPassword123!" world) as [_ Hfacts].
  destruct (Hfacts c salt w' Hinit) as (_ & _ & _ & Hrnd & _ & _ & _ & Hlogin).
  split; [rewrite Hrnd; reflexivity|].
  apply (Hlogin world ErrCacheNotFound world []).
  - vm_compute; reflexivity.
  - reflexivity.
  - discriminate.
Defined.



(** [tags_are_a_set]: a third tag for the sample entry. *)
Lemma tags_are_a_set_witness :
  NoDup (models_vault.Tags entry_vault) ∧
  ∃ e1 w1, vault_entry.AddTag "api" entry_vault world = (Ok e1, w1) ∧
    vault_entry.HasTag "api" e1 = true ∧ NoDup (models_vault.Tags e1) ∧
    (∀ t, t ∈ models_vault.Tags e1 ↔ t ∈ models_vault.Tags entry_vault ∨ t = "api") ∧
    vault_entry.AddTag "api" e1 w1 = (Ok e1, w1) ∧
    ∃ e2 w2, vault_entry.RemoveTag "api" e1 w1 = (Ok e2, w2) ∧
      vault_entry.HasTag "api" e2 = false ∧ NoDup (models_vault.Tags e2) ∧
      (∀ t, t ∈ models_vault.Tags e2 ↔ t ∈ models_vault.Tags entry_vault ∧ t ≠ "api").
Proof.
  assert (Hnd : NoDup (models_vault.Tags entry_vault)).
  { apply (bool_decide_unpack (NoDup _)). by vm_compute. }
  split; [exact Hnd|]. exact (tags_are_a_set "api" entry_vault world Hnd).
Defined.

(** [Set_then_Get]: the entry of the design document, with one tag
    given twice.  Its strings are plain ASCII and it survives the trip
    through JSON. *)
Lemma Set_then_Get_witness :
  vault_manager.Set_ manager "db-pass" "s3cr3t" "text" "database password"
    ["prod"; "db"; "prod"] world = (Ok tt, world_vault) ∧
  JsonSerializable entry_vault ∧
  storage.Get database "vault" "db-pass" world_vault = (Ok entry_vault, world_vault) ∧
  ∃ e w0,
    storage.Set_ database "vault" "db-pass" e w0 = (Ok tt, world_vault) ∧
    vault_manager.isValidFormat "text" = true ∧
    models_vault.Key e = "db-pass" ∧ models_vault.Value e = "s3cr3t" ∧
    models_vault.Format e = "text" ∧
    models_vault.Description e = "database password" ∧ models_vault.Metadata e = ∅ ∧
    models_vault.CreatedAt e = clock world (ticks world) ∧
    NoDup (models_vault.Tags e) ∧
    sublist (models_vault.Tags e) ["prod"; "db"; "prod"] ∧
    (∀ t, t ∈ models_vault.Tags e ↔ t ∈ ["prod"; "db"; "prod"]) ∧
    (JsonSerializable e →
     storage.Get database "vault" "db-pass" world_vault = (Ok e, world_vault) ∧
     ∃ w2, vault.Get manager "db-pass" world_vault
           = (Ok (models_vault.set_UpdatedAt (clock world_vault (ticks world_vault)) e),
              w2)).
Proof.
  assert (Hset : vault_manager.Set_ manager "db-pass" "s3cr3t" "text" "database password"
                   ["prod"; "db"; "prod"] world = (Ok tt, world_vault))
    by (vm_compute; reflexivity).
  split; [exact Hset|]. split; [apply json_Unmarshal_Marshal|].
  split; [vm_compute; reflexivity|].
  exact (Set_then_Get manager "db-pass" "s3cr3t" "text" "database password"
           ["prod"; "db"; "prod"] world world_vault Hset).
Defined.

(** [Update_replaces]: the sample entry gets a new value and a format
    [Set] would have refused, and is read back as written. *)
Lemma Update_replaces_witness :
  let w1 := (vault_manager.Update manager "db-pass" "n3w" "xml" "rotated" ["db"]
               world_vault).2 in
  vault_manager.isValidFormat "xml" = false ∧
  vault_manager.Update manager "db-pass" "n3w" "xml" "rotated" ["db"] world_vault
    = (Ok tt, w1) ∧
  ∃ e1,
    storage.Get database "vault" "db-pass" w1 = (Ok e1, w1) ∧
    models_vault.Key e1 = "db-pass" ∧
    models_vault.CreatedAt e1 = 1700000000000000000 ∧
    models_vault.Metadata e1 = ∅ ∧
    models_vault.Value e1 = "n3w" ∧ models_vault.Format e1 = "xml" ∧
    models_vault.Description e1 = "rotated" ∧
    NoDup (models_vault.Tags e1) ∧ sublist (models_vault.Tags e1) ["db"] ∧
    ∀ t, t ∈ models_vault.Tags e1 ↔ t ∈ ["db"].
Proof.
  intros w1.
  assert (Hget : storage.Get database "vault" "db-pass" world_vault
                 = (Ok entry_vault, world_vault)) by (vm_compute; reflexivity).
  assert (Hupd : vault_manager.Update manager "db-pass" "n3w" "xml" "rotated" ["db"]
                   world_vault = (Ok tt, w1)) by (vm_compute; reflexivity).
  split; [vm_compute; reflexivity|]. split; [exact Hupd|].
  destruct (Update_replaces manager "db-pass" "n3w" "xml" "rotated" ["db"] entry_vault
              world_vault w1 Hget Hupd)
    as (e1 & w0 & _ & Hk & Hc & Hm & Hv & Hf & Hd & Hnd & Hsub & Hmem & Hread).
  exists e1. split; [apply Hread, json_Unmarshal_Marshal|].
  split_and!; assumption.
Defined.

(** [Delete_reports_missing]: the sample entry is deleted, once; a key
    that was never stored is reported. *)
Lemma Delete_reports_missing_witness :
  (∃ w1, vault_manager.Delete manager "db-pass" world_vault = (Ok tt, w1) ∧
         vault_manager.Delete manager "db-pass" w1
           = (Err (errors_New "vault entry 'db-pass' not found"), w1)) ∧
  vault_manager.Delete manager "api-key" world_vault
    = (Err (errors_New "vault entry 'api-key' not found"), world_vault) ∧
  vault_manager.Update manager "api-key" "v" "text" "" [] world_vault
    = (Err (errors_New "vault entry 'api-key' not found"), world_vault).
Proof.
  assert (Hb : boltdb world_vault !! "vault"
               = Some (default ∅ (boltdb world_vault !! "vault")))
    by (vm_compute; reflexivity).
  split.
  - destruct (proj1 (Delete_reports_missing manager "db-pass" world_vault _ Hb))
      as (w1 & Hdel & _ & _ & Hagain).
    { vm_compute. eexists. reflexivity. }
    exists w1. split; [exact Hdel|exact Hagain].
  - destruct (proj2 (Delete_reports_missing manager "api-key" world_vault _ Hb))
      as [Hdel Hupd].
    { vm_compute; reflexivity. }
    split; [exact Hdel|apply Hupd].
Defined.

(** [Search_needs_key_match]: the sample entry is not found through a
    word of its description. *)
Lemma Search_needs_key_match_witness :
  vault_entry.MatchesSearch "database" entry_vault = true ∧
  vault_manager.Search manager "database" world_vault = (Ok [], world_vault).
Proof.
  split; [vm_compute; reflexivity|].
  pose (b := default ∅ (boltdb world_vault !! "vault")).
  assert (Hb : boltdb world_vault !! "vault" = Some b) by (vm_compute; reflexivity).
  assert (Hkeys : (bbolt_tx.pairs b).*1 = ["db-pass"]) by (vm_compute; reflexivity).
  clearbody b.
  apply (Search_needs_key_match manager "database" world_vault b Hb).
  intros key Hkey Hocc.
  destruct (pairs_keys b) as (_ & _ & Hin). apply Hin in Hkey.
  rewrite Hkeys in Hkey. apply list_elem_of_singleton in Hkey. subst key.
  apply contains_decides in Hocc. vm_compute in Hocc. discriminate.
Defined.

(** [SetMetadata_then_GetMetadata]: an owner for the sample entry. *)
Lemma SetMetadata_then_GetMetadata_witness :
  let w1 := (vault_manager.SetMetadata manager "db-pass" "owner" "ops" world_vault).2 in
  vault_manager.SetMetadata manager "db-pass" "owner" "ops" world_vault = (Ok tt, w1) ∧
  (∃ e w0, storage.Set_ database "vault" "db-pass" e w0 = (Ok tt, w1) ∧
           vault_entry.GetMetadata "owner" e = Some "ops" ∧ JsonSerializable e) ∧
  ∃ w2, vault_manager.GetMetadata manager "db-pass" "owner" w1 = (Ok (Some "ops"), w2).
Proof.
  intros w1.
  assert (Hset : vault_manager.SetMetadata manager "db-pass" "owner" "ops" world_vault
                 = (Ok tt, w1)) by (vm_compute; reflexivity).
  split; [exact Hset|].
  destruct (SetMetadata_then_GetMetadata manager "db-pass" "owner" "ops" world_vault w1
              Hset) as (e & w0 & Hstore & Hmeta & Hread).
  split.
  - exists e, w0. split_and!; [exact Hstore|exact Hmeta|apply json_Unmarshal_Marshal].
  - apply Hread, json_Unmarshal_Marshal.
Defined.

(** [manager_tags]: a tag more, and a tag less, for the sample entry. *)
Lemma manager_tags_witness :
  let w1 := (vault_manager.AddTag manager "db-pass" "api" world_vault).2 in
  let w1' := (vault_manager.RemoveTag manager "db-pass" "prod" world_vault).2 in
  (∃ e1, storage.Get database "vault" "db-pass" w1 = (Ok e1, w1) ∧
         vault_entry.HasTag "api" e1 = true ∧
         ∀ t, t ∈ models_vault.Tags e1 ↔ t ∈ models_vault.Tags entry_vault ∨ t = "api") ∧
  (∃ e1, storage.Get database "vault" "db-pass" w1' = (Ok e1, w1') ∧
         vault_entry.HasTag "prod" e1 = false ∧
         ∀ t, t ∈ models_vault.Tags e1 ↔ t ∈ models_vault.Tags entry_vault ∧ t ≠ "prod").
Proof.
  intros w1 w1'.
  assert (Hget : storage.Get database "vault" "db-pass" world_vault
                 = (Ok entry_vault, world_vault)) by (vm_compute; reflexivity).
  assert (Hadd : vault_manager.AddTag manager "db-pass" "api" world_vault = (Ok tt, w1))
    by (vm_compute; reflexivity).
  assert (Hrm : vault_manager.RemoveTag manager "db-pass" "prod" world_vault = (Ok tt, w1'))
    by (vm_compute; reflexivity).
  assert (Hnd : NoDup (models_vault.Tags entry_vault)).
  { apply (bool_decide_unpack (NoDup _)). by vm_compute. }
  split.
  - destruct (proj1 (manager_tags manager "db-pass" "api" entry_vault world_vault w1 Hget)
                Hadd) as (e1 & w0 & _ & Hhas & Hmem & Hread).
    exists e1. split_and!; [apply Hread, json_Unmarshal_Marshal|exact Hhas|exact Hmem].
  - destruct (proj2 (manager_tags manager "db-pass" "prod" entry_vault world_vault w1' Hget)
                Hrm Hnd) as (e1 & w0 & _ & Hhas & Hmem & Hread).
    exists e1. split_and!; [apply Hread, json_Unmarshal_Marshal|exact Hhas|exact Hmem].
Defined.

(** [List_reads_each]: the vault with the sample entry in it. *)
Lemma List_reads_each_witness :
  let b := default ∅ (boltdb world_vault !! "vault") in
  ∃ keys kept entries w',
    storage_scan.List database "vault" world_vault = (Ok keys, world_vault) ∧
    vault_manager.List manager world_vault = (Ok entries, w') ∧
    (∀ tag, vault_manager.GetByTag manager tag world_vault
            = (Ok (List.filter (vault_entry.HasTag tag) entries), w')) ∧
    (∀ format, vault_manager.GetByFormat manager format world_vault
               = (Ok (List.filter (λ e, bool_decide (models_vault.Format e = format))
                                  entries), w')) ∧
    sublist kept keys ∧
    (∀ key, key ∈ kept ↔ ∃ e0 : models_vault.VaultEntry, stored database b key e0) ∧
    Forall2 (λ e key, ∃ e0 t, stored database b key e0 ∧
                              e = models_vault.set_UpdatedAt t e0)
            entries kept.
Proof.
  intros b.
  apply (List_reads_each manager world_vault b).
  vm_compute; reflexivity.
Defined.

(** [decryptContent_encryptContent]: the word ["hello"] under the
    all-zero key. *)
Lemma decryptContent_encryptContent_witness :
  let content := bytes_of_string "hello" in
  (∃ encrypted w', dirlock.encryptContent content zero_key world = (Ok encrypted, w') ∧
     length encrypted = 33%nat ∧
     dirlock.decryptContent encrypted zero_key = Ok content) ∧
  ∀ w0 encrypted w', dirlock.encryptContent content zero_key w0 = (Ok encrypted, w') →
                     dirlock.decryptContent encrypted zero_key = Ok content.
Proof.
  intros content.
  apply (decryptContent_encryptContent content zero_key world).
  - reflexivity.
  - vm_compute. lia.
Defined.



(** [IsLocked_tracks]: the sample directory is locked and unlocked by
    a process that runs as root. *)
Lemma IsLocked_tracks_witness :
  let w1 := (dirlock.Lock service secret true "" false world_dir_root).2 in
  let w2 := (dirlock.Unlock service secret "" "" w1).2 in
  dirlock.Lock service secret true "" false world_dir_root = (Ok tt, w1) ∧
  dirlock_service.IsLocked service secret w1 = (Ok true, w1) ∧
  dirlock.Lock service secret true "" false w1 = (Err (ErrNotADirectory secret), w1) ∧
  dirlock.Unlock service secret "" "" w1 = (Ok tt, w2) ∧
  dirlock_service.IsLocked service secret w2 = (Ok false, w2).
Proof.
  intros w1 w2.
  assert (Habs : filepath_Abs secret = Ok secret) by reflexivity.
  assert (Hclean : strings_HasPrefix secret "/" = true → secret = secret) by done.
  assert (Hlock : dirlock.Lock service secret true "" false world_dir_root = (Ok tt, w1))
    by (vm_compute; reflexivity).
  assert (Hunlock : dirlock.Unlock service secret "" "" w1 = (Ok tt, w2))
    by (vm_compute; reflexivity).
  destruct (proj1 (IsLocked_tracks service secret secret world_dir_root w1 Habs Hclean)
              "" false Hlock) as [Hlocked Hagain].
  pose proof (proj2 (IsLocked_tracks service secret secret w1 w2 Habs Hclean)
                "" "" Hunlock) as Hunlocked.
  split_and!; [exact Hlock|exact Hlocked|apply Hagain|exact Hunlock|exact Hunlocked].
Defined.

(** [Stamp_touches_LastAccessed]: the record of the sample archive, and
    a path without a record. *)
Lemma Stamp_touches_LastAccessed_witness :
  let record' := dirlock_service.set_LastAccessed 1700000000000000000 record in
  (∃ w', dirlock_service.Stamp service secret world_sealed = (Ok tt, w') ∧
         storage.Get database "locked_dirs" secret w' = (Ok record', w')) ∧
  dirlock_service.Stamp service "/home/u/other" world_sealed = (Ok tt, world_sealed).
Proof.
  intros record'. split.
  - apply (proj1 (Stamp_touches_LastAccessed service secret world_sealed) record
             (encode_bytes (models_lock.to_JSON record'))).
    + vm_compute; reflexivity.
    + reflexivity.
    + vm_compute. lia.
    + discriminate.
    + by vm_compute.
    + by vm_compute.
  - apply (proj2 (Stamp_touches_LastAccessed service "/home/u/other" world_sealed)
             (ErrKeyNotFound "/home/u/other" "locked_dirs")).
    vm_compute; reflexivity.
Defined.

(** [service_List_reads_each]: the store with the record of the sample
    archive. *)
Lemma service_List_reads_each_witness :
  let b := default ∅ (boltdb world_sealed !! "locked_dirs") in
  ∃ keys kept recs,
    storage_scan.List database "locked_dirs" world_sealed = (Ok keys, world_sealed) ∧
    dirlock_service.List service world_sealed = (Ok recs, world_sealed) ∧
    sublist kept keys ∧
    (∀ key, key ∈ kept ↔ ∃ rec : models_lock.LockedDirectory, stored database b key rec) ∧
    Forall2 (λ rec key, stored database b key rec) recs kept ∧
    Forall (λ rec, models_lock.Password rec = "") recs.
Proof.
  intros b.
  apply (service_List_reads_each service world_sealed b).
  vm_compute; reflexivity.
Defined.
(** [SetupMasterPassword_rules]: a password of six bytes; a password
    typed twice; a confirmation that is one byte short. *)
Lemma SetupMasterPassword_rules_witness :
  (∃ w', password_rules.SetupMasterPassword (typed [Some "secret"; Some "secret"] world)
           = (Err (errors_New "password must be at least 8 characters long"), w') ∧
         stdin w' = [Some "secret"]) ∧
  (∃ w', stdin w' = [] ∧
         password_rules.SetupMasterPassword
           (typed [Some "TestPassword123!"; Some "TestPassword123!"] world)
         = (Ok "TestPassword123!", w')) ∧
  (∃ w', stdin w' = [] ∧
         password_rules.SetupMasterPassword
           (typed [Some "TestPassword123!"; Some "TestPassword123"] world)
         = (Err (errors_New "passwords do not match"), w')).
Proof.
  split_and!.
  - destruct (SetupMasterPassword_rules (typed [Some "secret"; Some "secret"] world))
      as (_ & Hshort & _).
    apply (Hshort "secret" [Some "secret"] eq_refl). simpl. lia.
  - destruct (SetupMasterPassword_rules
                (typed [Some "TestPassword123!"; Some "TestPassword123!"] world))
      as (_ & _ & Hconfirm).
    apply (Hconfirm "TestPassword123!" "TestPassword123!" [] eq_refl). simpl. lia.
  - destruct (SetupMasterPassword_rules
                (typed [Some "TestPassword123!"; Some "TestPassword123"] world))
      as (_ & _ & Hconfirm).
    apply (Hconfirm "TestPassword123!" "TestPassword123" [] eq_refl). simpl. lia.
Defined.
End more_examples.
